(** * kid_readout: demodulation and noise-spectrum pipeline

    A shallow embedding of the signal-processing core of the repository:

    - [kid_readout/roach/demodulator.py]: tone offset frequency, PFB response
      lookup, packet-phase correction, period of the offset frequencies and
      the single-channel demodulator;
    - [kid_readout/roach/heterodyne.py]: the offset frequency computed inline
      by [RoachHeterodyne.demodulate_data];
    - [kid_readout/analysis/timeseries/iqnoise.py]: the shared spectral
      helper and the per-bin principal-component decomposition.

    Number model.  A Python/NumPy float is read as the exact number it
    stands for: rationals ([Q]) wherever the code only adds, multiplies,
    divides and compares (offset frequencies, the response table, periods),
    real numbers ([R]) wherever it takes a square root, sine, cosine or
    exponential.  Integers are [Z]; Python 2 integer [/] and [%] are the
    floor division and modulus [Z.div] and [Z.modulo], [>>] is [Z.shiftr].
    Rounding error is outside the model. *)

From Stdlib Require Import ZArith QArith Qminmax Qround List Sorted Bool Lia Lqa.
From Stdlib Require Import Reals Lra Psatz Qreals.
Import ListNotations.

(** ** Exceptions *)

(** The Python exceptions the modelled code can raise. *)
Inductive exn : Set :=
| ValueError
| ZeroDivisionError
| IndexError
| OverflowError
| AssertionError
| LinAlgError.

Inductive result (A : Type) : Type :=
| Ok (a : A)
| Raise (e : exn).

Arguments Ok {A} a.
Arguments Raise {A} e.

Definition bind {A B : Type} (r : result A) (k : A -> result B) : result B :=
  match r with
  | Ok a => k a
  | Raise e => Raise e
  end.

Notation "x <- r ;; k" := (bind r (fun x => k))
  (at level 61, r at next level, right associativity).
Notation "' p <- r ;; k" := (bind r (fun x => let p := x in k))
  (at level 61, p pattern, r at next level, right associativity).

(** A loop that builds one output entry per input entry and stops at the
    first exception. *)
Fixpoint mapM {A B : Type} (f : A -> result B) (l : list A) : result (list B) :=
  match l with
  | [] => Ok []
  | a :: tl => b <- f a ;; bs <- mapM f tl ;; Ok (b :: bs)
  end.

(** ** Offset frequencies and their period (rational part) *)

Module Demod.

Local Open Scope Q_scope.

(** [int(x)] on a float: truncation towards zero. *)
Definition py_int (q : Q) : Z := Z.quot (Qnum q) (Zpos (Qden q)).

(** [tone_offset_frequency(tone_bin, tone_num_samples, fft_bin, nfft)]:
    [nfft * (k / float(ns)) - m]. *)
Definition tone_offset_frequency (tone_bin tone_num_samples fft_bin nfft : Z) : Q :=
  let k := tone_bin in
  let m := fft_bin in
  let ns := tone_num_samples in
  inject_Z nfft * (inject_Z k / inject_Z ns) - inject_Z m.

(** The offset frequency [RoachHeterodyne.demodulate_data] computes inline for
    one channel: [foffs = (k * nfft - m * ns) / float(ns)].  The numerator is
    integer arithmetic, the quotient a float division. *)
Definition demodulate_data_foffs (k m nfft ns : Z) : Q :=
  inject_Z (k * nfft - m * ns) / inject_Z ns.

(** [np.max] of a one-dimensional float array; NumPy raises [ValueError] on
    an empty array ("zero-size array to reduction operation maximum"). *)
Definition np_max (l : list Q) : result Q :=
  match l with
  | [] => Raise ValueError
  | x :: tl => Ok (fold_left Qmax tl x)
  end.

(** The boolean mask [foffs != 0] and the selection [foffs[mask]]. *)
Definition nonzero (f : Q) : bool := negb (Qeq_bool f 0).

(** [get_foffs_period(foffs)]:
    [mask = foffs != 0; return int(np.max(1/foffs[mask]))]. *)
Definition get_foffs_period (foffs : list Q) : result Z :=
  let masked := filter nonzero foffs in
  mx <- np_max (map Qinv masked) ;;
  Ok (py_int mx).

(** The slice [data[:e]] of a Python sequence, for any integer [e]. *)
Definition py_slice_to {A : Type} (e : Z) (data : list A) : list A :=
  if (0 <=? e)%Z then firstn (Z.to_nat e) data
  else firstn (Z.to_nat (Z.of_nat (length data) + e)) data.

(** The truncation step of [Demodulator.demodulate_stream]:
    [if data.shape[0] % nt: data = data[: nt*(data.shape[0]//nt), :]].
    Both operands are Python integers, so [nt = 0] raises
    [ZeroDivisionError]. *)
Definition truncate_to_period {A : Type} (nt : Z) (data : list A) : result (list A) :=
  let n := Z.of_nat (length data) in
  if (nt =? 0)%Z then Raise ZeroDivisionError
  else if negb (n mod nt =? 0)%Z then Ok (py_slice_to (nt * (n / nt)) data)
  else Ok data.

(** [Demodulator.demodulate_stream], up to the buffer that enters the
    element-wise product of its last line: the offsets of all channels of the
    bank, their period, and the truncated buffer.  [tone_bins] and [fft_bins]
    are the rows [self.tone_bins[bank,:]] and [self.fft_bins[bank,:]]; the
    product [pphase * wc * exp(-1j*phi0) * demod_wave * data] is taken
    element by element over the truncated buffer and keeps its shape. *)
Definition stream_foffs (tone_bins fft_bins : list Z) (tone_nsamp nfft : Z) : list Q :=
  map (fun km => tone_offset_frequency (fst km) tone_nsamp (snd km) nfft)
      (combine tone_bins fft_bins).

Definition demodulate_stream_buffer {A : Type}
    (tone_bins fft_bins : list Z) (tone_nsamp nfft : Z) (data : list A)
  : result (list Q * Z * list A) :=
  let foffs := stream_foffs tone_bins fft_bins tone_nsamp nfft in
  nt <- get_foffs_period foffs ;;
  data' <- truncate_to_period nt data ;;
  Ok (foffs, nt, data').

(** The period as the specification words it, "the smallest positive
    reciprocal-offset period across channels"; kept apart from
    [get_foffs_period] and only compared with it. *)
Definition spec_smallest_positive_period (foffs : list Q) : option Q :=
  match filter (fun p => if Qlt_le_dec 0 p then true else false)
               (map Qinv (filter nonzero foffs)) with
  | [] => None
  | x :: tl => Some (fold_left Qmin tl x)
  end.

(** *** [np.interp] and the PFB response lookup *)

(** The scan of [np.interp] once [x] is known to lie at or after the node
    [(x0, y0)]: the value at the last node, the tabulated value at a node, and
    [slope * (x - x0) + y0] strictly inside an interval. *)
Fixpoint interp_scan (x x0 y0 : Q) (rest : list (Q * Q)) : Q :=
  match rest with
  | [] => y0
  | (x1, y1) :: rest' =>
      if Qlt_le_dec x x1 then
        if Qeq_bool x0 x then y0
        else (y1 - y0) / (x1 - x0) * (x - x0) + y0
      else interp_scan x x1 y1 rest'
  end.

(** [np.interp(x, xp, fp)] with the default [left] and [right]: below the
    first sample point the first value, above the last the last value (NumPy
    does not raise there); [ValueError] on an empty table or on tables of
    different lengths.  [xp] is expected increasing, as NumPy requires. *)
Definition np_interp (x : Q) (xp fp : list Q) : result Q :=
  if negb (length xp =? length fp)%nat then Raise ValueError
  else
    match combine xp fp with
    | [] => Raise ValueError
    | (x0, y0) :: rest =>
        let '(xn, yn) := last rest (x0, y0) in
        if Qlt_le_dec xn x then Ok yn
        else if Qlt_le_dec x x0 then Ok y0
        else Ok (interp_scan x x0 y0 rest)
    end.

End Demod.

(** ** Complex numbers over the reals *)

Module Cplx.

Local Open Scope R_scope.

Record C : Type := mkC { Re : R; Im : R }.

Definition RtoC (x : R) : C := mkC x 0.
Definition Ci : C := mkC 0 1.
Definition Cadd (a b : C) : C := mkC (Re a + Re b) (Im a + Im b).
Definition Cneg (a : C) : C := mkC (- Re a) (- Im a).
Definition Csub (a b : C) : C := mkC (Re a - Re b) (Im a - Im b).
Definition Cmul (a b : C) : C :=
  mkC (Re a * Re b - Im a * Im b) (Re a * Im b + Im a * Re b).
Definition Cconj (a : C) : C := mkC (Re a) (- Im a).

(** [|a|^2]. *)
Definition Cnorm2 (a : C) : R := Re a * Re a + Im a * Im a.

Definition Cinv (a : C) : C := mkC (Re a / Cnorm2 a) (- Im a / Cnorm2 a).
Definition Cdiv (a b : C) : C := Cmul a (Cinv b).

(** [np.exp] on a complex argument. *)
Definition Cexp (z : C) : C :=
  mkC (exp (Re z) * cos (Im z)) (exp (Re z) * sin (Im z)).

Definition Csum (l : list C) : C := fold_right Cadd (RtoC 0) l.

(** A complex number scaled by a real factor. *)
Definition Cscale (t : R) (z : C) : C := mkC (t * Re z) (t * Im z).

End Cplx.

(** ** The demodulator *)

Module Demodulate.

Import Cplx Demod.

(** The attributes of a [Demodulator] instance the modelled methods read.
    [_window_frequency] and [_window_response] are the table built once by
    [__init__] from the window's Fourier transform. *)
Record Demodulator : Type := mkDemodulator {
  nfft : Z;
  num_taps : Z;
  interpolation_factor : Z;
  hardware_delay_samples : Q;
  _window_frequency : list Q;
  _window_response : list Q
}.

(** [Demodulator.compute_pfb_response(normalized_frequency)]:
    [1/np.interp(normalized_frequency, self._window_frequency,
    self._window_response)]. *)
Definition compute_pfb_response (self : Demodulator) (normalized_frequency : Q)
  : result Q :=
  r <- np_interp normalized_frequency (_window_frequency self) (_window_response self) ;;
  Ok (1 / r)%Q.

(** Python 2 [a / b] on integers. *)
Definition py_floordiv (a b : Z) : result Z :=
  if (b =? 0)%Z then Raise ZeroDivisionError else Ok (a / b)%Z.

(** [int(np.log2(n))] for an integer [n]: [np.log2(0)] is minus infinity and
    [int] of it raises [OverflowError]; the logarithm of a negative number is
    not-a-number and [int] of it raises [ValueError]. *)
Definition int_log2 (n : Z) : result Z :=
  if (n =? 0)%Z then Raise OverflowError
  else if (n <? 0)%Z then Raise ValueError
  else Ok (Z.log2 n).

(** [a >> s]; a negative shift count raises [ValueError] on Python integers
    (NumPy leaves it unspecified). *)
Definition py_rshift (a s : Z) : result Z :=
  if (s <? 0)%Z then Raise ValueError else Ok (Z.shiftr a s).

(** The integer part of [packet_phase]: the reduced sequence number, [multy]
    and [modn]. *)
Definition packet_phase_ints (seq_no nchan nfft ns : Z) : result (Z * Z * Z) :=
  let packet_bins := 1024%Z in
  let packet_counts := (nfft * packet_bins)%Z in
  chan_counts <- py_floordiv packet_counts nchan ;;
  lg <- int_log2 chan_counts ;;
  let shift := (lg - 1)%Z in
  modn <- py_floordiv ns chan_counts ;;
  let modn := if (modn =? 0)%Z then 1%Z else modn in
  multy <- py_floordiv ns nfft ;;
  seq_no <- py_rshift seq_no shift ;;
  let seq_no := (seq_no mod modn)%Z in
  Ok (seq_no, multy, modn).

(** [np.exp(-1j * 2. * np.pi * seq_no * foffs * multy / modn)] for one
    channel, evaluated left to right as Python does. *)
Definition packet_phase_factor (seq_no multy modn : Z) (f : Q) : C :=
  Cexp (Cdiv
          (Cmul (Cmul (Cmul (Cmul (Cmul (Cneg Ci) (RtoC 2)) (RtoC PI))
                            (RtoC (IZR seq_no)))
                      (RtoC (Q2R f)))
                (RtoC (IZR multy)))
          (RtoC (IZR modn))).

(** [packet_phase(seq_no, foffs, nchan, nfft, ns)]; [foffs] is the vector of
    offsets (a scalar offset is the one-element vector). *)
Definition packet_phase (seq_no : Z) (foffs : list Q) (nchan nfft ns : Z)
  : result (list C) :=
  '(s, multy, modn) <- packet_phase_ints seq_no nchan nfft ns ;;
  Ok (map (packet_phase_factor s multy modn) foffs).

(** [seq_nos[0]]. *)
Definition first_seq_no (seq_nos : list Z) : result Z :=
  match seq_nos with
  | [] => Raise IndexError
  | s :: _ => Ok s
  end.

(** [wc*np.exp(-1j * (2 * np.pi * foffs * t + phi0)) * data] at sample [t]. *)
Definition demod_sample (wc foffs : Q) (phi0 : R) (t : nat) (d : C) : C :=
  Cmul (Cmul (RtoC (Q2R wc))
             (Cexp (Cmul (Cneg Ci) (RtoC (2 * PI * Q2R foffs * INR t + phi0)))))
       d.

(** [np.exp(2j*np.pi*self.hardware_delay_samples*tone_bin/tone_num_samples)]. *)
Definition hardware_delay_factor (delay : Q) (tone_bin tone_num_samples : Z) : C :=
  Cexp (Cdiv (Cmul (Cmul (Cmul (Cmul (RtoC 2) Ci) (RtoC PI)) (RtoC (Q2R delay)))
                   (RtoC (IZR tone_bin)))
             (RtoC (IZR tone_num_samples))).

(** [Demodulator.demodulate(data, tone_bin, tone_num_samples, tone_phase,
    fft_bin, nchan, seq_nos=None)].  [seq_nos] is [None] or an array; the
    test [type(seq_nos) is np.ndarray] is the match on [Some]. *)
Definition demodulate (self : Demodulator) (data : list C)
    (tone_bin tone_num_samples : Z) (tone_phase : R) (fft_bin nchan : Z)
    (seq_nos : option (list Z)) : result (list C) :=
  let phi0 := tone_phase in
  let nfft := nfft self in
  let ns := tone_num_samples in
  let foffs := tone_offset_frequency tone_bin tone_num_samples fft_bin nfft in
  wc <- compute_pfb_response self foffs ;;
  let t := seq 0 (length data) in
  let demod := map (fun td => demod_sample wc foffs phi0 (fst td) (snd td))
                   (combine t data) in
  demod <- match seq_nos with
           | Some s =>
               s0 <- first_seq_no s ;;
               pphase <- packet_phase s0 [foffs] nchan nfft ns ;;
               Ok (map (fun z => Cmul z (hd (RtoC 1) pphase)) demod)
           | None => Ok demod
           end ;;
  if nonzero (hardware_delay_samples self) then
    Ok (map (fun z => Cmul z
               (hardware_delay_factor (hardware_delay_samples self)
                                      tone_bin tone_num_samples)) demod)
  else Ok demod.

(** An optional correction factor applied to a sample. *)
Definition times (factor : option C) (z : C) : C :=
  match factor with
  | Some p => Cmul z p
  | None => z
  end.

(** A three-point response table, sample points -1, 0, 1 with responses
    1/2, 1, 1/2, on a demodulator with the default sizes. *)
Definition demo_table : Demodulator :=
  mkDemodulator 16384 2 64 0 [-1; 0; 1]%Q [1 # 2; 1; 1 # 2]%Q.

(** The same with a hardware delay of three samples. *)
Definition demo_delayed : Demodulator :=
  mkDemodulator 16384 2 64 3 [-1; 0; 1]%Q [1 # 2; 1; 1 # 2]%Q.

End Demodulate.

(** ** The principal-component decomposition *)

Module PCA.

Import Cplx.
Local Open Scope R_scope.

(** A 2x2 array, row-major. *)
Record M2 (A : Type) : Type := mkM2 { m00 : A; m01 : A; m10 : A; m11 : A }.
Arguments mkM2 {A} _ _ _ _.
Arguments m00 {A} _.
Arguments m01 {A} _.
Arguments m10 {A} _.
Arguments m11 {A} _.

Definition M2map {A B : Type} (f : A -> B) (m : M2 A) : M2 B :=
  mkM2 (f (m00 m)) (f (m01 m)) (f (m10 m)) (f (m11 m)).

(** [np.dot] of two 2x2 complex arrays. *)
Definition dot (a b : M2 C) : M2 C :=
  mkM2 (Cadd (Cmul (m00 a) (m00 b)) (Cmul (m01 a) (m10 b)))
       (Cadd (Cmul (m00 a) (m01 b)) (Cmul (m01 a) (m11 b)))
       (Cadd (Cmul (m10 a) (m00 b)) (Cmul (m11 a) (m10 b)))
       (Cadd (Cmul (m10 a) (m01 b)) (Cmul (m11 a) (m11 b))).

Definition det (a : M2 C) : C :=
  Csub (Cmul (m00 a) (m11 a)) (Cmul (m01 a) (m10 a)).

Definition Czero_dec (z : C) : {z = RtoC 0} + {z <> RtoC 0}.
Proof.
  destruct z as [x y]. unfold RtoC.
  destruct (Req_EM_T x 0) as [-> | Hx].
  - destruct (Req_EM_T y 0) as [-> | Hy].
    + left. reflexivity.
    + right. intros H. injection H. exact Hy.
  - right. intros H. injection H. intros _. exact Hx.
Defined.

(** [np.linalg.inv] of a 2x2 complex array; a singular matrix raises
    [LinAlgError]. *)
Definition inv (a : M2 C) : result (M2 C) :=
  let d := det a in
  if Czero_dec d then Raise LinAlgError
  else Ok (mkM2 (Cdiv (m11 a) d) (Cdiv (Cneg (m01 a)) d)
                (Cdiv (Cneg (m10 a)) d) (Cdiv (m00 a) d)).

(** [a[k]] on a one-dimensional array, for [0 <= k]. *)
Definition index {A : Type} (l : list A) (k : nat) : result A :=
  match nth_error l k with
  | Some a => Ok a
  | None => Raise IndexError
  end.

(** The matrix handed to [np.linalg.eigh] in the first loop:
    [[pii[k], np.real(piq[k])], [np.conj(np.real(piq[k])), pqq[k]]]. *)
Definition eigh_matrix (a d : R) (c : C) : M2 R :=
  mkM2 a (Re c) (Re (Cconj (RtoC (Re c)))) d.

(** The matrix of the second loop:
    [[pii[k], piq[k]], [np.conj(piq[k]), pqq[k]]]. *)
Definition full_matrix (a d : R) (c : C) : M2 C :=
  mkM2 (RtoC a) c (Cconj c) (RtoC d).

(** The output arrays of [calculate_pca_noise], one entry per frequency bin:
    [S[:, k]] (field [S_rotated], as [S] is the successor of [nat]),
    [evals[:, k]] and [evects[:, :, k]]. *)
Record pca_result : Type := mkPca {
  S_rotated : list (R * R);
  evals : list (R * R);
  evects : list (M2 C)
}.

Section Eigh.

(** [np.linalg.eigh] on a real 2x2 array: the eigenvalue pair and the matrix
    whose columns are the eigenvectors. *)
Variable eigh : M2 R -> (R * R) * M2 R.

Definition first_loop_bin (pii pqq : list R) (piq : list C) (k : nat)
  : result ((R * R) * M2 C) :=
  a <- index pii k ;;
  c <- index piq k ;;
  d <- index pqq k ;;
  let '(w, v) := eigh (eigh_matrix a d c) in
  Ok (w, M2map RtoC v).

Definition second_loop_bin (invv v : M2 C) (pii pqq : list R) (piq : list C)
    (k : nat) : result (R * R) :=
  a <- index pii k ;;
  c <- index piq k ;;
  d <- index pqq k ;;
  let ss := dot (dot invv (full_matrix a d c)) v in
  Ok (Re (m00 ss), Re (m11 ss)).

(** The values the two loops store for one bin [(a, (d, c))], with
    [a = pii[k]], [d = pqq[k]], [c = piq[k]]. *)
Definition bin_eig (b : R * (R * C)) : (R * R) * M2 C :=
  let '(a, (d, c)) := b in
  (fst (eigh (eigh_matrix a d c)), M2map RtoC (snd (eigh (eigh_matrix a d c)))).

Definition bin_rot (invv v : M2 C) (b : R * (R * C)) : R * R :=
  let '(a, (d, c)) := b in
  let ss := dot (dot invv (full_matrix a d c)) v in
  (Re (m00 ss), Re (m11 ss)).

(** [calculate_pca_noise(pii, pqq, piq)].  [S] is a float array, so storing
    the complex [ss[0, 0]] and [ss[1, 1]] into it keeps their real parts.
    The rotation angles the function also returns are not modelled. *)
Definition calculate_pca_noise (pii pqq : list R) (piq : list C)
  : result pca_result :=
  let nf := length pii in
  wv <- mapM (first_loop_bin pii pqq piq) (seq 0 nf) ;;
  let evals := map fst wv in
  let evects := map snd wv in
  v <- index evects 0 ;;
  invv <- inv v ;;
  S <- mapM (second_loop_bin invv v pii pqq piq) (seq 0 nf) ;;
  Ok (mkPca S evals evects).

End Eigh.

(** Conjugate transpose, and the diagonal matrix of an eigenvalue pair. *)
Definition ctranspose (a : M2 C) : M2 C :=
  mkM2 (Cconj (m00 a)) (Cconj (m10 a)) (Cconj (m01 a)) (Cconj (m11 a)).

Definition diag (w : R * R) : M2 C :=
  mkM2 (RtoC (fst w)) (RtoC 0) (RtoC 0) (RtoC (snd w)).

Definition identity : M2 C := mkM2 (RtoC 1) (RtoC 0) (RtoC 0) (RtoC 1).

(** [(w, V)] is an eigendecomposition of [M]: the columns of [V] are
    orthonormal and column [j] is an eigenvector for [w_j]. *)
Definition is_eigendecomposition (M : M2 C) (w : R * R) (V : M2 C) : Prop :=
  dot M V = dot V (diag w) /\ dot (ctranspose V) V = identity.

(** The contract of [np.linalg.eigh] on a real symmetric 2x2 array:
    eigenvalues in ascending order, orthonormal eigenvectors as columns. *)
Definition eigh_spec (m : M2 R) (wv : (R * R) * M2 R) : Prop :=
  let '(w, v) := wv in
  fst w <= snd w /\
  m00 m * m00 v + m01 m * m10 v = fst w * m00 v /\
  m10 m * m00 v + m11 m * m10 v = fst w * m10 v /\
  m00 m * m01 v + m01 m * m11 v = snd w * m01 v /\
  m10 m * m01 v + m11 m * m11 v = snd w * m11 v /\
  m00 v * m00 v + m10 v * m10 v = 1 /\
  m01 v * m01 v + m11 v * m11 v = 1 /\
  m00 v * m01 v + m10 v * m11 v = 0.

Definition eigh_correct (eigh : M2 R -> (R * R) * M2 R) : Prop :=
  forall m, m01 m = m10 m -> eigh_spec m (eigh m).

(** The three input arrays read bin by bin. *)
Definition bins (pii pqq : list R) (piq : list C) : list (R * (R * C)) :=
  combine pii (combine pqq piq).

Definition transpose {A : Type} (a : M2 A) : M2 A :=
  mkM2 (m00 a) (m10 a) (m01 a) (m11 a).

(** A closed-form symmetric 2x2 eigensolver: eigenvalues
    [(a+d)/2 -+ sqrt(((a-d)/2)^2 + b^2)] in ascending order, with unit
    eigenvectors.  Like [np.linalg.eigh] it reads the lower triangle. *)
Definition eigh2 (m : M2 R) : (R * R) * M2 R :=
  let a := m00 m in
  let b := m10 m in
  let d := m11 m in
  let s := sqrt (((a - d) / 2) * ((a - d) / 2) + b * b) in
  let l1 := (a + d) / 2 - s in
  let l2 := (a + d) / 2 + s in
  if Req_EM_T b 0 then
    if Rle_dec a d then ((l1, l2), mkM2 1 0 0 1)
    else ((l1, l2), mkM2 0 1 1 0)
  else
    let n1 := sqrt (b * b + (l1 - a) * (l1 - a)) in
    let n2 := sqrt (b * b + (l2 - a) * (l2 - a)) in
    ((l1, l2), mkM2 (b / n1) (b / n2) ((l1 - a) / n1) ((l2 - a) / n2)).

End PCA.

(** ** The shared spectral helper *)

Module Spectral.

Import Cplx.
Local Open Scope R_scope.

(** The element types of the NumPy arrays the helper scales in place: a
    float or complex array divided or multiplied by a float. *)
Class Dtype (A : Type) : Type := {
  div_real : A -> R -> A;
  mul_real : A -> R -> A
}.

#[export] Instance Dtype_R : Dtype R :=
  {| div_real := fun a r => a / r; mul_real := fun a r => a * r |}.

#[export] Instance Dtype_C : Dtype C :=
  {| div_real := fun z r => Cdiv z (RtoC r);
     mul_real := fun z r => Cmul z (RtoC r) |}.

Inductive sides_t : Set := Default | OneSided | TwoSided.

(** The [window] argument: an iterable of values or a callable. *)
Inductive window_t : Type :=
| WindowVals (w : list R)
| WindowFun (f : list R -> list R).

Definition Rsum (l : list R) : R := fold_right Rplus 0 l.

(** Element-wise product of two one-dimensional float arrays of the same
    length; other shapes raise [ValueError] (length-one broadcasting apart). *)
Definition np_mul (a b : list R) : result (list R) :=
  if (length a =? length b)%nat
  then Ok (map (fun p => fst p * snd p) (combine a b))
  else Raise ValueError.

(** [np.fft.fft(a, n)]: [a] cropped or zero-padded to [n] points, then the
    discrete Fourier transform [sum_t a[t] * exp(-2 pi i k t / n)]. *)
Definition fit (n : nat) (a : list R) : list R :=
  firstn n a ++ repeat 0 (n - length a).

Definition dft_term (n k : nat) (ta : nat * R) : C :=
  Cmul (RtoC (snd ta))
       (Cexp (Cmul (Cneg Ci) (RtoC (2 * PI * INR k * INR (fst ta) / INR n)))).

Definition fft (a : list R) (n : nat) : result (list C) :=
  if (n =? 0)%nat then Raise ValueError
  else Ok (map (fun k => Csum (map (dft_term n k) (combine (seq 0 n) (fit n a))))
               (seq 0 n)).

(** Zero padding of a signal shorter than [NFFT]:
    [x = np.resize(x, (NFFT,)); x[n:] = 0]. *)
Definition pad_signal (NFFT : nat) (x : list R) : list R :=
  if (length x <? NFFT)%nat then x ++ repeat 0 (NFFT - length x) else x.

(** [np.arange(0, stop, step)] for a positive [step]. *)
Definition arange_step (stop step : nat) : list nat :=
  map (fun i => (i * step)%nat) (seq 0 ((stop + step - 1) / step)).

(** One pass of the loop body up to the transforms: the slice, detrend,
    window and [np.fft.fft(..., n=pad_to)], cut to [numFreqs] points. *)
Definition segment_fft (detrend : list R -> list R) (windowVals : list R)
    (NFFT pad_to numFreqs : nat) (x : list R) (i : nat) : result (list C) :=
  let thisX := firstn NFFT (skipn i x) in
  thisX <- np_mul windowVals (detrend thisX) ;;
  fx <- fft thisX pad_to ;;
  Ok (firstn numFreqs fx).

(** The three products of one frequency row and one segment. *)
Definition cross (fx fy : list C) (k : nat) : C :=
  Cmul (Cconj (nth k fx (RtoC 0))) (nth k fy (RtoC 0)).

(** [P[1:-1] *= scaling_factor] on the rows of a two-dimensional array. *)
Fixpoint scale_but_last {A : Type} `{Dtype A} (s : R) (P : list (list A))
  : list (list A) :=
  match P with
  | [] => []
  | r :: tl =>
      match tl with
      | [] => [r]
      | _ :: _ => map (fun a => mul_real a s) r :: scale_but_last s tl
      end
  end.

Definition scale_inner {A : Type} `{Dtype A} (s : R) (P : list (list A))
  : list (list A) :=
  match P with
  | [] => []
  | r0 :: tl => r0 :: scale_but_last s tl
  end.

Definition div_all {A : Type} `{Dtype A} (s : R) (P : list (list A))
  : list (list A) :=
  map (map (fun a => div_real a s)) P.

(** [np.concatenate((P[h:], P[:h]), 0)]. *)
Definition recentre {A : Type} (h : nat) (P : list A) : list A :=
  skipn h P ++ firstn h P.

(** The in-place scalings and the final re-centring applied alike to [Pxy],
    [Pxx] and [Pyy]. *)
Definition finish {A : Type} `{Dtype A} (wnorm scaling_factor Fs : R)
    (scale_by_freq twosided : bool) (numFreqs : nat) (P : list (list A))
  : list (list A) :=
  let P := div_all wnorm P in
  let P := scale_inner scaling_factor P in
  let P := if scale_by_freq then div_all Fs P else P in
  if twosided then recentre (numFreqs / 2) P else P.

Record spectra : Type := mkSpectra {
  Pxx : list (list R);
  Pyy : list (list R);
  Pxy : list (list C);
  freqs : list R;
  t : list R
}.

(** [full_spectral_helper(x, y, NFFT, Fs, detrend, window, noverlap, pad_to,
    sides, scale_by_freq)] on two real signals.  Arrays are lists of rows, one
    row per frequency and one column per segment.  When [y is x] the code
    reuses [fx] for [fy]; the value is the one computed here.  The in-place
    divisions of the arrays do not raise; [t = 1. / Fs * (ind + NFFT / 2.)]
    is a division of Python numbers and raises [ZeroDivisionError] for a
    zero sample rate. *)
Definition full_spectral_helper (x y : list R) (NFFT : nat) (Fs : R)
    (detrend : list R -> list R) (window : window_t) (noverlap : nat)
    (pad_to : option nat) (sides : sides_t) (scale_by_freq : option bool)
  : result spectra :=
  let x := pad_signal NFFT x in
  let y := pad_signal NFFT y in
  let pad_to := match pad_to with Some p => p | None => NFFT end in
  let scale_by_freq := match scale_by_freq with Some b => b | None => true end in
  let twosided := match sides with TwoSided => true | _ => false end in
  let numFreqs := if twosided then pad_to else (pad_to / 2 + 1)%nat in
  let scaling_factor := if twosided then 1 else 2 in
  windowVals <- match window with
                | WindowVals w =>
                    if (length w =? NFFT)%nat then Ok w else Raise AssertionError
                | WindowFun f => Ok (f (repeat 1 NFFT))
                end ;;
  if (NFFT =? noverlap)%nat then Raise ZeroDivisionError
  else
    let ind := if (NFFT <? noverlap)%nat then []
               else arange_step (length x - NFFT + 1) (NFFT - noverlap) in
    fxs <- mapM (segment_fft detrend windowVals NFFT pad_to numFreqs x) ind ;;
    fys <- mapM (segment_fft detrend windowVals NFFT pad_to numFreqs y) ind ;;
    let segs := combine fxs fys in
    let rows := seq 0 numFreqs in
    let Pxy := map (fun k => map (fun s => cross (fst s) (snd s) k) segs) rows in
    let Pxx := map (fun k => map (fun s => Re (cross (fst s) (fst s) k)) segs) rows in
    let Pyy := map (fun k => map (fun s => Re (cross (snd s) (snd s) k)) segs) rows in
    let wnorm := Rsum (map (fun w => Rabs w * Rabs w) windowVals) in
    let fin {A} `{Dtype A} :=
      finish (A:=A) wnorm scaling_factor Fs scale_by_freq twosided numFreqs in
    if Req_EM_T Fs 0 then Raise ZeroDivisionError
    else
      let t := map (fun i => 1 / Fs * (INR i + INR NFFT / 2)) ind in
      let freqs := map (fun k => Fs / INR pad_to * INR k) rows in
      let freqs := if twosided
                   then map (fun f => f - Fs) (skipn (numFreqs / 2) freqs)
                        ++ firstn (numFreqs / 2) freqs
                   else freqs in
      Ok (mkSpectra (fin Pxx) (fin Pyy) (fin Pxy) freqs t).

(** [P.mean(1)]: the average of every row over the segments. *)
Definition mean_R (row : list R) : R := Rsum row / INR (length row).
Definition mean_C (row : list C) : C := div_real (Csum row) (INR (length row)).

(** The densities [pca_noise] derives from the helper:
    [pii.mean(1)], [pqq.mean(1)], [piq.mean(1)]. *)
Definition averaged (s : spectra) : list R * list R * list C :=
  (map mean_R (Pxx s), map mean_R (Pyy s), map mean_C (Pxy s)).

(** The window values the helper ends up with. *)
Definition window_values (window : window_t) (NFFT : nat) : list R :=
  match window with
  | WindowVals w => w
  | WindowFun f => f (repeat 1 NFFT)
  end.

(** The number of output frequencies. *)
Definition num_freqs (pad_to : option nat) (NFFT : nat) (sides : sides_t) : nat :=
  let p := match pad_to with Some p => p | None => NFFT end in
  match sides with TwoSided => p | _ => (p / 2 + 1)%nat end.

(** Three rows of [Pxx], [Pyy] and [Pxy] that belong together: the same
    nonnegative factor [c] times [|a|^2], [|b|^2] and [conj(a) b] over the
    same list of transform pairs [(a, b)], one pair per segment. *)
Definition good_row (rxx ryy : list R) (rxy : list C) : Prop :=
  exists (c : R) (ab : list (C * C)),
    0 <= c /\
    rxx = map (fun p => c * Cnorm2 (fst p)) ab /\
    ryy = map (fun p => c * Cnorm2 (snd p)) ab /\
    rxy = map (fun p => Cscale c (Cmul (Cconj (fst p)) (snd p))) ab.

Inductive rows3 : list (list R) -> list (list R) -> list (list C) -> Prop :=
| rows3_nil : rows3 [] [] []
| rows3_cons rxx ryy rxy Pxx Pyy Pxy :
    good_row rxx ryy rxy -> rows3 Pxx Pyy Pxy ->
    rows3 (rxx :: Pxx) (ryy :: Pyy) (rxy :: Pxy).

End Spectral.

(** ** The heterodyne readout: tone placement, attenuators, demodulation *)

Module Heterodyne.

Import Cplx Demod Demodulate.

(** [np.round] on a float: the nearest integer, a half going to the even
    neighbour. *)
Definition np_round (q : Q) : Z :=
  let f := Qfloor q in
  match (q - inject_Z f ?= 1 # 2)%Q with
  | Lt => f
  | Gt => (f + 1)%Z
  | Eq => if Z.even f then f else (f + 1)%Z
  end.

(** The attributes of a [RoachHeterodyne] instance the modelled methods read;
    [tone_bins] and [fft_bins] are the rows of the current bank. *)
Record RoachHeterodyne : Type := mkHeterodyne {
  fs : Q;
  nfft : Z;
  tone_nsamp : Z;
  tone_bins : list Z;
  fft_bins : list Z;
  phases : list R;
  readout_selection : list nat
}.

(** [RoachHeterodyne.calc_fft_bins(tone_bins, nsamp)], one tone bin:
    [tone_bins_per_fft_bin = nsamp / self.nfft] (integer division), then
    [np.round(tone_bins / float(tone_bins_per_fft_bin)).astype('int')].
    For [nsamp < nfft] the quotient is zero and NumPy divides by zero; the
    model is the code for [nfft <= nsamp]. *)
Definition calc_fft_bin (nfft tone_bin nsamp : Z) : result Z :=
  tone_bins_per_fft_bin <- py_floordiv nsamp nfft ;;
  Ok (np_round (inject_Z tone_bin / inject_Z tone_bins_per_fft_bin)%Q).

Definition calc_fft_bins (nfft : Z) (tone_bins : list Z) (nsamp : Z)
  : result (list Z) :=
  mapM (fun k => calc_fft_bin nfft k nsamp) tone_bins.

(** The first lines of [RoachHeterodyne.set_tone_freqs(freqs, nsamp)] for one
    frequency: [bins = np.round((freqs / self.fs) * nsamp).astype('int')],
    [actual_freqs = self.fs * bins / float(nsamp)] and the wrap of a negative
    bin, [bins[bins < 0] = nsamp + bins[bins < 0]]. *)
Definition tone_bin_of_freq (fs : Q) (nsamp : Z) (freq : Q) : Z :=
  np_round ((freq / fs) * inject_Z nsamp)%Q.

Definition actual_freq (fs : Q) (nsamp : Z) (bin : Z) : Q :=
  (fs * inject_Z bin / inject_Z nsamp)%Q.

Definition wrap_bin (nsamp bin : Z) : Z :=
  if (bin <? 0)%Z then (nsamp + bin)%Z else bin.

Definition set_tone_freqs_bins (fs : Q) (nsamp : Z) (freqs : list Q)
  : list Q * list Z :=
  let bins := map (tone_bin_of_freq fs nsamp) freqs in
  (map (actual_freq fs nsamp) bins, map (wrap_bin nsamp) bins).

(** An optional factor of magnitude one. *)
Definition unit_factor (o : option C) : Prop :=
  match o with
  | Some p => Cnorm2 p = 1%R
  | None => True
  end.

(** [RoachHeterodyne.set_dac_attenuator(attendb)]: the range check, the split
    over the two attenuators and the stored value.  The calls
    [self.set_attenuator(atten, le_bit=...)] are returned in order as pairs
    [(atten, le_bit)]; the last component is the new [self.dac_atten],
    [int(attendb * 2) / 2.0]. *)
Definition set_dac_attenuator (attendb : Q) : result (list (Q * Z) * Q) :=
  if (if Qlt_le_dec attendb 0 then true else false)
     || (if Qlt_le_dec 63 attendb then true else false)
  then Raise ValueError
  else
    let '(attena, attenb) :=
      if Qlt_le_dec (63 # 2) attendb
      then (63 # 2, attendb - (63 # 2))%Q
      else (attendb, 0%Q) in
    Ok ([(attena, 1%Z); (attenb, 128%Z)],
        (inject_Z (py_int (attendb * 2)) / 2)%Q).

(** [RoachHeterodyne.set_adc_attenuator(attendb)], in the same form. *)
Definition set_adc_attenuator (attendb : Q) : result (list (Q * Z) * Q) :=
  if (if Qlt_le_dec attendb 0 then true else false)
     || (if Qlt_le_dec (63 # 2) attendb then true else false)
  then Raise ValueError
  else Ok ([(attendb, 2%Z)], (inject_Z (py_int (attendb * 2)) / 2)%Q).

(** The body of the loop of [RoachHeterodyne.demodulate_data] for the channel
    [ich] and its column of samples:
    [np.exp(sign * 1j * (2 * np.pi * foffs * t + phi0)) * data[:, n]],
    conjugated when [m >= self.nfft / 2].  [sign] is [-1.0] on both
    branches. *)
Definition demodulate_channel (self : RoachHeterodyne) (ich : nat)
    (column : list C) : result (list C) :=
  phi0 <- PCA.index (phases self) ich ;;
  k <- PCA.index (tone_bins self) ich ;;
  m <- PCA.index (fft_bins self) ich ;;
  let doconj := (nfft self / 2 <=? m)%Z in
  let sign := (-1)%R in
  let foffs := demodulate_data_foffs k m (nfft self) (tone_nsamp self) in
  let demod :=
    map (fun td =>
           Cmul (Cexp (Cmul (Cmul (RtoC sign) Ci)
                            (RtoC (2 * PI * Q2R foffs * INR (fst td) + phi0)%R)))
                (snd td))
        (combine (seq 0 (length column)) column) in
  Ok (if doconj then map Cconj demod else demod).

(** [RoachHeterodyne.demodulate_data(data)].  [data] is the list of the
    columns [data[:, n]]; column [n] is demodulated for the [n]-th entry of
    [self.readout_selection], a column without an entry stays zero as
    [np.zeros_like] made it, and an entry without a column raises
    [IndexError]. *)
Definition demodulate_data (self : RoachHeterodyne) (data : list (list C))
  : result (list (list C)) :=
  let sel := readout_selection self in
  done <- mapM (fun nich =>
                  column <- PCA.index data (fst nich) ;;
                  demodulate_channel self (snd nich) column)
               (combine (seq 0 (length sel)) sel) ;;
  Ok (done ++ map (map (fun _ => RtoC 0)) (skipn (length sel) data)).

(** A two-channel readout with the default sizes: tones in playback bins
    100 and 40000, read from FFT bins 25 and 10000, channel 1 read first. *)
Definition demo_heterodyne : RoachHeterodyne :=
  mkHeterodyne 512 16384 65536 [100; 40000]%Z [25; 10000]%Z [0; 1]%R [1; 0]%nat.

End Heterodyne.

(** ** The frequency axis of the PFB response table *)

Module PfbTable.

(** The second value of [Demodulator.compute_window_frequency_response]:
    [normalized_frequency =
     (np.arange(-len(response)/2., len(response)/2.)/interpolation_factor)/2.]
    where [len(response)] is [window.shape[0] * interpolation_factor].  The
    response itself (the magnitude of a Fourier transform) is not modelled. *)
Definition normalized_frequency (window_len interpolation_factor : nat) : list Q :=
  let len_response := (window_len * interpolation_factor)%nat in
  map (fun j =>
         ((- (inject_Z (Z.of_nat len_response) / 2) + inject_Z (Z.of_nat j))
          / inject_Z (Z.of_nat interpolation_factor) / 2)%Q)
      (seq 0 len_response).

End PfbTable.


(** ** [pca_noise]: from a complex time series to the decomposition *)

Module PcaNoise.

Import Cplx PCA Spectral.

(** The default [NFFT = int(2 ** (np.floor(np.log2(d.shape[0])) - 3))]:
    a power of two for at least eight samples, zero below (the power is then
    a fraction, or [2 ** -inf] for no sample at all). *)
Definition default_nfft (n : nat) : nat :=
  if (n <? 8)%nat then 0%nat else (2 ^ (Nat.log2 n - 3))%nat.

(** [pca_noise(d, NFFT, Fs, window, detrend, use_log_bins=False,
    use_full_spectral_helper=True)]: the helper on the real and imaginary
    parts, the row means, then [calculate_pca_noise].  The value is
    [(fr, (S, evals, evects), piq)].  The other values of the two flags go
    through [binning.log_bin_old] and [mlab.psd], which are not modelled. *)
Definition pca_noise (eigh : M2 R -> (R * R) * M2 R) (d : list C)
    (NFFT : option nat) (Fs : R) (window : window_t)
    (detrend : list R -> list R)
  : result (list R * pca_result * list C) :=
  let NFFT := match NFFT with
              | Some n => n
              | None => default_nfft (length d)
              end in
  s <- full_spectral_helper (map Re d) (map Im d) NFFT Fs detrend window
                            0 None Default None ;;
  let '(pii, pqq, piq) := averaged s in
  let fr := freqs s in
  r <- calculate_pca_noise eigh pii pqq piq ;;
  Ok (fr, r, piq).

End PcaNoise.
(** * Properties *)

Lemma sq_nonneg (x : R) : (0 <= x * x)%R.
Proof. nra. Qed.

(** ** Offset frequency, period and truncation *)

Module DemodFacts.

Import Demod.
Local Open Scope Q_scope.

(** C10: for integers [k], [m], [nfft] and a positive playback length [ns],
    the offset frequency [RoachHeterodyne.demodulate_data] computes inline,
    [(k*nfft - m*ns)/ns], equals [tone_offset_frequency(k, ns, m, nfft)] as a
    rational number. *)
Theorem heterodyne_foffs_agrees (k m nfft ns : Z) :
  (0 < ns)%Z ->
  demodulate_data_foffs k m nfft ns == tone_offset_frequency k ns m nfft.
Proof.
  intros Hns.
  unfold demodulate_data_foffs, tone_offset_frequency.
  replace (k * nfft - m * ns)%Z with (k * nfft + - (m * ns))%Z by lia.
  rewrite inject_Z_plus, inject_Z_opp, !inject_Z_mult.
  assert (Hnz : ~ inject_Z ns == 0).
  { intros H. unfold Qeq in H. simpl in H. lia. }
  field. exact Hnz.
Qed.

Lemma heterodyne_foffs_agrees_witness :
  demodulate_data_foffs 100 25 16384 65536
  == tone_offset_frequency 100 65536 25 16384.
Proof. apply heterodyne_foffs_agrees. lia. Defined.

Lemma nonzero_false_iff (f : Q) : nonzero f = false <-> f == 0.
Proof.
  unfold nonzero. rewrite negb_false_iff. apply Qeq_bool_iff.
Qed.

Lemma filter_nonzero_nil (foffs : list Q) :
  filter nonzero foffs = [] <-> Forall (fun f => f == 0) foffs.
Proof.
  induction foffs as [| f tl IH]; simpl.
  - split; auto.
  - destruct (nonzero f) eqn:E.
    + split; [discriminate |].
      intros H. inversion H as [| ? ? Hf _]; subst.
      apply nonzero_false_iff in Hf. congruence.
    + rewrite IH. apply nonzero_false_iff in E.
      split; intros H.
      * constructor; assumption.
      * inversion H; assumption.
Qed.

(** C9: when every channel offset is zero, [get_foffs_period] raises (the
    [ValueError] of [np.max] on the empty selection) and returns no period. *)
Theorem get_foffs_period_all_zero (foffs : list Q) :
  Forall (fun f => f == 0) foffs ->
  get_foffs_period foffs = Raise ValueError.
Proof.
  intros H. apply filter_nonzero_nil in H.
  unfold get_foffs_period. rewrite H. reflexivity.
Qed.

Lemma get_foffs_period_all_zero_witness :
  get_foffs_period [0; 0 # 5; 0] = Raise ValueError.
Proof.
  apply get_foffs_period_all_zero.
  repeat constructor; reflexivity.
Defined.

(** The converse: with one nonzero offset the function returns a period. *)
Lemma get_foffs_period_ok (foffs : list Q) :
  ~ Forall (fun f => f == 0) foffs ->
  exists nt, get_foffs_period foffs = Ok nt.
Proof.
  intros H. rewrite <- filter_nonzero_nil in H.
  unfold get_foffs_period.
  destruct (filter nonzero foffs) as [| f tl]; [congruence |].
  simpl. eexists. reflexivity.
Qed.


Lemma fold_left_Qmax_ge (tl : list Q) (x : Q) :
  x <= fold_left Qmax tl x /\
  forall y, In y tl -> y <= fold_left Qmax tl x.
Proof.
  revert x. induction tl as [| z tl IH]; intros x; simpl.
  - split; [apply Qle_refl | intros y []].
  - destruct (IH (Qmax x z)) as [H1 H2]. split.
    + eapply Qle_trans; [apply Q.le_max_l | exact H1].
    + intros y [<- | Hy].
      * eapply Qle_trans; [apply Q.le_max_r | exact H1].
      * apply H2, Hy.
Qed.

Lemma fold_left_Qmax_in (tl : list Q) (x : Q) :
  exists y, In y (x :: tl) /\ fold_left Qmax tl x == y.
Proof.
  revert x. induction tl as [| z tl IH]; intros x; simpl.
  - exists x. split; [left; reflexivity | reflexivity].
  - destruct (IH (Qmax x z)) as [y [[<- | Hy] Heq]].
    + destruct (Q.max_dec x z) as [E | E].
      * exists x. split; [left; reflexivity |].
        rewrite Heq. exact E.
      * exists z. split; [right; left; reflexivity |].
        rewrite Heq. exact E.
    + exists y. split; [right; right; exact Hy | exact Heq].
Qed.

Lemma in_masked_reciprocals (foffs : list Q) (p : Q) :
  In p (map Qinv (filter nonzero foffs)) <->
  exists f, In f foffs /\ ~ f == 0 /\ p = / f.
Proof.
  rewrite in_map_iff. split.
  - intros [f [<- Hf]]. apply filter_In in Hf. destruct Hf as [Hin Hnz].
    exists f. repeat split; try assumption.
    intros H0. apply nonzero_false_iff in H0. congruence.
  - intros [f [Hin [Hnz ->]]]. exists f. split; [reflexivity |].
    apply filter_In. split; [assumption |].
    destruct (nonzero f) eqn:E; [reflexivity |].
    apply nonzero_false_iff in E. contradiction.
Qed.

(** What [get_foffs_period] returns when some offset is nonzero: the
    truncation of the largest reciprocal of the nonzero offsets. *)
Lemma get_foffs_period_max (foffs : list Q) :
  ~ Forall (fun f => f == 0) foffs ->
  exists mx,
    get_foffs_period foffs = Ok (py_int mx) /\
    (exists f, In f foffs /\ ~ f == 0 /\ mx == / f) /\
    (forall f, In f foffs -> ~ f == 0 -> / f <= mx).
Proof.
  intros H. rewrite <- filter_nonzero_nil in H.
  unfold get_foffs_period.
  pose proof (in_masked_reciprocals foffs) as Hin.
  destruct (map Qinv (filter nonzero foffs)) as [| p tl] eqn:E.
  - destruct (filter nonzero foffs); [congruence | discriminate].
  - simpl. exists (fold_left Qmax tl p). split; [reflexivity |]. split.
    + destruct (fold_left_Qmax_in tl p) as [y [Hy Heq]].
      apply Hin in Hy. destruct Hy as [f [Hf [Hnz ->]]].
      exists f. auto.
    + intros f Hf Hnz.
      assert (Hp : In (/ f) (p :: tl)) by (apply Hin; eauto).
      destruct (fold_left_Qmax_ge tl p) as [H1 H2].
      destruct Hp as [<- | Hp]; [exact H1 | apply H2, Hp].
Qed.

(** For a positive period the buffer is cut to its longest prefix whose
    length is a multiple of the period. *)
Lemma truncate_to_period_pos {A : Type} (nt : Z) (data : list A) :
  (0 < nt)%Z ->
  let n := Z.of_nat (length data) in
  exists data',
    truncate_to_period nt data = Ok data' /\
    data' = firstn (Z.to_nat (nt * (n / nt))) data /\
    Z.of_nat (length data') = (nt * (n / nt))%Z.
Proof.
  intros Hnt n. unfold truncate_to_period. fold n.
  assert (Hn : (0 <= n)%Z) by (unfold n; lia).
  assert (Hq : (0 <= n / nt)%Z) by (apply Z.div_pos; lia).
  assert (Hle : (nt * (n / nt) <= n)%Z) by (apply Z.mul_div_le; lia).
  destruct (nt =? 0)%Z eqn:E0; [apply Z.eqb_eq in E0; lia |].
  destruct (n mod nt =? 0)%Z eqn:Em; simpl.
  - apply Z.eqb_eq in Em.
    assert (Heq : (nt * (n / nt))%Z = n).
    { pose proof (Z.div_mod n nt). lia. }
    exists data. split; [reflexivity |]. rewrite Heq. split.
    + unfold n. rewrite Nat2Z.id, firstn_all. reflexivity.
    + reflexivity.
  - eexists. split; [reflexivity |].
    unfold py_slice_to.
    destruct (0 <=? nt * (n / nt))%Z eqn:Ee; [| apply Z.leb_gt in Ee; nia].
    split; [reflexivity |].
    rewrite length_firstn. unfold n in *. lia.
Qed.

(** C5 (as the code has it): with at least one nonzero offset the period is
    the integer truncation of the largest reciprocal of the nonzero offsets;
    the buffer is cut to a whole multiple of a positive period, which is
    what [demodulate_stream] hands to the phase correction; and for the
    offsets [1/37, 1/37] the period is 37 and a 100-sample buffer keeps 74
    samples. *)
Theorem foffs_period_and_truncation :
  (forall (A : Type) (foffs : list Q) (data : list A),
     ~ Forall (fun f => f == 0) foffs ->
     exists mx nt,
       get_foffs_period foffs = Ok nt /\ nt = py_int mx /\
       (exists f, In f foffs /\ ~ f == 0 /\ mx == / f) /\
       (forall f, In f foffs -> ~ f == 0 -> / f <= mx) /\
       ((0 < nt)%Z ->
        exists data',
          truncate_to_period nt data = Ok data' /\
          data' = firstn (Z.to_nat (nt * (Z.of_nat (length data) / nt))) data /\
          Z.of_nat (length data') = (nt * (Z.of_nat (length data) / nt))%Z)) /\
  (forall (A : Type) (tone_bins fft_bins : list Z) (tone_nsamp nfft nt : Z)
          (data : list A),
     get_foffs_period (stream_foffs tone_bins fft_bins tone_nsamp nfft) = Ok nt ->
     (0 < nt)%Z ->
     exists data',
       demodulate_stream_buffer tone_bins fft_bins tone_nsamp nfft data
       = Ok (stream_foffs tone_bins fft_bins tone_nsamp nfft, nt, data') /\
       Z.of_nat (length data') = (nt * (Z.of_nat (length data) / nt))%Z) /\
  get_foffs_period [1 # 37; 1 # 37] = Ok 37%Z /\
  (forall (A : Type) (data : list A),
     length data = 100%nat ->
     exists data',
       truncate_to_period 37 data = Ok data' /\ length data' = 74%nat).
Proof.
  split; [| split; [| split]].
  - intros A foffs data H.
    destruct (get_foffs_period_max foffs H) as [mx [Hp [Hex Hmax]]].
    exists mx, (py_int mx). repeat split; try assumption.
    intros Hnt. apply truncate_to_period_pos, Hnt.
  - intros A tone_bins fft_bins tone_nsamp nfft nt data Hp Hnt.
    destruct (truncate_to_period_pos nt data Hnt) as [d [H1 [_ H3]]].
    exists d. split; [| exact H3].
    unfold demodulate_stream_buffer. rewrite Hp. simpl bind.
    rewrite H1. reflexivity.
  - reflexivity.
  - intros A data Hlen.
    destruct (truncate_to_period_pos 37 data) as [d [H1 [_ H3]]]; [lia |].
    exists d. split; [exact H1 |].
    rewrite Hlen in H3. change (Z.of_nat 100) with 100%Z in H3.
    change (37 * (100 / 37))%Z with 74%Z in H3. lia.
Qed.

Lemma foffs_period_and_truncation_witness :
  exists mx nt,
    get_foffs_period [1 # 37; 1 # 37] = Ok nt /\ nt = py_int mx /\
    (exists f, In f [1 # 37; 1 # 37] /\ ~ f == 0 /\ mx == / f) /\
    (forall f, In f [1 # 37; 1 # 37] -> ~ f == 0 -> / f <= mx) /\
    ((0 < nt)%Z ->
     exists data',
       truncate_to_period nt (repeat tt 100) = Ok data' /\
       data' = firstn (Z.to_nat (nt * (Z.of_nat (length (repeat tt 100)) / nt)))
                      (repeat tt 100) /\
       Z.of_nat (length data') =
       (nt * (Z.of_nat (length (repeat tt 100)) / nt))%Z).
Proof.
  apply (proj1 foffs_period_and_truncation unit [1 # 37; 1 # 37] (repeat tt 100)).
  intros H. inversion H as [| ? ? H1 _]. discriminate H1.
Defined.

(** C5, the counterexample: for the offsets [1/37, 1/2] the smallest positive
    reciprocal period is 2, but [get_foffs_period] returns 37, and a
    100-sample buffer is cut to 74 samples, not to a multiple of 2. *)
Lemma foffs_period_not_smallest :
  exists p,
    spec_smallest_positive_period [1 # 37; 1 # 2] = Some p /\ p == 2 /\
    get_foffs_period [1 # 37; 1 # 2] = Ok 37%Z /\
    ~ inject_Z 37 == p.
Proof.
  exists (2 # 1). repeat split. intros H. discriminate H.
Qed.

End DemodFacts.

(** ** The PFB response lookup *)

Module PfbFacts.

Import Demod Demodulate.
Local Open Scope Q_scope.

Lemma map_fst_combine_eq {A B : Type} (l : list A) (l' : list B) :
  length l = length l' -> map fst (combine l l') = l.
Proof.
  revert l'. induction l as [| a l IH]; intros [| b l'] H; simpl in *;
    try discriminate; [reflexivity |].
  f_equal. apply IH. lia.
Qed.

Lemma sorted_head_le (x1 : Q) (l : list Q) (i : nat) (xi : Q) :
  StronglySorted Qlt (x1 :: l) ->
  nth_error (x1 :: l) i = Some xi -> x1 <= xi.
Proof.
  intros Hs Hi. apply StronglySorted_inv in Hs. destruct Hs as [_ Hall].
  destruct i as [| i]; simpl in Hi.
  - injection Hi as <-. apply Qle_refl.
  - apply nth_error_In in Hi. rewrite Forall_forall in Hall.
    apply Qlt_le_weak, Hall, Hi.
Qed.

Lemma last_cons_default {A : Type} (l : list A) (a d : A) :
  last (a :: l) d = last l a.
Proof.
  revert a d. induction l as [| b l IH]; intros a d; [reflexivity |].
  change (last (a :: b :: l) d) with (last (b :: l) d).
  rewrite (IH b d), (IH b a). reflexivity.
Qed.

Lemma nth_error_length_last {A : Type} (l : list A) (a z : A) :
  nth_error (a :: l) (length l) = Some z -> last l a = z.
Proof.
  revert a. induction l as [| b l IH]; intros a H.
  - simpl in H. injection H as <-. reflexivity.
  - rewrite last_cons_default. apply IH. exact H.
Qed.

Lemma sorted_le_last (x0 : Q) (l : list Q) (i : nat) (xi : Q) :
  StronglySorted Qlt (x0 :: l) ->
  nth_error (x0 :: l) i = Some xi -> xi <= last l x0.
Proof.
  revert x0 i xi. induction l as [| x1 l IH]; intros x0 i xi Hs Hi.
  - destruct i as [| [| i]]; simpl in Hi; try discriminate.
    injection Hi as <-. apply Qle_refl.
  - assert (Hs' : StronglySorted Qlt (x1 :: l)).
    { apply StronglySorted_inv in Hs. tauto. }
    rewrite last_cons_default. destruct i as [| i].
    + simpl in Hi. injection Hi as <-.
      apply Qle_trans with x1.
      * apply (sorted_head_le x0 (x1 :: l) 1 x1 Hs). reflexivity.
      * apply (IH x1 0%nat x1 Hs'). reflexivity.
    + apply (IH x1 i xi Hs'). exact Hi.
Qed.

Lemma nth_error_fst {A B : Type} (l : list (A * B)) (i : nat) (a : A) (b : B) :
  nth_error l i = Some (a, b) -> nth_error (map fst l) i = Some a.
Proof.
  intros H. rewrite nth_error_map, H. reflexivity.
Qed.

Lemma last_fst {A B : Type} (l : list (A * B)) (d : A * B) :
  fst (last l d) = last (map fst l) (fst d).
Proof.
  revert d. induction l as [| a l IH]; intros d; [reflexivity |].
  simpl. destruct l; [reflexivity |]. apply (IH d).
Qed.

(** At a sample point the scan returns the tabulated value. *)
Lemma interp_scan_node (rest : list (Q * Q)) (x x0 y0 : Q) :
  x == x0 ->
  StronglySorted Qlt (x0 :: map fst rest) ->
  interp_scan x x0 y0 rest == y0.
Proof.
  intros Hx Hs. destruct rest as [| [x1 y1] rest]; simpl; [reflexivity |].
  assert (H01 : x0 < x1).
  { apply StronglySorted_inv in Hs. destruct Hs as [_ Hall].
    inversion Hall; assumption. }
  destruct (Qlt_le_dec x x1) as [Hlt | Hge].
  - assert (E : Qeq_bool x0 x = true) by (apply Qeq_bool_iff; symmetry; exact Hx).
    rewrite E. reflexivity.
  - exfalso. rewrite Hx in Hge. apply (Qlt_not_le _ _ H01 Hge).
Qed.

(** Between two consecutive sample points the scan is the straight line
    through them. *)
Lemma interp_scan_between (rest : list (Q * Q)) :
  forall (x0 y0 x : Q) (i : nat) (xi yi xj yj : Q),
    StronglySorted Qlt (x0 :: map fst rest) ->
    nth_error ((x0, y0) :: rest) i = Some (xi, yi) ->
    nth_error ((x0, y0) :: rest) (S i) = Some (xj, yj) ->
    xi <= x -> x <= xj ->
    interp_scan x x0 y0 rest == yi + (yj - yi) / (xj - xi) * (x - xi).
Proof.
  induction rest as [| [x1 y1] rest IH]; intros x0 y0 x i xi yi xj yj Hs Hi Hj Hlo Hhi.
  - simpl in Hj. destruct i; discriminate.
  - assert (Hs' : StronglySorted Qlt (x1 :: map fst rest)).
    { apply StronglySorted_inv in Hs. tauto. }
    assert (H01 : x0 < x1).
    { apply StronglySorted_inv in Hs. destruct Hs as [_ Hall].
      inversion Hall; assumption. }
    simpl interp_scan.
    destruct (Qlt_le_dec x x1) as [Hlt | Hge].
    + destruct i as [| i].
      * simpl in Hi, Hj. injection Hi as <- <-. injection Hj as <- <-.
        destruct (Qeq_bool x0 x) eqn:E; [| apply Qplus_comm].
        apply Qeq_bool_iff in E. rewrite <- E.
        assert (Hd : ~ x1 - x0 == 0) by (intros H; lra).
        field. exact Hd.
      * exfalso. simpl in Hi.
        apply nth_error_fst in Hi.
        pose proof (sorted_head_le x1 (map fst rest) i xi Hs' Hi) as Hle.
        lra.
    + destruct i as [| i].
      * simpl in Hi, Hj. injection Hi as <- <-. injection Hj as <- <-.
        assert (Hx : x == x1) by lra.
        rewrite (interp_scan_node rest x x1 y1 Hx Hs').
        rewrite Hx.
        assert (Hd : ~ x1 - x0 == 0) by (intros H; lra).
        field. exact Hd.
      * apply (IH x1 y1 x i xi yi xj yj Hs'); assumption.
Qed.

(** C4 (as the code has it): on a table with increasing sample points and
    positive responses, below the first sample point the lookup returns the
    reciprocal of the first response, above the last the reciprocal of the
    last response, and between two consecutive sample points the reciprocal
    of the response interpolated linearly between them.  It raises nothing
    for an offset outside the tabulated span. *)
Theorem compute_pfb_response_table (self : Demodulator) (x : Q) :
  let tbl := combine (_window_frequency self) (_window_response self) in
  length (_window_frequency self) = length (_window_response self) ->
  StronglySorted Qlt (_window_frequency self) ->
  Forall (fun y => 0 < y) (_window_response self) ->
  (forall x0 y0, nth_error tbl 0 = Some (x0, y0) -> x < x0 ->
     compute_pfb_response self x = Ok (1 / y0)) /\
  (forall xn yn, nth_error tbl (length tbl - 1) = Some (xn, yn) -> xn < x ->
     compute_pfb_response self x = Ok (1 / yn)) /\
  (forall i xi yi xj yj,
     nth_error tbl i = Some (xi, yi) ->
     nth_error tbl (S i) = Some (xj, yj) ->
     xi <= x -> x <= xj ->
     exists v, compute_pfb_response self x = Ok v /\
               v == 1 / (yi + (yj - yi) / (xj - xi) * (x - xi))).
Proof.
  intros tbl Hlen Hs _.
  unfold compute_pfb_response, np_interp.
  rewrite Hlen, Nat.eqb_refl. simpl negb. cbv iota.
  pose proof (map_fst_combine_eq _ _ Hlen) as Hfst. fold tbl in Hfst |- *.
  rewrite <- Hfst in Hs. clearbody tbl.
  destruct tbl as [| [x0 y0] rest].
  { repeat split; intros; try (destruct i); discriminate. }
  simpl map in Hs.
  assert (Hlast : forall xn yn,
             nth_error ((x0, y0) :: rest) (length ((x0, y0) :: rest) - 1)
             = Some (xn, yn) -> last rest (x0, y0) = (xn, yn)).
  { intros xn yn H. simpl length in H. rewrite Nat.sub_1_r in H. simpl pred in H.
    apply nth_error_length_last. exact H. }
  assert (Hxn : forall i xi yi, nth_error ((x0, y0) :: rest) i = Some (xi, yi) ->
                                xi <= fst (last rest (x0, y0))).
  { intros i xi yi Hi. rewrite last_fst. simpl fst.
    apply (sorted_le_last x0 (map fst rest) i xi Hs).
    apply nth_error_fst in Hi. exact Hi. }
  split; [| split].
  - intros a b H Hlt. simpl in H. injection H as <- <-.
    destruct (last rest (x0, y0)) as [xn yn] eqn:El.
    pose proof (Hxn 0%nat x0 y0 eq_refl) as Hle. simpl in Hle.
    destruct (Qlt_le_dec xn x) as [H1 | H1]; [exfalso; lra |].
    destruct (Qlt_le_dec x x0) as [H2 | H2]; [reflexivity | exfalso; lra].
  - intros xn yn H Hlt. rewrite (Hlast xn yn H).
    destruct (Qlt_le_dec xn x) as [H1 | H1]; [reflexivity | exfalso; lra].
  - intros i xi yi xj yj Hi Hj Hlo Hhi.
    destruct (last rest (x0, y0)) as [xn yn] eqn:El.
    pose proof (Hxn (S i) xj yj Hj) as Hle. simpl in Hle.
    assert (H0 : x0 <= xi).
    { apply (sorted_head_le x0 (map fst rest) i xi Hs).
      apply nth_error_fst in Hi. exact Hi. }
    destruct (Qlt_le_dec xn x) as [H1 | H1]; [exfalso; lra |].
    destruct (Qlt_le_dec x x0) as [H2 | H2]; [exfalso; lra |].
    eexists. split; [reflexivity |].
    rewrite (interp_scan_between rest x0 y0 x i xi yi xj yj Hs Hi Hj Hlo Hhi).
    reflexivity.
Qed.

Lemma compute_pfb_response_table_witness :
  exists v, compute_pfb_response demo_table (1 # 2) = Ok v /\
            v == 1 / (1 + ((1 # 2) - 1) / (1 - 0) * ((1 # 2) - 0)).
Proof.
  assert (Hs : StronglySorted Qlt (_window_frequency demo_table)).
  { simpl. repeat constructor. }
  assert (Hp : Forall (fun y => 0 < y) (_window_response demo_table)).
  { simpl. repeat constructor. }
  apply (proj2 (proj2 (compute_pfb_response_table demo_table (1 # 2) eq_refl Hs Hp))
           1%nat 0 1 1 (1 # 2) eq_refl eq_refl).
  - discriminate.
  - discriminate.
Defined.

(** C4, the counterexample: the offset 2 lies above the last sample point 1
    of the table, and the lookup returns the reciprocal of the last response
    instead of raising. *)
Lemma compute_pfb_response_outside_returns :
  last (_window_frequency demo_table) 0 < 2 /\
  compute_pfb_response demo_table 2 = Ok (1 / (1 # 2)) /\
  forall e, compute_pfb_response demo_table 2 <> Raise e.
Proof.
  split; [reflexivity |]. split; [reflexivity |].
  intros e H. discriminate H.
Qed.

End PfbFacts.

(** ** Packet phase and the single-channel demodulator *)

Module PhaseFacts.

Import Cplx Demod Demodulate.
Local Open Scope R_scope.

(** [exp(i x)] in trigonometric form. *)
Lemma Cexp_imag (x : R) : Cexp (mkC 0 x) = mkC (cos x) (sin x).
Proof.
  unfold Cexp. simpl. rewrite exp_0. f_equal; ring.
Qed.

Lemma Cnorm2_Cexp_imag (x : R) : Cnorm2 (Cexp (mkC 0 x)) = 1.
Proof.
  rewrite Cexp_imag. unfold Cnorm2. simpl.
  pose proof (sin2_cos2 x) as H. unfold Rsqr in H. lra.
Qed.

(** The argument of the exponential in [packet_phase] is purely imaginary. *)
Lemma packet_phase_factor_eq (s multy modn : Z) (f : Q) :
  modn <> 0%Z ->
  packet_phase_factor s multy modn f =
  Cexp (mkC 0 (- (2 * PI * IZR s * Q2R f * IZR multy / IZR modn))).
Proof.
  intros Hm. unfold packet_phase_factor. f_equal.
  assert (Hr : IZR modn <> 0) by (apply not_0_IZR; exact Hm).
  unfold Cdiv, Cmul, Cinv, Cnorm2, Cneg, Ci, RtoC. simpl.
  f_equal; field; exact Hr.
Qed.

Lemma hardware_delay_factor_eq (delay : Q) (tone_bin ns : Z) :
  ns <> 0%Z ->
  hardware_delay_factor delay tone_bin ns =
  Cexp (mkC 0 (2 * PI * Q2R delay * IZR tone_bin / IZR ns)).
Proof.
  intros Hm. unfold hardware_delay_factor. f_equal.
  assert (Hr : IZR ns <> 0) by (apply not_0_IZR; exact Hm).
  unfold Cdiv, Cmul, Cinv, Cnorm2, Cneg, Ci, RtoC. simpl.
  f_equal; field; exact Hr.
Qed.

Lemma demod_sample_eq (wc foffs : Q) (phi0 : R) (t : nat) (d : C) :
  demod_sample wc foffs phi0 t d =
  Cmul (Cmul (RtoC (Q2R wc))
             (Cexp (mkC 0 (- (2 * PI * Q2R foffs * INR t + phi0)))))
       d.
Proof.
  unfold demod_sample. do 3 f_equal.
  unfold Cmul, Cneg, Ci, RtoC. simpl. f_equal; ring.
Qed.

(** The integer part of [packet_phase] on valid sizes. *)
Lemma packet_phase_ints_ok (seq_no nchan nfft ns : Z) :
  (0 < nchan)%Z -> (2 <= nfft * 1024 / nchan)%Z ->
  let chan_counts := (nfft * 1024 / nchan)%Z in
  let shift := (Z.log2 chan_counts - 1)%Z in
  let modn := if (ns / chan_counts =? 0)%Z then 1%Z else (ns / chan_counts)%Z in
  packet_phase_ints seq_no nchan nfft ns =
  Ok ((Z.shiftr seq_no shift mod modn)%Z, (ns / nfft)%Z, modn)
  /\ modn <> 0%Z /\ (0 <= shift)%Z.
Proof.
  intros Hn Hc chan_counts shift modn.
  assert (Hnfft : nfft <> 0%Z).
  { intros ->. simpl in Hc. rewrite Z.div_0_l in Hc; lia. }
  assert (Hlog : (1 <= Z.log2 chan_counts)%Z).
  { change 1%Z with (Z.log2 2). apply Z.log2_le_mono. exact Hc. }
  assert (Hm : modn <> 0%Z).
  { unfold modn. destruct (ns / chan_counts =? 0)%Z eqn:E; [lia |].
    apply Z.eqb_neq in E. exact E. }
  split; [| split; [exact Hm | unfold shift; lia]].
  unfold packet_phase_ints, py_floordiv, int_log2, py_rshift.
  replace (nchan =? 0)%Z with false by (symmetry; apply Z.eqb_neq; lia).
  simpl bind. fold chan_counts.
  replace (chan_counts =? 0)%Z with false
    by (symmetry; apply Z.eqb_neq; unfold chan_counts; lia).
  replace (chan_counts <? 0)%Z with false
    by (symmetry; apply Z.ltb_ge; unfold chan_counts; lia).
  simpl bind.
  replace (nfft =? 0)%Z with false by (symmetry; apply Z.eqb_neq; exact Hnfft).
  simpl bind. fold shift.
  replace (shift <? 0)%Z with false
    by (symmetry; apply Z.ltb_ge; unfold shift; lia).
  simpl bind. reflexivity.
Qed.

(** C8: on valid sizes (a positive channel count and at least two FFT
    outputs per channel chunk) [packet_phase] returns one factor per channel,
    [exp(-2 pi i s f (ns/nfft) / modn)], of magnitude one, where [modn] is
    [ns / (nfft*1024/nchan)] replaced by 1 when it is zero and [s] is the
    sequence number shifted right and reduced modulo [modn]. *)
Theorem packet_phase_formula (seq_no : Z) (foffs : list Q) (nchan nfft ns : Z) :
  (0 < nchan)%Z -> (2 <= nfft * 1024 / nchan)%Z ->
  let chan_counts := (nfft * 1024 / nchan)%Z in
  let shift := (Z.log2 chan_counts - 1)%Z in
  let modn := if (ns / chan_counts =? 0)%Z then 1%Z else (ns / chan_counts)%Z in
  let s := (Z.shiftr seq_no shift mod modn)%Z in
  let theta (f : Q) := 2 * PI * IZR s * Q2R f * IZR (ns / nfft) / IZR modn in
  exists out,
    packet_phase seq_no foffs nchan nfft ns = Ok out /\
    length out = length foffs /\
    forall c f, nth_error foffs c = Some f ->
      nth_error out c = Some (Cexp (mkC 0 (- theta f))) /\
      Cnorm2 (Cexp (mkC 0 (- theta f))) = 1.
Proof.
  intros Hn Hc chan_counts shift modn s theta.
  destruct (packet_phase_ints_ok seq_no nchan nfft ns Hn Hc) as [Hints [Hm _]].
  fold chan_counts shift modn s in Hints, Hm.
  unfold packet_phase. rewrite Hints. simpl bind.
  eexists. split; [reflexivity |]. split; [apply length_map |].
  intros c f Hf. split.
  - rewrite nth_error_map, Hf. simpl. f_equal.
    apply packet_phase_factor_eq. exact Hm.
  - apply Cnorm2_Cexp_imag.
Qed.

Lemma packet_phase_formula_witness :
  exists out,
    packet_phase 5000 [1 # 37; 0%Q] 4 16384 65536 = Ok out /\
    length out = 2%nat.
Proof.
  destruct (packet_phase_formula 5000 [1 # 37; 0%Q] 4 16384 65536)
    as [out [H1 [H2 _]]].
  - lia.
  - vm_compute. discriminate.
  - exists out. split; [exact H1 | exact H2].
Defined.

Lemma nth_error_combine_seq {A : Type} (l : list A) (a t : nat) (d : A) :
  nth_error l t = Some d ->
  nth_error (combine (seq a (length l)) l) t = Some ((a + t)%nat, d).
Proof.
  revert a t. induction l as [| x l IH]; intros a t H.
  - destruct t; discriminate.
  - destruct t as [| t]; simpl in *.
    + injection H as ->. rewrite Nat.add_0_r. reflexivity.
    + rewrite (IH (S a) t H). f_equal. f_equal. lia.
Qed.

(** C3: [Demodulator.demodulate] computes the offset
    [nfft * (tone_bin / ns) - fft_bin], multiplies every sample [t] by
    [wc * exp(-i (2 pi offset t + phi0))] with [wc] the PFB correction at the
    offset, then by the packet-phase factor exactly when sequence numbers are
    given, then by [exp(2 pi i delay tone_bin / ns)] exactly when the
    configured hardware delay is nonzero.  Neither factor depends on [t]. *)
Theorem demodulate_formula (self : Demodulator) (data : list C)
    (tone_bin ns : Z) (phi0 : R) (fft_bin nchan : Z) (seq_nos : option (list Z)) :
  (0 < ns)%Z ->
  _window_frequency self <> [] ->
  length (_window_frequency self) = length (_window_response self) ->
  (forall s, seq_nos = Some s ->
     s <> [] /\ (0 < nchan)%Z /\ (2 <= nfft self * 1024 / nchan)%Z) ->
  let offset :=
    (inject_Z (nfft self) * (inject_Z tone_bin / inject_Z ns) - inject_Z fft_bin)%Q in
  exists wc pphase delay out,
    compute_pfb_response self offset = Ok wc /\
    match seq_nos with
    | None => pphase = None
    | Some s => exists p, packet_phase (hd 0%Z s) [offset] nchan (nfft self) ns
                          = Ok [p] /\ pphase = Some p
    end /\
    delay = (if Qeq_bool (hardware_delay_samples self) 0 then None
             else Some (Cexp (mkC 0 (2 * PI * Q2R (hardware_delay_samples self)
                                      * IZR tone_bin / IZR ns)))) /\
    demodulate self data tone_bin ns phi0 fft_bin nchan seq_nos = Ok out /\
    length out = length data /\
    forall t d, nth_error data t = Some d ->
      nth_error out t =
      Some (times delay (times pphase
              (Cmul (Cmul (RtoC (Q2R wc))
                          (Cexp (mkC 0 (- (2 * PI * Q2R offset * INR t + phi0)))))
                    d))).
Proof.
  intros Hns Hne Hlen Hseq offset.
  assert (Hwc : exists wc, compute_pfb_response self offset = Ok wc).
  { unfold compute_pfb_response, np_interp.
    rewrite Hlen, Nat.eqb_refl. simpl negb. cbv iota.
    destruct (_window_frequency self) as [| x0 xp]; [congruence |].
    destruct (_window_response self) as [| y0 fp]; [discriminate |].
    simpl combine. cbv iota beta.
    destruct (last (combine xp fp) (x0, y0)) as [xn yn].
    destruct (Qlt_le_dec xn offset); [eexists; reflexivity |].
    destruct (Qlt_le_dec offset x0); eexists; reflexivity. }
  destruct Hwc as [wc Hwc].
  set (base := map (fun td => demod_sample wc offset phi0 (fst td) (snd td))
                   (combine (seq 0 (length data)) data)).
  assert (Hbase : forall t d, nth_error data t = Some d ->
            nth_error base t =
            Some (Cmul (Cmul (RtoC (Q2R wc))
                          (Cexp (mkC 0 (- (2 * PI * Q2R offset * INR t + phi0)))))
                       d)).
  { intros t d Hd. unfold base.
    rewrite nth_error_map, (nth_error_combine_seq data 0 t d Hd). simpl.
    f_equal. apply demod_sample_eq. }
  assert (Hblen : length base = length data).
  { unfold base. rewrite length_map, length_combine, length_seq. lia. }
  assert (Hpp : exists pphase,
            match seq_nos with
            | None => pphase = None
            | Some s => exists p, packet_phase (hd 0%Z s) [offset] nchan (nfft self) ns
                                  = Ok [p] /\ pphase = Some p
            end /\
            match seq_nos with
            | Some s =>
                s0 <- first_seq_no s ;;
                pp <- packet_phase s0 [offset] nchan (nfft self) ns ;;
                Ok (map (fun z => Cmul z (hd (RtoC 1) pp)) base)
            | None => Ok base
            end = Ok (map (times pphase) base)).
  { destruct seq_nos as [s |].
    - destruct (Hseq s eq_refl) as [Hs [Hn Hc]].
      destruct s as [| s0 tl]; [congruence |].
      destruct (packet_phase_formula s0 [offset] nchan (nfft self) ns Hn Hc)
        as [out [Ho [Hl _]]].
      destruct out as [| p [| ? ?]]; try discriminate Hl.
      exists (Some p). split.
      + exists p. split; [exact Ho | reflexivity].
      + simpl first_seq_no. simpl bind. rewrite Ho. simpl bind. reflexivity.
    - exists None. split; [reflexivity |].
      f_equal. symmetry. apply map_id. }
  destruct Hpp as [pphase [Hpp1 Hpp2]].
  assert (Hrun : demodulate self data tone_bin ns phi0 fft_bin nchan seq_nos =
                 if nonzero (hardware_delay_samples self)
                 then Ok (map (fun z => Cmul z
                            (hardware_delay_factor (hardware_delay_samples self)
                                                   tone_bin ns))
                            (map (times pphase) base))
                 else Ok (map (times pphase) base)).
  { unfold demodulate.
    change (tone_offset_frequency tone_bin ns fft_bin (nfft self)) with offset.
    rewrite Hwc. simpl bind. fold base. rewrite Hpp2. reflexivity. }
  unfold nonzero in Hrun.
  destruct (Qeq_bool (hardware_delay_samples self) 0) eqn:E; simpl negb in Hrun.
  - exists wc, pphase, None, (map (times pphase) base).
    split; [exact Hwc |]. split; [exact Hpp1 |]. split; [reflexivity |].
    split; [exact Hrun |]. split.
    + rewrite length_map. exact Hblen.
    + intros t d Hd. rewrite nth_error_map, (Hbase t d Hd). reflexivity.
  - eexists wc, pphase, (Some _), _.
    split; [exact Hwc |]. split; [exact Hpp1 |]. split; [reflexivity |].
    split; [exact Hrun |]. split.
    + rewrite !length_map. exact Hblen.
    + intros t d Hd. rewrite !nth_error_map, (Hbase t d Hd). simpl.
      rewrite hardware_delay_factor_eq by lia. reflexivity.
Qed.

Lemma demodulate_formula_witness :
  exists out,
    demodulate demo_delayed [mkC 1 0; mkC 0 1] 100 65536 0 25 4 (Some [5000%Z])
    = Ok out /\ length out = 2%nat.
Proof.
  destruct (demodulate_formula demo_delayed [mkC 1 0; mkC 0 1] 100 65536 0 25 4
              (Some [5000%Z]))
    as [wc [pp [dl [out [_ [_ [_ [H1 [H2 _]]]]]]]]].
  - lia.
  - discriminate.
  - reflexivity.
  - intros s Hs. injection Hs as <-. split; [discriminate |].
    split; [lia | vm_compute; discriminate].
  - exists out. split; [exact H1 | exact H2].
Defined.

End PhaseFacts.

(** ** The principal-component decomposition *)

Module PCAFacts.

Import Cplx PCA.
Local Open Scope R_scope.

(** The closed-form solver meets the contract of [np.linalg.eigh]. *)
Lemma eigh2_correct : eigh_correct eigh2.
Proof.
  intros [a b' b d] Hsym. simpl in Hsym. subst b'.
  unfold eigh2. simpl m00. simpl m10. simpl m11.
  set (h := (a - d) / 2).
  assert (Hh : a - d = 2 * h) by (unfold h; field).
  clearbody h.
  set (r := h * h + b * b).
  assert (Hr : 0 <= r) by (unfold r; nra).
  pose proof (sqrt_sqrt r Hr) as Hss.
  pose proof (sqrt_pos r) as Hs0.
  set (s := sqrt r) in *.
  destruct (Req_EM_T b 0) as [Hb | Hb].
  - subst b.
    assert (Hsq : s * s = h * h) by (rewrite Hss; unfold r; ring).
    destruct (Rle_dec a d) as [Had | Had]; unfold eigh_spec; simpl.
    + assert (Hs : s = (d - a) / 2) by nra.
      rewrite Hs. repeat split; lra.
    + assert (Hs : s = (a - d) / 2) by nra.
      rewrite Hs. repeat split; lra.
  - set (l1 := (a + d) / 2 - s). set (l2 := (a + d) / 2 + s).
    set (q1 := b * b + (l1 - a) * (l1 - a)).
    set (q2 := b * b + (l2 - a) * (l2 - a)).
    assert (Hb2 : 0 < b * b) by nra.
    assert (Hq1 : 0 < q1).
    { unfold q1. pose proof (sq_nonneg (l1 - a)). lra. }
    assert (Hq2 : 0 < q2).
    { unfold q2. pose proof (sq_nonneg (l2 - a)). lra. }
    pose proof (sqrt_sqrt q1 (Rlt_le _ _ Hq1)) as Hn1.
    pose proof (sqrt_sqrt q2 (Rlt_le _ _ Hq2)) as Hn2.
    pose proof (sqrt_lt_R0 q1 Hq1) as Hp1.
    pose proof (sqrt_lt_R0 q2 Hq2) as Hp2.
    set (n1 := sqrt q1) in *. set (n2 := sqrt q2) in *.
    assert (Hc1 : (l1 - d) * (l1 - a) = b * b).
    { unfold l1. assert (Hbb : b * b = s * s - h * h)
        by (rewrite Hss; unfold r; ring). nra. }
    assert (Hc2 : (l2 - d) * (l2 - a) = b * b).
    { unfold l2. assert (Hbb : b * b = s * s - h * h)
        by (rewrite Hss; unfold r; ring). nra. }
    assert (Hc3 : b * b + (l1 - a) * (l2 - a) = 0).
    { unfold l1, l2. assert (Hbb : b * b = s * s - h * h)
        by (rewrite Hss; unfold r; ring). nra. }
    unfold eigh_spec. simpl.
    assert (Hn1' : n1 <> 0) by lra. assert (Hn2' : n2 <> 0) by lra.
    repeat split.
    + unfold l1, l2. lra.
    + field. exact Hn1'.
    + transitivity ((b * b + d * (l1 - a)) / n1); [field; exact Hn1' |].
      replace (b * b + d * (l1 - a)) with (l1 * (l1 - a)) by lra.
      field. exact Hn1'.
    + field. exact Hn2'.
    + transitivity ((b * b + d * (l2 - a)) / n2); [field; exact Hn2' |].
      replace (b * b + d * (l2 - a)) with (l2 * (l2 - a)) by lra.
      field. exact Hn2'.
    + transitivity (q1 / (n1 * n1)); [unfold q1; field; exact Hn1' |].
      rewrite Hn1. field. lra.
    + transitivity (q2 / (n2 * n2)); [unfold q2; field; exact Hn2' |].
      rewrite Hn2. field. lra.
    + transitivity ((b * b + (l1 - a) * (l2 - a)) / (n1 * n2));
        [field; split; assumption |].
      rewrite Hc3. field. split; assumption.
Qed.

Lemma mapM_seq_nth {X B : Type} (l : list X) (f : nat -> result B) (g : X -> B) :
  forall a,
    (forall k x, nth_error l k = Some x -> f (a + k)%nat = Ok (g x)) ->
    mapM f (seq a (length l)) = Ok (map g l).
Proof.
  induction l as [| x l IH]; intros a H; [reflexivity |].
  simpl. rewrite <- (Nat.add_0_r a) at 1. rewrite (H 0%nat x eq_refl). simpl.
  rewrite (IH (S a)).
  - reflexivity.
  - intros k y Hk. replace (S a + k)%nat with (a + S k)%nat by lia.
    apply H. exact Hk.
Qed.

Lemma nth_error_combine {A B : Type} (l : list A) (l' : list B) (k : nat)
    (a : A) (b : B) :
  nth_error (combine l l') k = Some (a, b) <->
  nth_error l k = Some a /\ nth_error l' k = Some b.
Proof.
  revert l' k. induction l as [| x l IH]; intros [| y l'] k; simpl.
  - split; [destruct k; discriminate | intros [H _]; destruct k; discriminate].
  - split; [destruct k; discriminate | intros [H _]; destruct k; discriminate].
  - split; [destruct k; discriminate | intros [_ H]; destruct k; discriminate].
  - destruct k as [| k]; simpl.
    + split.
      * intros H. injection H as <- <-. split; reflexivity.
      * intros [H1 H2]. injection H1 as <-. injection H2 as <-. reflexivity.
    + apply IH.
Qed.

Lemma nth_error_bins (pii pqq : list R) (piq : list C) (k : nat) (a d : R) (c : C) :
  nth_error (bins pii pqq piq) k = Some (a, (d, c)) <->
  nth_error pii k = Some a /\ nth_error pqq k = Some d /\ nth_error piq k = Some c.
Proof.
  unfold bins. rewrite nth_error_combine, nth_error_combine. reflexivity.
Qed.

Lemma length_bins (pii pqq : list R) (piq : list C) :
  length pqq = length pii -> length piq = length pii ->
  length (bins pii pqq piq) = length pii.
Proof.
  intros H1 H2. unfold bins. rewrite !length_combine. lia.
Qed.

Lemma index_nth_error {A : Type} (l : list A) (k : nat) (a : A) :
  nth_error l k = Some a -> index l k = Ok a.
Proof. intros H. unfold index. rewrite H. reflexivity. Qed.

(** The determinant of an orthonormal real matrix is 1 or -1, and its
    inverse is its transpose. *)
Lemma inv_orthonormal (v : M2 R) :
  m00 v * m00 v + m10 v * m10 v = 1 ->
  m01 v * m01 v + m11 v * m11 v = 1 ->
  m00 v * m01 v + m10 v * m11 v = 0 ->
  inv (M2map RtoC v) = Ok (M2map RtoC (transpose v)).
Proof.
  destruct v as [x0 y0 x1 y1]. simpl. intros O1 O2 O3.
  set (dl := x0 * y1 - y0 * x1).
  assert (Hdet : det (M2map RtoC (mkM2 x0 y0 x1 y1)) = RtoC dl).
  { unfold det, M2map, Csub, Cmul, RtoC, dl. simpl. f_equal; ring. }
  assert (H1 : y1 = dl * x0).
  { replace (dl * x0) with (y1 * (x0 * x0 + x1 * x1) - x1 * (x0 * y0 + x1 * y1))
      by (unfold dl; ring). rewrite O1, O3. ring. }
  assert (H2 : - y0 = dl * x1).
  { replace (dl * x1) with (- y0 * (x0 * x0 + x1 * x1) + x0 * (x0 * y0 + x1 * y1))
      by (unfold dl; ring). rewrite O1, O3. ring. }
  assert (H3 : - x1 = dl * y0).
  { replace (dl * y0) with (- x1 * (y0 * y0 + y1 * y1) + y1 * (x0 * y0 + x1 * y1))
      by (unfold dl; ring). rewrite O2, O3. ring. }
  assert (H4 : x0 = dl * y1).
  { replace (dl * y1) with (x0 * (y0 * y0 + y1 * y1) - y0 * (x0 * y0 + x1 * y1))
      by (unfold dl; ring). rewrite O2, O3. ring. }
  assert (Hd : dl <> 0).
  { intros E. rewrite E in H1, H2. nra. }
  unfold inv. rewrite Hdet.
  destruct (Czero_dec (RtoC dl)) as [E | _].
  { exfalso. apply Hd. unfold RtoC in E. injection E. auto. }
  assert (Hq : forall z, Cdiv (RtoC z) (RtoC dl) = RtoC (z / dl)).
  { intros z. unfold Cdiv, Cmul, Cinv, Cnorm2, RtoC. simpl. f_equal; field; exact Hd. }
  unfold M2map, transpose. simpl.
  replace (Cneg (RtoC y0)) with (RtoC (- y0)) by (unfold Cneg, RtoC; simpl; f_equal; ring).
  replace (Cneg (RtoC x1)) with (RtoC (- x1)) by (unfold Cneg, RtoC; simpl; f_equal; ring).
  rewrite !Hq. do 2 f_equal; f_equal.
  - rewrite H1. field. exact Hd.
  - rewrite H2. field. exact Hd.
  - rewrite H3. field. exact Hd.
  - rewrite H4. field. exact Hd.
Qed.

Section WithEigh.

Variable eigh : M2 R -> (R * R) * M2 R.

Lemma first_loop_run (pii pqq : list R) (piq : list C) :
  length pqq = length pii -> length piq = length pii ->
  mapM (first_loop_bin eigh pii pqq piq) (seq 0 (length pii))
  = Ok (map (bin_eig eigh) (bins pii pqq piq)).
Proof.
  intros H1 H2. rewrite <- (length_bins pii pqq piq H1 H2).
  apply mapM_seq_nth. intros k [a [d c]] Hk.
  apply nth_error_bins in Hk. destruct Hk as [Ha [Hd Hc]].
  simpl. unfold first_loop_bin.
  rewrite (index_nth_error _ _ _ Ha), (index_nth_error _ _ _ Hc),
    (index_nth_error _ _ _ Hd). simpl.
  destruct (eigh (eigh_matrix a d c)) as [w v]. reflexivity.
Qed.

Lemma second_loop_run (invv v : M2 C) (pii pqq : list R) (piq : list C) :
  length pqq = length pii -> length piq = length pii ->
  mapM (second_loop_bin invv v pii pqq piq) (seq 0 (length pii))
  = Ok (map (bin_rot invv v) (bins pii pqq piq)).
Proof.
  intros H1 H2. rewrite <- (length_bins pii pqq piq H1 H2).
  apply mapM_seq_nth. intros k [a [d c]] Hk.
  apply nth_error_bins in Hk. destruct Hk as [Ha [Hd Hc]].
  simpl. unfold second_loop_bin.
  rewrite (index_nth_error _ _ _ Ha), (index_nth_error _ _ _ Hc),
    (index_nth_error _ _ _ Hd). reflexivity.
Qed.

Lemma eigh_matrix_symmetric (a d : R) (c : C) :
  m01 (eigh_matrix a d c) = m10 (eigh_matrix a d c).
Proof. reflexivity. Qed.

Hypothesis eigh_ok : eigh_correct eigh.

(** What [calculate_pca_noise] returns on arrays of one length with at least
    one bin: the eigenpairs of every bin as [eigh] gives them, and every
    bin's matrix rotated by the eigenvectors [v0] of bin 0. *)
Lemma calculate_pca_noise_run (pii pqq : list R) (piq : list C) :
  length pqq = length pii -> length piq = length pii -> pii <> [] ->
  exists a0 d0 c0,
    nth_error (bins pii pqq piq) 0 = Some (a0, (d0, c0)) /\
    let v0 := snd (eigh (eigh_matrix a0 d0 c0)) in
    inv (M2map RtoC v0) = Ok (M2map RtoC (transpose v0)) /\
    calculate_pca_noise eigh pii pqq piq =
    Ok (mkPca (map (bin_rot (M2map RtoC (transpose v0)) (M2map RtoC v0))
                   (bins pii pqq piq))
              (map fst (map (bin_eig eigh) (bins pii pqq piq)))
              (map snd (map (bin_eig eigh) (bins pii pqq piq)))).
Proof.
  intros H1 H2 Hne.
  destruct (bins pii pqq piq) as [| [a0 [d0 c0]] tl] eqn:Eb.
  { pose proof (length_bins pii pqq piq H1 H2) as Hl. rewrite Eb in Hl.
    destruct pii; [congruence | discriminate]. }
  exists a0, d0, c0. split; [reflexivity |].
  intros v0.
  assert (Hinv : inv (M2map RtoC v0) = Ok (M2map RtoC (transpose v0))).
  { pose proof (eigh_ok (eigh_matrix a0 d0 c0) (eigh_matrix_symmetric a0 d0 c0)) as Hs.
    unfold v0. destruct (eigh (eigh_matrix a0 d0 c0)) as [w v].
    destruct Hs as [_ [_ [_ [_ [_ [O1 [O2 O3]]]]]]].
    apply inv_orthonormal; assumption. }
  split; [exact Hinv |].
  unfold calculate_pca_noise.
  rewrite (first_loop_run pii pqq piq H1 H2), Eb. cbn [bind].
  change (index (map snd (map (bin_eig eigh) ((a0, (d0, c0)) :: tl))) 0)
    with (Ok (M2map RtoC v0)).
  cbn [bind]. rewrite Hinv. cbn [bind].
  rewrite (second_loop_run _ _ pii pqq piq H1 H2), Eb. reflexivity.
Qed.

(** A unit eigenvector of a positive-semidefinite form has a nonnegative
    eigenvalue. *)
Lemma psd_eigenvalue_nonneg (a b d x y lam : R) :
  0 <= a -> 0 <= d -> b * b <= a * d ->
  a * x + b * y = lam * x -> b * x + d * y = lam * y ->
  x * x + y * y = 1 ->
  0 <= lam.
Proof.
  intros Ha Hd Hdet E1 E2 Hn.
  assert (Hq : lam = a * (x * x) + 2 * b * (x * y) + d * (y * y)).
  { replace lam with (lam * (x * x + y * y)) by (rewrite Hn; ring).
    replace (lam * (x * x + y * y)) with (x * (lam * x) + y * (lam * y)) by ring.
    rewrite <- E1, <- E2. ring. }
  rewrite Hq.
  destruct (Req_dec a 0) as [Ha0 | Ha0].
  - subst a. assert (Hb : b = 0) by nra. subst b.
    pose proof (sq_nonneg y). nra.
  - assert (Hpos : 0 < a) by lra.
    assert (Hm : 0 <= a * (a * (x * x) + 2 * b * (x * y) + d * (y * y))).
    { replace (a * (a * (x * x) + 2 * b * (x * y) + d * (y * y)))
        with ((a * x + b * y) * (a * x + b * y) + (a * d - b * b) * (y * y)) by ring.
      pose proof (sq_nonneg (a * x + b * y)). pose proof (sq_nonneg y).
      assert (0 <= (a * d - b * b) * (y * y)) by (apply Rmult_le_pos; lra).
      lra. }
    apply Rmult_le_reg_l with a; [exact Hpos |]. lra.
Qed.

Lemma eigh_spec_complex (m : M2 R) (w : R * R) (v : M2 R) :
  eigh_spec m (w, v) ->
  is_eigendecomposition (M2map RtoC m) w (M2map RtoC v).
Proof.
  destruct m as [a b b' d]. destruct v as [x0 y0 x1 y1]. destruct w as [w0 w1].
  unfold eigh_spec. simpl.
  intros [_ [E1 [E2 [E3 [E4 [O1 [O2 O3]]]]]]].
  unfold is_eigendecomposition, dot, ctranspose, diag, identity, M2map,
    Cadd, Cmul, Cconj, RtoC. simpl.
  split; f_equal; f_equal; lra.
Qed.

(** C7 (as the code has it): for every bin the recorded eigenvalue pair and
    eigenvector matrix are an eigendecomposition, with ascending real
    eigenvalues and orthonormal eigenvectors, of the real symmetric matrix
    [[S_ii, Re S_iq], [Re S_iq, S_qq]]; this is the Hermitian matrix
    [[S_ii, S_iq], [conj S_iq, S_qq]] when [S_iq] is real. *)
Theorem pca_eigendecomposition (pii pqq : list R) (piq : list C) :
  length pqq = length pii -> length piq = length pii -> pii <> [] ->
  exists r,
    calculate_pca_noise eigh pii pqq piq = Ok r /\
    length (evals r) = length pii /\ length (evects r) = length pii /\
    forall k a d c,
      nth_error pii k = Some a -> nth_error pqq k = Some d ->
      nth_error piq k = Some c ->
      exists w V,
        nth_error (evals r) k = Some w /\ nth_error (evects r) k = Some V /\
        fst w <= snd w /\
        is_eigendecomposition
          (mkM2 (RtoC a) (RtoC (Re c)) (RtoC (Re c)) (RtoC d)) w V /\
        (Im c = 0 -> is_eigendecomposition (full_matrix a d c) w V).
Proof.
  intros H1 H2 Hne.
  destruct (calculate_pca_noise_run pii pqq piq H1 H2 Hne)
    as [a0 [d0 [c0 [_ [_ Hrun]]]]].
  eexists. split; [exact Hrun |]. simpl.
  split; [rewrite !length_map; apply length_bins; assumption |].
  split; [rewrite !length_map; apply length_bins; assumption |].
  intros k a d c Ha Hd Hc.
  assert (Hk : nth_error (bins pii pqq piq) k = Some (a, (d, c))).
  { apply nth_error_bins. auto. }
  pose proof (eigh_ok (eigh_matrix a d c) (eigh_matrix_symmetric a d c)) as Hs.
  destruct (eigh (eigh_matrix a d c)) as [w v] eqn:Ee.
  exists w, (M2map RtoC v).
  split; [rewrite !nth_error_map, Hk; simpl; rewrite Ee; reflexivity |].
  split; [rewrite !nth_error_map, Hk; simpl; rewrite Ee; reflexivity |].
  split; [simpl in Hs; tauto |].
  pose proof (eigh_spec_complex _ _ _ Hs) as Hc'.
  split; [exact Hc' |].
  intros Him. replace (full_matrix a d c) with (M2map RtoC (eigh_matrix a d c));
    [exact Hc' |].
  destruct c as [cr ci]. simpl in Him. subst ci.
  unfold full_matrix, eigh_matrix, M2map, Cconj, RtoC. simpl.
  f_equal. f_equal. ring.
Qed.


(** The recorded eigenvalues are the values [np.linalg.eigh] returned for
    the bin's matrix [[S_ii, Re S_iq], [Re S_iq, S_qq]], stored unchanged;
    for a bin whose matrix is positive semidefinite both are nonnegative in
    exact arithmetic. *)
Theorem pca_eigenvalues_nonneg (pii pqq : list R) (piq : list C) :
  length pqq = length pii -> length piq = length pii -> pii <> [] ->
  exists r,
    calculate_pca_noise eigh pii pqq piq = Ok r /\
    forall k a d c,
      nth_error pii k = Some a -> nth_error pqq k = Some d ->
      nth_error piq k = Some c ->
      exists w,
        nth_error (evals r) k = Some w /\
        w = fst (eigh (eigh_matrix a d c)) /\
        (0 <= a -> 0 <= d -> Cnorm2 c <= a * d -> 0 <= fst w /\ 0 <= snd w).
Proof.
  intros H1 H2 Hne.
  destruct (calculate_pca_noise_run pii pqq piq H1 H2 Hne)
    as [a0 [d0 [c0 [_ [_ Hrun]]]]].
  eexists. split; [exact Hrun |]. simpl.
  intros k a d c Ha Hd Hc.
  assert (Hk : nth_error (bins pii pqq piq) k = Some (a, (d, c))).
  { apply nth_error_bins. auto. }
  exists (fst (eigh (eigh_matrix a d c))).
  split; [rewrite !nth_error_map, Hk; reflexivity |].
  split; [reflexivity |].
  intros Pa Pd Pc.
  pose proof (eigh_ok (eigh_matrix a d c) (eigh_matrix_symmetric a d c)) as Hs.
  destruct (eigh (eigh_matrix a d c)) as [[w0 w1] [x0 y0 x1 y1]].
  unfold eigh_spec, eigh_matrix in Hs. simpl in Hs |- *.
  destruct Hs as [_ [E1 [E2 [E3 [E4 [O1 [O2 _]]]]]]].
  assert (Hb : Re c * Re c <= a * d).
  { unfold Cnorm2 in Pc. pose proof (sq_nonneg (Im c)). lra. }
  split.
  - apply (psd_eigenvalue_nonneg a (Re c) d x0 x1 w0); assumption.
  - apply (psd_eigenvalue_nonneg a (Re c) d y0 y1 w1); assumption.
Qed.

End WithEigh.

Lemma eigh2_eigenvalues (m : M2 R) :
  fst (eigh2 m) =
  ((m00 m + m11 m) / 2
   - sqrt ((m00 m - m11 m) / 2 * ((m00 m - m11 m) / 2) + m10 m * m10 m),
   (m00 m + m11 m) / 2
   + sqrt ((m00 m - m11 m) / 2 * ((m00 m - m11 m) / 2) + m10 m * m10 m)).
Proof.
  unfold eigh2.
  destruct (Req_EM_T (m10 m) 0); [destruct (Rle_dec (m00 m) (m11 m)) |];
    reflexivity.
Qed.

Lemma eigh2_diagonal (m : M2 R) :
  m10 m = 0 -> m00 m <= m11 m -> snd (eigh2 m) = mkM2 1 0 0 1.
Proof.
  intros Hb Hle. unfold eigh2.
  destruct (Req_EM_T (m10 m) 0) as [_ | Hn]; [| contradiction].
  destruct (Rle_dec (m00 m) (m11 m)) as [_ | Hn]; [reflexivity | contradiction].
Qed.

Lemma pca_eigendecomposition_witness :
  exists r,
    calculate_pca_noise eigh2 [1; 2] [1; 3] [RtoC 0; RtoC 1] = Ok r /\
    length (evals r) = 2%nat.
Proof.
  destruct (pca_eigendecomposition eigh2 eigh2_correct
              [1; 2] [1; 3] [RtoC 0; RtoC 1] eq_refl eq_refl)
    as [r [H [L _]]].
  - discriminate.
  - exists r. split; [exact H | exact L].
Defined.


Lemma pca_eigenvalues_nonneg_witness :
  exists r w,
    calculate_pca_noise eigh2 [2] [2] [mkC 1 1] = Ok r /\
    nth_error (evals r) 0 = Some w /\ 0 <= fst w /\ 0 <= snd w.
Proof.
  destruct (pca_eigenvalues_nonneg eigh2 eigh2_correct
              [2] [2] [mkC 1 1] eq_refl eq_refl)
    as [r [H Hk]].
  - discriminate.
  - destruct (Hk 0%nat 2 2 (mkC 1 1) eq_refl eq_refl eq_refl) as [w [Hw [_ Hpos]]].
    exists r, w. split; [exact H |]. split; [exact Hw |].
    apply Hpos; unfold Cnorm2; simpl; lra.
Defined.

(** Outside the positive-semidefinite cone nothing is clamped: on the
    estimate [S_ii = S_qq = 1], [S_iq = 2], whose cross term lies beyond the
    Cauchy-Schwarz bound, the recorded lower eigenvalue is -1. *)
Lemma pca_negative_eigenvalue_kept :
  exists r w,
    calculate_pca_noise eigh2 [1] [1] [RtoC 2] = Ok r /\
    nth_error (evals r) 0 = Some w /\ fst w = -1 /\ fst w < 0.
Proof.
  assert (Hne : [1] <> @nil R) by discriminate.
  destruct (calculate_pca_noise_run eigh2 eigh2_correct
              [1] [1] [RtoC 2] eq_refl eq_refl Hne)
    as [a0 [d0 [c0 [_ [_ Hrun]]]]].
  eexists. exists (fst (eigh2 (eigh_matrix 1 1 (RtoC 2)))).
  split; [exact Hrun |]. split; [reflexivity |].
  rewrite eigh2_eigenvalues. simpl.
  assert (Hs : sqrt ((1 - 1) / 2 * ((1 - 1) / 2) + 2 * 2) = 2).
  { replace ((1 - 1) / 2 * ((1 - 1) / 2) + 2 * 2) with (2 * 2) by field.
    apply sqrt_square. lra. }
  rewrite Hs. split; lra.
Qed.

(** C7, the counterexample: for [S_ii = S_qq = 1] and the imaginary cross
    density [S_iq = i] the function records the eigenvectors of the identity
    matrix, which are not eigenvectors of [[1, i], [-i, 1]]. *)
Lemma pca_complex_cross_not_diagonalised :
  exists r w V,
    calculate_pca_noise eigh2 [1] [1] [Ci] = Ok r /\
    nth_error (evals r) 0 = Some w /\
    nth_error (evects r) 0 = Some V /\
    ~ is_eigendecomposition (full_matrix 1 1 Ci) w V.
Proof.
  assert (Hne : [1] <> @nil R) by discriminate.
  destruct (calculate_pca_noise_run eigh2 eigh2_correct
              [1] [1] [Ci] eq_refl eq_refl Hne)
    as [a0 [d0 [c0 [_ [_ Hrun]]]]].
  eexists. exists (fst (eigh2 (eigh_matrix 1 1 Ci))),
    (M2map RtoC (snd (eigh2 (eigh_matrix 1 1 Ci)))).
  split; [exact Hrun |]. split; [reflexivity |]. split; [reflexivity |].
  rewrite (eigh2_diagonal (eigh_matrix 1 1 Ci)); [| reflexivity | simpl; lra].
  intros [H _].
  apply (f_equal (fun M => Im (m01 M))) in H. simpl in H. lra.
Qed.

End PCAFacts.

(** ** The spectral estimator *)

Module SpectralFacts.

Import Cplx Spectral.
Local Open Scope R_scope.

Lemma Cnorm2_nonneg (z : C) : 0 <= Cnorm2 z.
Proof.
  unfold Cnorm2. pose proof (sq_nonneg (Re z)). pose proof (sq_nonneg (Im z)). lra.
Qed.

(** The sum of [|mu a - b|^2] over the segments, for [mu = u + i v]. *)
Lemma quadratic_nonneg (ab : list (C * C)) (u v : R) :
  0 <= (u * u + v * v) * Rsum (map (fun p => Cnorm2 (fst p)) ab)
       - 2 * (u * Re (Csum (map (fun p => Cmul (Cconj (fst p)) (snd p)) ab))
              + v * Im (Csum (map (fun p => Cmul (Cconj (fst p)) (snd p)) ab)))
       + Rsum (map (fun p => Cnorm2 (snd p)) ab).
Proof.
  induction ab as [| [[ar ai] [br bi]] tl IH]; simpl.
  - lra.
  - unfold Cnorm2 at 1 3. simpl.
    pose proof (sq_nonneg (u * ar - v * ai - br)) as H1.
    pose proof (sq_nonneg (u * ai + v * ar - bi)) as H2.
    match goal with
    | |- 0 <= ?e =>
        replace e with
          ((u * ar - v * ai - br) * (u * ar - v * ai - br)
           + (u * ai + v * ar - bi) * (u * ai + v * ar - bi)
           + ((u * u + v * v) * Rsum (map (fun p => Cnorm2 (fst p)) tl)
              - 2 * (u * Re (Csum (map (fun p => Cmul (Cconj (fst p)) (snd p)) tl))
                     + v * Im (Csum (map (fun p => Cmul (Cconj (fst p)) (snd p)) tl)))
              + Rsum (map (fun p => Cnorm2 (snd p)) tl))) by ring
    end.
    lra.
Qed.

Lemma Rsum_norm_nonneg {X : Type} (f : X -> C) (l : list X) :
  0 <= Rsum (map (fun p => Cnorm2 (f p)) l).
Proof.
  induction l as [| x l IH]; simpl; [lra |].
  pose proof (Cnorm2_nonneg (f x)). lra.
Qed.

(** Cauchy-Schwarz for the cross products summed over the segments. *)
Lemma cauchy_schwarz (ab : list (C * C)) :
  Cnorm2 (Csum (map (fun p => Cmul (Cconj (fst p)) (snd p)) ab))
  <= Rsum (map (fun p => Cnorm2 (fst p)) ab)
     * Rsum (map (fun p => Cnorm2 (snd p)) ab).
Proof.
  pose proof (quadratic_nonneg ab) as Hq.
  pose proof (Rsum_norm_nonneg fst ab) as HA.
  pose proof (Rsum_norm_nonneg snd ab) as HB.
  set (A := Rsum (map (fun p => Cnorm2 (fst p)) ab)) in *.
  set (B := Rsum (map (fun p => Cnorm2 (snd p)) ab)) in *.
  set (P := Csum (map (fun p => Cmul (Cconj (fst p)) (snd p)) ab)) in *.
  unfold Cnorm2. set (pr := Re P) in *. set (pi := Im P) in *.
  set (n2 := pr * pr + pi * pi).
  assert (Hn : 0 <= n2) by (unfold n2; pose proof (sq_nonneg pr); pose proof (sq_nonneg pi); lra).
  destruct (Req_dec A 0) as [HA0 | HA0].
  - rewrite HA0. rewrite Rmult_0_l.
    destruct (Req_dec n2 0) as [E | E]; [lra |].
    exfalso.
    assert (Hpos : 0 < n2) by lra.
    set (tt := (B + 1) / (2 * n2)).
    specialize (Hq (tt * pr) (tt * pi)). rewrite HA0 in Hq.
    assert (Ht : 2 * tt * n2 = B + 1) by (unfold tt; field; lra).
    replace ((tt * pr * (tt * pr) + tt * pi * (tt * pi)) * 0
             - 2 * (tt * pr * pr + tt * pi * pi) + B)
      with (B - 2 * tt * n2) in Hq by (unfold n2; ring).
    lra.
  - assert (HApos : 0 < A) by lra.
    specialize (Hq (pr / A) (pi / A)).
    replace ((pr / A * (pr / A) + pi / A * (pi / A)) * A
             - 2 * (pr / A * pr + pi / A * pi) + B)
      with (B - n2 / A) in Hq by (unfold n2; field; lra).
    assert (Hle : n2 / A <= B) by lra.
    apply (Rmult_le_compat_l A) in Hle; [| lra].
    replace (A * (n2 / A)) with n2 in Hle by (field; lra).
    exact Hle.
Qed.

(** The mean over the segments of three rows that belong together. *)
Lemma Rsum_scale {X : Type} (c : R) (f : X -> R) (l : list X) :
  Rsum (map (fun p => c * f p) l) = c * Rsum (map f l).
Proof.
  induction l as [| x l IH]; simpl; [ring | rewrite IH; ring].
Qed.

Lemma Csum_scale {X : Type} (c : R) (f : X -> C) (l : list X) :
  Csum (map (fun p => Cscale c (f p)) l) = Cscale c (Csum (map f l)).
Proof.
  induction l as [| x l IH]; simpl.
  - unfold Cscale, RtoC. simpl. f_equal; ring.
  - rewrite IH. unfold Cscale, Cadd. simpl. f_equal; ring.
Qed.

Lemma Cnorm2_scale (t : R) (z : C) : Cnorm2 (Cscale t z) = t * t * Cnorm2 z.
Proof. unfold Cnorm2, Cscale. simpl. ring. Qed.

Lemma div_real_C (z : C) (w : R) : w <> 0 -> div_real z w = Cscale (/ w) z.
Proof.
  intros Hw. destruct z as [x y]. simpl.
  unfold Cdiv, Cmul, Cinv, Cnorm2, Cscale, RtoC. simpl. f_equal; field; exact Hw.
Qed.

Lemma mul_real_C (z : C) (s : R) : mul_real z s = Cscale s z.
Proof.
  destruct z as [x y]. simpl. unfold Cmul, Cscale, RtoC. simpl. f_equal; ring.
Qed.

Lemma Cscale_Cscale (s t : R) (z : C) : Cscale s (Cscale t z) = Cscale (s * t) z.
Proof. unfold Cscale. simpl. f_equal; ring. Qed.

Lemma good_row_means (rxx ryy : list R) (rxy : list C) :
  good_row rxx ryy rxy ->
  0 <= mean_R rxx /\ 0 <= mean_R ryy /\
  Cnorm2 (mean_C rxy) <= mean_R rxx * mean_R ryy.
Proof.
  intros [c [ab [Hc [-> [-> ->]]]]].
  unfold mean_R, mean_C. rewrite !length_map.
  rewrite !Rsum_scale, Csum_scale.
  pose proof (Rsum_norm_nonneg fst ab) as HA.
  pose proof (Rsum_norm_nonneg snd ab) as HB.
  pose proof (cauchy_schwarz ab) as HCS.
  set (A := Rsum (map (fun p => Cnorm2 (fst p)) ab)) in *.
  set (B := Rsum (map (fun p => Cnorm2 (snd p)) ab)) in *.
  set (P := Csum (map (fun p => Cmul (Cconj (fst p)) (snd p)) ab)) in *.
  destruct ab as [| p0 tl].
  - simpl length. simpl INR. unfold A, B, P. simpl.
    unfold Cdiv, Cmul, Cinv, Cscale, Cnorm2, RtoC, Rdiv. simpl.
    repeat split; rewrite ?Rmult_0_r, ?Rmult_0_l; lra.
  - set (n := INR (length (p0 :: tl))).
    assert (Hn : 0 < n) by (unfold n; apply lt_0_INR; simpl; lia).
    assert (Hin : 0 < / n) by (apply Rinv_0_lt_compat; exact Hn).
    rewrite div_real_C by lra.
    rewrite Cscale_Cscale, Cnorm2_scale.
    unfold Rdiv.
    assert (HcA : 0 <= c * A) by (apply Rmult_le_pos; assumption).
    assert (HcB : 0 <= c * B) by (apply Rmult_le_pos; assumption).
    split; [apply Rmult_le_pos; lra |].
    split; [apply Rmult_le_pos; lra |].
    set (k := / n * c).
    assert (Hk : 0 <= k) by (unfold k; apply Rmult_le_pos; lra).
    replace (c * A * / n * (c * B * / n)) with (k * k * (A * B)) by (unfold k; ring).
    apply Rmult_le_compat_l; [| exact HCS].
    apply Rmult_le_pos; exact Hk.
Qed.

(** The in-place scalings keep rows together. *)
Lemma good_row_div (w : R) (rxx ryy : list R) (rxy : list C) :
  0 < w -> good_row rxx ryy rxy ->
  good_row (map (fun a => div_real a w) rxx) (map (fun a => div_real a w) ryy)
           (map (fun a => div_real a w) rxy).
Proof.
  intros Hw [c [ab [Hc [-> [-> ->]]]]].
  exists (/ w * c), ab.
  assert (Hin : 0 < / w) by (apply Rinv_0_lt_compat; exact Hw).
  split; [apply Rmult_le_pos; lra |].
  rewrite !map_map. repeat split; apply map_ext; intros p.
  - simpl. unfold Rdiv. ring.
  - simpl. unfold Rdiv. ring.
  - rewrite div_real_C by lra. apply Cscale_Cscale.
Qed.

Lemma good_row_mul (s : R) (rxx ryy : list R) (rxy : list C) :
  0 <= s -> good_row rxx ryy rxy ->
  good_row (map (fun a => mul_real a s) rxx) (map (fun a => mul_real a s) ryy)
           (map (fun a => mul_real a s) rxy).
Proof.
  intros Hs [c [ab [Hc [-> [-> ->]]]]].
  exists (s * c), ab.
  split; [apply Rmult_le_pos; lra |].
  rewrite !map_map. repeat split; apply map_ext; intros p.
  - simpl. ring.
  - simpl. ring.
  - rewrite mul_real_C. apply Cscale_Cscale.
Qed.

Lemma rows3_div_all (w : R) Pxx Pyy Pxy :
  0 < w -> rows3 Pxx Pyy Pxy ->
  rows3 (div_all w Pxx) (div_all w Pyy) (div_all w Pxy).
Proof.
  intros Hw H. induction H; simpl; constructor; auto using good_row_div.
Qed.

Lemma rows3_scale_but_last (s : R) Pxx Pyy Pxy :
  0 <= s -> rows3 Pxx Pyy Pxy ->
  rows3 (scale_but_last s Pxx) (scale_but_last s Pyy) (scale_but_last s Pxy).
Proof.
  intros Hs H. induction H as [| rxx ryy rxy Pxx Pyy Pxy Hg Hr IH]; [constructor |].
  simpl. destruct Hr as [| rxx' ryy' rxy' Pxx' Pyy' Pxy' Hg' Hr'].
  - constructor; [exact Hg | constructor].
  - constructor; [apply good_row_mul; assumption | exact IH].
Qed.

Lemma rows3_scale_inner (s : R) Pxx Pyy Pxy :
  0 <= s -> rows3 Pxx Pyy Pxy ->
  rows3 (scale_inner s Pxx) (scale_inner s Pyy) (scale_inner s Pxy).
Proof.
  intros Hs H. destruct H; simpl; constructor;
    auto using rows3_scale_but_last.
Qed.

Lemma rows3_app Pxx Pyy Pxy Qxx Qyy Qxy :
  rows3 Pxx Pyy Pxy -> rows3 Qxx Qyy Qxy ->
  rows3 (Pxx ++ Qxx) (Pyy ++ Qyy) (Pxy ++ Qxy).
Proof.
  intros H HQ. induction H; simpl; [exact HQ | constructor; assumption].
Qed.

Lemma rows3_firstn (h : nat) Pxx Pyy Pxy :
  rows3 Pxx Pyy Pxy -> rows3 (firstn h Pxx) (firstn h Pyy) (firstn h Pxy).
Proof.
  intros H. revert h. induction H; intros [| h]; simpl; constructor; auto.
Qed.

Lemma rows3_skipn (h : nat) Pxx Pyy Pxy :
  rows3 Pxx Pyy Pxy -> rows3 (skipn h Pxx) (skipn h Pyy) (skipn h Pxy).
Proof.
  intros H. revert h. induction H; intros [| h]; simpl;
    try constructor; auto.
Qed.

Lemma rows3_finish (wnorm sf Fs : R) (sbf twosided : bool) (numFreqs : nat)
    Pxx Pyy Pxy :
  0 < wnorm -> 0 <= sf -> 0 < Fs -> rows3 Pxx Pyy Pxy ->
  rows3 (finish wnorm sf Fs sbf twosided numFreqs Pxx)
        (finish wnorm sf Fs sbf twosided numFreqs Pyy)
        (finish wnorm sf Fs sbf twosided numFreqs Pxy).
Proof.
  intros Hw Hs HF H. unfold finish.
  assert (H1 : rows3 (scale_inner sf (div_all wnorm Pxx))
                     (scale_inner sf (div_all wnorm Pyy))
                     (scale_inner sf (div_all wnorm Pxy))).
  { apply rows3_scale_inner; [exact Hs |]. apply rows3_div_all; assumption. }
  assert (H2 : rows3
            (if sbf then div_all Fs (scale_inner sf (div_all wnorm Pxx))
             else scale_inner sf (div_all wnorm Pxx))
            (if sbf then div_all Fs (scale_inner sf (div_all wnorm Pyy))
             else scale_inner sf (div_all wnorm Pyy))
            (if sbf then div_all Fs (scale_inner sf (div_all wnorm Pxy))
             else scale_inner sf (div_all wnorm Pxy))).
  { destruct sbf; [apply rows3_div_all; assumption | exact H1]. }
  destruct twosided; [| exact H2].
  unfold recentre. apply rows3_app;
    [apply rows3_skipn | apply rows3_firstn]; exact H2.
Qed.

Lemma length_scale_but_last {A : Type} `{Dtype A} (s : R) (P : list (list A)) :
  length (scale_but_last s P) = length P.
Proof.
  induction P as [| r tl IH]; [reflexivity |].
  simpl. destruct tl; [reflexivity |]. simpl in *. rewrite IH. reflexivity.
Qed.

Lemma length_finish {A : Type} `{Dtype A} (wnorm sf Fs : R) (sbf twosided : bool)
    (numFreqs : nat) (P : list (list A)) :
  length (finish wnorm sf Fs sbf twosided numFreqs P) = length P.
Proof.
  unfold finish.
  assert (H1 : length (scale_inner sf (div_all wnorm P)) = length P).
  { unfold scale_inner, div_all. destruct P as [| r tl]; [reflexivity |].
    simpl. rewrite length_scale_but_last, length_map. reflexivity. }
  assert (H2 : length (if sbf then div_all Fs (scale_inner sf (div_all wnorm P))
                       else scale_inner sf (div_all wnorm P)) = length P).
  { destruct sbf; [unfold div_all at 1; rewrite length_map |]; exact H1. }
  destruct twosided; [| exact H2].
  unfold recentre. rewrite length_app, length_skipn, length_firstn. lia.
Qed.

Lemma rows3_nth Pxx Pyy Pxy :
  rows3 Pxx Pyy Pxy ->
  forall j rxx ryy rxy,
    nth_error Pxx j = Some rxx -> nth_error Pyy j = Some ryy ->
    nth_error Pxy j = Some rxy -> good_row rxx ryy rxy.
Proof.
  intros H. induction H as [| ? ? ? ? ? ? Hg Hr IH]; intros j rxx' ryy' rxy' H1 H2 H3.
  - destruct j; discriminate.
  - destruct j as [| j]; simpl in *.
    + injection H1 as <-. injection H2 as <-. injection H3 as <-. exact Hg.
    + eapply IH; eassumption.
Qed.

Lemma rows3_init {X : Type} (fxx fyy : X -> list R) (fxy : X -> list C) (l : list X) :
  (forall k, good_row (fxx k) (fyy k) (fxy k)) ->
  rows3 (map fxx l) (map fyy l) (map fxy l).
Proof.
  intros H. induction l; simpl; constructor; auto.
Qed.

(** The raw products of one frequency row belong together. *)
Lemma good_row_raw (segs : list (list C * list C)) (k : nat) :
  good_row (map (fun s => Re (cross (fst s) (fst s) k)) segs)
           (map (fun s => Re (cross (snd s) (snd s) k)) segs)
           (map (fun s => cross (fst s) (snd s) k) segs).
Proof.
  exists 1, (map (fun s => (nth k (fst s) (RtoC 0), nth k (snd s) (RtoC 0))) segs).
  split; [lra |].
  rewrite !map_map. repeat split; apply map_ext; intros [fx fy]; simpl.
  - unfold cross, Cnorm2, Cmul, Cconj. simpl. ring.
  - unfold cross, Cnorm2, Cmul, Cconj. simpl. ring.
  - unfold cross, Cscale, Cmul. simpl. f_equal; ring.
Qed.

Lemma mapM_ok {X B : Type} (f : X -> result B) (l : list X) :
  (forall a, In a l -> exists b, f a = Ok b) ->
  exists bs, mapM f l = Ok bs.
Proof.
  induction l as [| a l IH]; intros H; simpl.
  - eexists. reflexivity.
  - destruct (H a (or_introl eq_refl)) as [b Hb]. rewrite Hb. simpl.
    destruct IH as [bs Hbs]; [intros a' Ha'; apply H; right; exact Ha' |].
    rewrite Hbs. simpl. eexists. reflexivity.
Qed.

Lemma length_pad_signal (NFFT : nat) (x : list R) :
  length (pad_signal NFFT x) = Nat.max NFFT (length x).
Proof.
  unfold pad_signal. destruct (length x <? NFFT)%nat eqn:E.
  - apply Nat.ltb_lt in E. rewrite length_app, repeat_length. lia.
  - apply Nat.ltb_ge in E. lia.
Qed.

(** Every start index of [np.arange(0, stop, step)] lies below [stop]. *)
Lemma arange_step_bound (stop step i : nat) :
  (0 < step)%nat -> In i (arange_step stop step) -> (i < stop)%nat.
Proof.
  intros Hs Hi. unfold arange_step in Hi.
  apply in_map_iff in Hi. destruct Hi as [j [<- Hj]].
  apply in_seq in Hj. destruct Hj as [_ Hj]. simpl in Hj.
  pose proof (Nat.Div0.mul_div_le (stop + step - 1) step) as Hd.
  nia.
Qed.

Lemma segment_fft_ok (detrend : list R -> list R) (wv : list R)
    (NFFT pad_to numFreqs : nat) (x : list R) (i : nat) :
  (forall l, length (detrend l) = length l) ->
  length wv = NFFT -> (0 < pad_to)%nat -> (i + NFFT <= length x)%nat ->
  exists fx, segment_fft detrend wv NFFT pad_to numFreqs x i = Ok fx.
Proof.
  intros Hd Hw Hp Hi. unfold segment_fft, np_mul.
  rewrite Hd, length_firstn, length_skipn, Hw.
  replace (NFFT =? Nat.min NFFT (length x - i))%nat with true
    by (symmetry; apply Nat.eqb_eq; lia).
  cbn [bind]. unfold fft.
  replace (pad_to =? 0)%nat with false by (symmetry; apply Nat.eqb_neq; lia).
  cbn [bind]. eexists. reflexivity.
Qed.

(** On a valid configuration the helper returns, and its three arrays are
    the raw products of the segment transforms after the common scalings. *)
Lemma full_spectral_helper_run (x y : list R) (NFFT : nat) (Fs : R)
    (detrend : list R -> list R) (window : window_t) (noverlap : nat)
    (pad_to : option nat) (sides : sides_t) (scale_by_freq : option bool) :
  length x = length y ->
  (noverlap < NFFT)%nat ->
  (forall p, pad_to = Some p -> (0 < p)%nat) ->
  (forall l, length (detrend l) = length l) ->
  length (window_values window NFFT) = NFFT ->
  Fs <> 0 ->
  exists (segs : list (list C * list C)) (sf : R) (sbf twosided : bool)
         (fr tm : list R),
    0 <= sf /\
    let wnorm := Rsum (map (fun w => Rabs w * Rabs w) (window_values window NFFT)) in
    let nf := num_freqs pad_to NFFT sides in
    full_spectral_helper x y NFFT Fs detrend window noverlap pad_to sides
                         scale_by_freq
    = Ok (mkSpectra
            (finish wnorm sf Fs sbf twosided nf
               (map (fun k => map (fun s => Re (cross (fst s) (fst s) k)) segs)
                    (seq 0 nf)))
            (finish wnorm sf Fs sbf twosided nf
               (map (fun k => map (fun s => Re (cross (snd s) (snd s) k)) segs)
                    (seq 0 nf)))
            (finish wnorm sf Fs sbf twosided nf
               (map (fun k => map (fun s => cross (fst s) (snd s) k) segs)
                    (seq 0 nf)))
            fr tm).
Proof.
  intros Hxy Hov Hpad Hdet Hwin HF0.
  set (p := match pad_to with Some p => p | None => NFFT end).
  assert (Hp : (0 < p)%nat).
  { unfold p. destruct pad_to as [q |]; [apply Hpad; reflexivity | lia]. }
  set (twosided := match sides with TwoSided => true | _ => false end).
  set (nf := if twosided then p else (p / 2 + 1)%nat).
  assert (Hnf : num_freqs pad_to NFFT sides = nf).
  { unfold num_freqs, nf, twosided. fold p. destruct sides; reflexivity. }
  set (x' := pad_signal NFFT x). set (y' := pad_signal NFFT y).
  assert (Hlx : (NFFT <= length x')%nat)
    by (unfold x'; rewrite length_pad_signal; lia).
  assert (Hly : length y' = length x')
    by (unfold x', y'; rewrite !length_pad_signal; lia).
  set (ind := arange_step (length x' - NFFT + 1) (NFFT - noverlap)).
  assert (Hind : forall i, In i ind -> (i + NFFT <= length x')%nat).
  { intros i Hi. apply arange_step_bound in Hi; lia. }
  set (wv := window_values window NFFT) in *.
  destruct (mapM_ok (segment_fft detrend wv NFFT p nf x') ind) as [fxs Hfx].
  { intros i Hi. apply segment_fft_ok; auto. }
  destruct (mapM_ok (segment_fft detrend wv NFFT p nf y') ind) as [fys Hfy].
  { intros i Hi. apply segment_fft_ok; auto. rewrite Hly. auto. }
  exists (combine fxs fys), (if twosided then 1 else 2),
    (match scale_by_freq with Some b => b | None => true end), twosided.
  eexists. eexists.
  split; [destruct twosided; lra |].
  cbv zeta. rewrite Hnf.
  unfold full_spectral_helper. cbv zeta.
  fold p. fold twosided. fold nf. fold x'. fold y'.
  assert (Hw : match window with
               | WindowVals w =>
                   if (length w =? NFFT)%nat then Ok w else Raise AssertionError
               | WindowFun f => Ok (f (repeat 1 NFFT))
               end = Ok wv).
  { unfold wv, window_values in *. destruct window as [w | f]; [| reflexivity].
    rewrite Hwin, Nat.eqb_refl. reflexivity. }
  rewrite Hw. cbn [bind].
  replace (NFFT =? noverlap)%nat with false by (symmetry; apply Nat.eqb_neq; lia).
  replace (NFFT <? noverlap)%nat with false by (symmetry; apply Nat.ltb_ge; lia).
  fold ind. rewrite Hfx. cbn [bind]. rewrite Hfy. cbn [bind].
  destruct (Req_EM_T Fs 0) as [E | _]; [contradiction |].
  reflexivity.
Qed.

(** C2: for two real signals of one length and a valid configuration (an
    overlap shorter than the segment, a positive padding length and sample
    rate, a length-preserving detrend, a window of the segment's length that
    is not identically zero) the helper returns, the averaged auto-densities
    are real numbers that are nonnegative at every output frequency, and the
    averaged densities satisfy [|S_AB|^2 <= S_AA * S_BB] at every output
    frequency. *)
Theorem spectral_densities_valid (x y : list R) (NFFT : nat) (Fs : R)
    (detrend : list R -> list R) (window : window_t) (noverlap : nat)
    (pad_to : option nat) (sides : sides_t) (scale_by_freq : option bool) :
  length x = length y ->
  (noverlap < NFFT)%nat ->
  (forall p, pad_to = Some p -> (0 < p)%nat) ->
  0 < Fs ->
  (forall l, length (detrend l) = length l) ->
  length (window_values window NFFT) = NFFT ->
  0 < Rsum (map (fun w => Rabs w * Rabs w) (window_values window NFFT)) ->
  exists s Sxx Syy Sxy,
    full_spectral_helper x y NFFT Fs detrend window noverlap pad_to sides
                         scale_by_freq = Ok s /\
    averaged s = (Sxx, Syy, Sxy) /\
    length Sxx = num_freqs pad_to NFFT sides /\
    length Syy = num_freqs pad_to NFFT sides /\
    length Sxy = num_freqs pad_to NFFT sides /\
    forall j sxx syy sxy,
      nth_error Sxx j = Some sxx -> nth_error Syy j = Some syy ->
      nth_error Sxy j = Some sxy ->
      0 <= sxx /\ 0 <= syy /\ Cnorm2 sxy <= sxx * syy.
Proof.
  intros Hxy Hov Hpad HFs Hdet Hwin Hnorm.
  assert (HF0 : Fs <> 0) by lra.
  destruct (full_spectral_helper_run x y NFFT Fs detrend window noverlap pad_to
              sides scale_by_freq Hxy Hov Hpad Hdet Hwin HF0)
    as [segs [sf [sbf [twosided [fr [tm [Hsf Hrun]]]]]]].
  cbv zeta in Hrun.
  set (wnorm := Rsum (map (fun w => Rabs w * Rabs w) (window_values window NFFT))) in *.
  set (nf := num_freqs pad_to NFFT sides) in *.
  eexists. eexists. eexists. eexists.
  split; [exact Hrun |]. split; [reflexivity |].
  cbn [Pxx Pyy Pxy].
  split; [rewrite length_map, length_finish, length_map, length_seq; reflexivity |].
  split; [rewrite length_map, length_finish, length_map, length_seq; reflexivity |].
  split; [rewrite length_map, length_finish, length_map, length_seq; reflexivity |].
  intros j sxx syy sxy H1 H2 H3.
  rewrite nth_error_map in H1, H2, H3.
  destruct (nth_error (finish wnorm sf Fs sbf twosided nf _) j) as [rxx |] eqn:E1
    in H1; [| discriminate].
  destruct (nth_error (finish wnorm sf Fs sbf twosided nf _) j) as [ryy |] eqn:E2
    in H2; [| discriminate].
  destruct (nth_error (finish wnorm sf Fs sbf twosided nf _) j) as [rxy |] eqn:E3
    in H3; [| discriminate].
  simpl in H1, H2, H3. injection H1 as <-. injection H2 as <-. injection H3 as <-.
  apply good_row_means.
  eapply rows3_nth; [| exact E1 | exact E2 | exact E3].
  apply rows3_finish; try assumption.
  apply rows3_init. intros k. apply good_row_raw.
Qed.

Lemma spectral_densities_valid_witness :
  exists s,
    full_spectral_helper [1; 2; 0; 1] [0; 1; 1; 3] 2 1 (fun l => l)
                         (WindowVals [1; 1]) 0 None Default None = Ok s /\
    length (fst (fst (averaged s))) = 2%nat.
Proof.
  destruct (spectral_densities_valid [1; 2; 0; 1] [0; 1; 1; 3] 2 1 (fun l => l)
              (WindowVals [1; 1]) 0 None Default None)
    as [s [Sxx [Syy [Sxy [H [Ha [L _]]]]]]].
  - reflexivity.
  - lia.
  - intros p Hp. discriminate Hp.
  - lra.
  - intros l. reflexivity.
  - reflexivity.
  - simpl. rewrite Rabs_R1. lra.
  - exists s. split; [exact H |]. rewrite Ha. exact L.
Defined.

End SpectralFacts.

(** ** Tone placement, periods and attenuators *)

Module PlacementFacts.

Import Demod Demodulate Heterodyne.
Local Open Scope Q_scope.

(** [np.round] stays within one half of its argument. *)
Lemma np_round_near (q : Q) :
  inject_Z (np_round q) - (1 # 2) <= q /\ q <= inject_Z (np_round q) + (1 # 2).
Proof.
  unfold np_round.
  pose proof (Qfloor_le q) as Hlo. pose proof (Qlt_floor q) as Hhi.
  rewrite inject_Z_plus in Hhi. change (inject_Z 1) with 1 in Hhi.
  set (f := Qfloor q) in *.
  destruct (q - inject_Z f ?= 1 # 2) eqn:E.
  - apply Qeq_alt in E.
    destruct (Z.even f); [| rewrite inject_Z_plus; change (inject_Z 1) with 1];
      split; lra.
  - apply Qlt_alt in E. split; lra.
  - apply Qgt_alt in E. rewrite inject_Z_plus. change (inject_Z 1) with 1.
    split; lra.
Qed.

Lemma inject_Z_nonzero (z : Z) : z <> 0%Z -> ~ inject_Z z == 0.
Proof.
  intros Hz H. unfold Qeq in H. simpl in H. lia.
Qed.

(** The FFT bin chosen by [calc_fft_bins] leaves an offset frequency of at
    most half an FFT bin, when the FFT length divides the playback length. *)
Theorem calc_fft_bin_offset_bound (nfft r tone_bin : Z) :
  (0 < nfft)%Z -> (0 < r)%Z ->
  exists m,
    calc_fft_bin nfft tone_bin (nfft * r) = Ok m /\
    - (1 # 2) <= tone_offset_frequency tone_bin (nfft * r) m nfft /\
    tone_offset_frequency tone_bin (nfft * r) m nfft <= 1 # 2.
Proof.
  intros Hn Hr. unfold calc_fft_bin, py_floordiv.
  replace (nfft =? 0)%Z with false by (symmetry; apply Z.eqb_neq; lia).
  simpl bind.
  replace (nfft * r / nfft)%Z with r
    by (rewrite Z.mul_comm, Z.div_mul; lia).
  eexists. split; [reflexivity |].
  set (q := inject_Z tone_bin / inject_Z r).
  destruct (np_round_near q) as [H1 H2].
  assert (Hoff : tone_offset_frequency tone_bin (nfft * r) (np_round q) nfft
                 == q - inject_Z (np_round q)).
  { unfold tone_offset_frequency, q. rewrite inject_Z_mult.
    field. split; apply inject_Z_nonzero; lia. }
  rewrite Hoff. split; lra.
Qed.

Lemma calc_fft_bin_offset_bound_witness :
  exists m,
    calc_fft_bin 16384 101 (16384 * 4) = Ok m /\
    - (1 # 2) <= tone_offset_frequency 101 (16384 * 4) m 16384 /\
    tone_offset_frequency 101 (16384 * 4) m 16384 <= 1 # 2.
Proof. apply calc_fft_bin_offset_bound; lia. Defined.

(** The offset frequency vanishes exactly when the tone sits on the centre
    of its FFT bin, [tone_bin * nfft = fft_bin * ns]. *)
Theorem tone_offset_zero_iff (tone_bin ns fft_bin nfft : Z) :
  (0 < ns)%Z ->
  (tone_offset_frequency tone_bin ns fft_bin nfft == 0 <->
   (tone_bin * nfft = fft_bin * ns)%Z).
Proof.
  intros Hns.
  assert (Hnz : ~ inject_Z ns == 0) by (apply inject_Z_nonzero; lia).
  assert (Heq : tone_offset_frequency tone_bin ns fft_bin nfft
                == (inject_Z (tone_bin * nfft) - inject_Z (fft_bin * ns))
                   / inject_Z ns).
  { unfold tone_offset_frequency. rewrite !inject_Z_mult. field. exact Hnz. }
  rewrite Heq. split.
  - intros H.
    assert (H' : inject_Z (tone_bin * nfft) == inject_Z (fft_bin * ns)).
    { assert (Hm : (inject_Z (tone_bin * nfft) - inject_Z (fft_bin * ns))
                   / inject_Z ns * inject_Z ns == 0 * inject_Z ns)
        by (rewrite H; reflexivity).
      rewrite Qmult_0_l in Hm.
      unfold Qdiv in Hm. rewrite <- Qmult_assoc in Hm.
      rewrite (Qmult_comm (/ inject_Z ns)), Qmult_inv_r, Qmult_1_r in Hm
        by exact Hnz.
      lra. }
    unfold Qeq in H'. simpl in H'. lia.
  - intros H. rewrite H. unfold Qdiv. setoid_replace
      (inject_Z (fft_bin * ns) - inject_Z (fft_bin * ns)) with 0 by ring.
    apply Qmult_0_l.
Qed.

Lemma tone_offset_zero_iff_witness :
  tone_offset_frequency 100 65536 25 16384 == 0 <->
  (100 * 16384 = 25 * 65536)%Z.
Proof. apply tone_offset_zero_iff. lia. Defined.

(** [set_tone_freqs] quantises a frequency to the nearest playback bin: the
    frequency it reports differs from the request by at most half the
    resolution [fs / nsamp]. *)
Theorem actual_freq_error (fs : Q) (nsamp : Z) (freq : Q) :
  0 < fs -> (0 < nsamp)%Z ->
  let actual := actual_freq fs nsamp (tone_bin_of_freq fs nsamp freq) in
  actual - fs / inject_Z nsamp * (1 # 2) <= freq /\
  freq <= actual + fs / inject_Z nsamp * (1 # 2).
Proof.
  intros Hfs Hns actual.
  assert (Hn : 0 < inject_Z nsamp).
  { change 0 with (inject_Z 0). rewrite <- Zlt_Qlt. exact Hns. }
  set (q := freq / fs * inject_Z nsamp).
  destruct (np_round_near q) as [H1 H2].
  set (b := inject_Z (np_round q)) in *.
  assert (Hres : 0 < fs / inject_Z nsamp).
  { apply Qlt_shift_div_l; [exact Hn | lra]. }
  assert (Hfq : freq == fs / inject_Z nsamp * q).
  { unfold q. field. split; lra. }
  assert (Hact : actual == fs / inject_Z nsamp * b).
  { unfold actual, actual_freq, tone_bin_of_freq. fold q. fold b.
    field. lra. }
  rewrite Hact, Hfq.
  set (res := fs / inject_Z nsamp) in *.
  split.
  - setoid_replace (res * b - res * (1 # 2)) with (res * (b - (1 # 2))) by ring.
    apply Qmult_le_l; assumption.
  - setoid_replace (res * b + res * (1 # 2)) with (res * (b + (1 # 2))) by ring.
    apply Qmult_le_l; assumption.
Qed.

Lemma actual_freq_error_witness :
  let actual := actual_freq 512 65536 (tone_bin_of_freq 512 65536 (1001 # 10)) in
  actual - 512 / inject_Z 65536 * (1 # 2) <= 1001 # 10 /\
  (1001 # 10) <= actual + 512 / inject_Z 65536 * (1 # 2).
Proof. apply actual_freq_error; [reflexivity | lia]. Defined.

(** For a request within half the sample rate on either side, the wrapped
    bin [set_tone_freqs] passes on is an index into the playback buffer. *)
Theorem wrapped_bin_in_range (fs : Q) (nsamp : Z) (freq : Q) :
  0 < fs -> (2 <= nsamp)%Z ->
  - (fs * (1 # 2)) <= freq -> freq <= fs * (1 # 2) ->
  (0 <= wrap_bin nsamp (tone_bin_of_freq fs nsamp freq) < nsamp)%Z.
Proof.
  intros Hfs Hns Hlo Hhi.
  assert (Hn : 0 < inject_Z nsamp).
  { change 0 with (inject_Z 0). rewrite <- Zlt_Qlt. lia. }
  unfold tone_bin_of_freq.
  set (u := freq / fs).
  assert (Hu1 : u <= 1 # 2).
  { unfold u. apply Qle_shift_div_r; [exact Hfs | lra]. }
  assert (Hu2 : - (1 # 2) <= u).
  { unfold u. apply Qle_shift_div_l; [exact Hfs | lra]. }
  set (n := inject_Z nsamp) in *.
  assert (Hq1 : u * n <= (1 # 2) * n) by (apply Qmult_le_compat_r; lra).
  assert (Hq2 : - (1 # 2) * n <= u * n) by (apply Qmult_le_compat_r; lra).
  destruct (np_round_near (u * n)) as [H1 H2].
  set (b := np_round (u * n)) in *.
  assert (Hb1 : (2 * b <= nsamp + 1)%Z).
  { rewrite Zle_Qle, inject_Z_mult, inject_Z_plus. fold n.
    change (inject_Z 2) with 2. change (inject_Z 1) with 1. lra. }
  assert (Hb2 : (- nsamp - 1 <= 2 * b)%Z).
  { rewrite Zle_Qle, inject_Z_mult.
    replace (- nsamp - 1)%Z with (- nsamp + - (1))%Z by lia.
    rewrite inject_Z_plus, !inject_Z_opp. fold n.
    change (inject_Z 2) with 2. change (inject_Z 1) with 1. lra. }
  unfold wrap_bin. destruct (b <? 0)%Z eqn:E.
  - apply Z.ltb_lt in E. lia.
  - apply Z.ltb_ge in E. lia.
Qed.

Lemma wrapped_bin_in_range_witness :
  (0 <= wrap_bin 65536 (tone_bin_of_freq 512 65536 (- (1001 # 10))) < 65536)%Z.
Proof. apply wrapped_bin_in_range; [reflexivity | lia | discriminate | discriminate]. Defined.

(** [int] of a nonnegative float is its floor. *)
Lemma py_int_nonneg (x : Q) :
  0 <= x -> inject_Z (py_int x) <= x /\ x < inject_Z (py_int x) + 1.
Proof.
  intros Hx.
  assert (Hf : py_int x = Qfloor x).
  { destruct x as [n d]. unfold py_int, Qfloor. simpl.
    apply Z.quot_div_nonneg; [| lia].
    unfold Qle in Hx. simpl in Hx. lia. }
  rewrite Hf. split; [apply Qfloor_le |].
  pose proof (Qlt_floor x) as H. rewrite inject_Z_plus in H. exact H.
Qed.

(** [set_dac_attenuator] rejects a value outside 0..63 dB before touching
    the hardware; inside the range the two attenuator settings are each
    between 0 and 31.5 dB and add up to the request, and the stored value is
    the request rounded down to a half dB. *)
Theorem set_dac_attenuator_split (attendb : Q) :
  (attendb < 0 \/ 63 < attendb -> set_dac_attenuator attendb = Raise ValueError) /\
  (0 <= attendb -> attendb <= 63 ->
   exists attena attenb stored,
     set_dac_attenuator attendb = Ok ([(attena, 1%Z); (attenb, 128%Z)], stored) /\
     attena + attenb == attendb /\
     0 <= attena /\ attena <= 63 # 2 /\ 0 <= attenb /\ attenb <= 63 # 2 /\
     stored <= attendb /\ attendb < stored + (1 # 2) /\
     exists n : Z, stored == inject_Z n / 2).
Proof.
  unfold set_dac_attenuator. split.
  - intros [H | H].
    + destruct (Qlt_le_dec attendb 0); [reflexivity | lra].
    + destruct (Qlt_le_dec attendb 0); [reflexivity |].
      destruct (Qlt_le_dec 63 attendb); [reflexivity | lra].
  - intros H0 H63.
    destruct (Qlt_le_dec attendb 0) as [Hc | _]; [lra |].
    destruct (Qlt_le_dec 63 attendb) as [Hc | _]; [lra |].
    simpl orb. cbv iota.
    assert (H2 : 0 <= attendb * 2) by lra.
    destruct (py_int_nonneg (attendb * 2) H2) as [Hf1 Hf2].
    set (k := inject_Z (py_int (attendb * 2))) in *.
    assert (Hst : k / 2 <= attendb /\ attendb < k / 2 + (1 # 2)).
    { split.
      - apply Qle_shift_div_r; [reflexivity | exact Hf1].
      - setoid_replace (k / 2 + (1 # 2)) with ((k + 1) / 2) by field.
        apply Qlt_shift_div_l; [reflexivity | exact Hf2]. }
    destruct (Qlt_le_dec (63 # 2) attendb) as [Hhi | Hlo].
    + do 3 eexists. split; [reflexivity |].
      repeat split; try lra. exists (py_int (attendb * 2)). reflexivity.
    + do 3 eexists. split; [reflexivity |].
      repeat split; try lra. exists (py_int (attendb * 2)). reflexivity.
Qed.

Lemma set_dac_attenuator_split_witness :
  exists attena attenb stored,
    set_dac_attenuator (401 # 10)
    = Ok ([(attena, 1%Z); (attenb, 128%Z)], stored) /\
    attena + attenb == 401 # 10.
Proof.
  destruct (proj2 (set_dac_attenuator_split (401 # 10)))
    as [a [b [st [H [Hsum _]]]]].
  - discriminate.
  - discriminate.
  - exists a, b, st. split; [exact H | exact Hsum].
Defined.

End PlacementFacts.

(** ** Edge cases of the period and of the truncation *)

Module PeriodFacts.

Import Demod DemodFacts.
Local Open Scope Q_scope.

Lemma py_int_ge (n : Z) (q : Q) :
  (0 <= n)%Z -> inject_Z n <= q -> (n <= py_int q)%Z.
Proof.
  intros Hn Hq. destruct q as [a d]. unfold py_int. simpl.
  unfold Qle in Hq. simpl in Hq.
  assert (Ha : (0 <= a)%Z) by nia.
  rewrite Z.quot_div_nonneg by lia.
  apply Z.div_le_lower_bound; lia.
Qed.

Lemma py_int_nonpos (q : Q) : q <= 0 -> (py_int q <= 0)%Z.
Proof.
  intros Hq. destruct q as [a d]. unfold py_int. simpl.
  unfold Qle in Hq. simpl in Hq.
  assert (Ha : (a <= 0)%Z) by lia.
  rewrite <- (Z.opp_involutive a), Z.quot_opp_l by lia.
  assert (0 <= Z.quot (- a) (Z.pos d))%Z by (apply Z.quot_pos; lia).
  lia.
Qed.

(** With an offset between 0 and one half, as [calc_fft_bins] leaves them,
    the period is at least 2, so the truncation that follows divides by a
    positive number. *)
Theorem get_foffs_period_at_least_two (foffs : list Q) (f : Q) :
  In f foffs -> 0 < f -> f <= 1 # 2 ->
  exists nt, get_foffs_period foffs = Ok nt /\ (2 <= nt)%Z.
Proof.
  intros Hin Hpos Hhalf.
  assert (Hnz : ~ Forall (fun f => f == 0) foffs).
  { intros H. rewrite Forall_forall in H. specialize (H f Hin). lra. }
  destruct (get_foffs_period_max foffs Hnz) as [mx [Hp [_ Hmax]]].
  exists (py_int mx). split; [exact Hp |].
  apply py_int_ge; [lia |].
  assert (Hf : ~ f == 0) by lra.
  apply Qle_trans with (/ f); [| apply Hmax; assumption].
  apply Qle_shift_inv_l; [exact Hpos |].
  change (inject_Z 2) with 2. lra.
Qed.

Lemma get_foffs_period_at_least_two_witness :
  exists nt, get_foffs_period [0; 1 # 37; - (1 # 4)] = Ok nt /\ (2 <= nt)%Z.
Proof.
  apply (get_foffs_period_at_least_two [0; 1 # 37; - (1 # 4)] (1 # 37)).
  - right. left. reflexivity.
  - reflexivity.
  - discriminate.
Defined.

(** When every nonzero offset is negative the function still returns, with
    a period that is zero or negative. *)
Theorem get_foffs_period_negative_offsets (foffs : list Q) :
  ~ Forall (fun f => f == 0) foffs ->
  (forall f, In f foffs -> f <= 0) ->
  exists nt, get_foffs_period foffs = Ok nt /\ (nt <= 0)%Z.
Proof.
  intros Hnz Hneg.
  destruct (get_foffs_period_max foffs Hnz) as [mx [Hp [[f [Hin [Hf Hmx]]] _]]].
  exists (py_int mx). split; [exact Hp |].
  apply py_int_nonpos. rewrite Hmx.
  assert (Hlt : f < 0) by (specialize (Hneg f Hin); lra).
  clear -Hlt. destruct f as [[| p | p] d]; unfold Qlt in Hlt; simpl in Hlt;
    try lia.
  unfold Qle, Qinv. simpl. lia.
Qed.

Lemma get_foffs_period_negative_offsets_witness :
  exists nt, get_foffs_period [- (1 # 37); 0; - (1 # 4)] = Ok nt /\ (nt <= 0)%Z.
Proof.
  apply get_foffs_period_negative_offsets.
  - intros H. inversion H as [| ? ? H1 _]. discriminate H1.
  - intros f [<- | [<- | [<- | []]]]; discriminate.
Defined.

(** A negative period makes the truncation of [demodulate_stream] a no-op:
    the whole buffer is kept. *)
Theorem truncate_to_period_negative {A : Type} (nt : Z) (data : list A) :
  (nt < 0)%Z -> truncate_to_period nt data = Ok data.
Proof.
  intros Hnt. unfold truncate_to_period.
  set (n := Z.of_nat (length data)).
  replace (nt =? 0)%Z with false by (symmetry; apply Z.eqb_neq; lia).
  destruct (n mod nt =? 0)%Z; simpl; [reflexivity |].
  pose proof (Z.div_mod n nt) as Hdm.
  pose proof (Z.mod_neg_bound n nt Hnt) as Hb.
  assert (He : (n <= nt * (n / nt))%Z) by lia.
  unfold py_slice_to.
  replace (0 <=? nt * (n / nt))%Z with true
    by (symmetry; apply Z.leb_le; unfold n in *; lia).
  rewrite firstn_all2; [reflexivity |]. unfold n in He. lia.
Qed.

Lemma truncate_to_period_negative_witness :
  truncate_to_period (-37) (repeat tt 100) = Ok (repeat tt 100).
Proof. apply truncate_to_period_negative. lia. Defined.

(** For a positive period the truncation keeps a prefix of the buffer and
    is idempotent: a truncated buffer is left as it is. *)
Theorem truncate_to_period_idempotent {A : Type} (nt : Z) (data : list A) :
  (0 < nt)%Z ->
  exists data',
    truncate_to_period nt data = Ok data' /\
    data' = firstn (length data') data /\
    (length data' <= length data)%nat /\
    truncate_to_period nt data' = Ok data'.
Proof.
  intros Hnt.
  destruct (truncate_to_period_pos nt data Hnt) as [d [H1 [H2 H3]]].
  exists d. split; [exact H1 |].
  assert (Hle : (nt * (Z.of_nat (length data) / nt) <= Z.of_nat (length data))%Z)
    by (apply Z.mul_div_le; lia).
  split; [| split].
  - rewrite H2 at 1. f_equal. lia.
  - lia.
  - unfold truncate_to_period.
    replace (nt =? 0)%Z with false by (symmetry; apply Z.eqb_neq; lia).
    rewrite H3, Z.mul_comm, Z.mod_mul by lia. reflexivity.
Qed.

Lemma truncate_to_period_idempotent_witness :
  exists data',
    truncate_to_period 37 (repeat tt 100) = Ok data' /\
    truncate_to_period 37 data' = Ok data'.
Proof.
  destruct (truncate_to_period_idempotent 37 (repeat tt 100)) as [d [H1 [_ [_ H2]]]].
  - lia.
  - exists d. split; [exact H1 | exact H2].
Defined.

End PeriodFacts.

(** ** Bounds on the PFB correction and the span of its table *)

Module PfbBounds.

Import Demod Demodulate PfbFacts PfbTable.
Local Open Scope Q_scope.

Lemma Qmult_le_nonneg_l (c a b : Q) : 0 <= c -> a <= b -> c * a <= c * b.
Proof.
  intros Hc Hab. rewrite !(Qmult_comm c). apply Qmult_le_compat_r; assumption.
Qed.

(** A value interpolated from the table lies between the bounds of the
    tabulated values. *)
Lemma interp_scan_range (lo hi : Q) (rest : list (Q * Q)) :
  forall x0 y0 x,
    StronglySorted Qlt (x0 :: map fst rest) ->
    x0 <= x -> lo <= y0 -> y0 <= hi ->
    Forall (fun p => lo <= snd p /\ snd p <= hi) rest ->
    lo <= interp_scan x x0 y0 rest /\ interp_scan x x0 y0 rest <= hi.
Proof.
  induction rest as [| [x1 y1] rest IH]; intros x0 y0 x Hs Hx Hlo Hhi Hall.
  - simpl. split; assumption.
  - assert (Hs' : StronglySorted Qlt (x1 :: map fst rest)).
    { apply StronglySorted_inv in Hs. tauto. }
    assert (H01 : x0 < x1).
    { apply StronglySorted_inv in Hs. destruct Hs as [_ Hf].
      inversion Hf; assumption. }
    inversion Hall as [| ? ? [Hy1 Hy2] Hall']; subst. simpl in Hy1, Hy2.
    simpl interp_scan.
    destruct (Qlt_le_dec x x1) as [Hlt | Hge].
    + destruct (Qeq_bool x0 x); [split; assumption |].
      set (t := (x - x0) / (x1 - x0)).
      assert (Ht0 : 0 <= t).
      { unfold t. apply Qle_shift_div_l; lra. }
      assert (Ht1 : t <= 1).
      { unfold t. apply Qle_shift_div_r; lra. }
      assert (Hv : (y1 - y0) / (x1 - x0) * (x - x0) + y0
                   == (1 - t) * y0 + t * y1).
      { unfold t. field. lra. }
      rewrite Hv.
      assert (Ha : (1 - t) * lo <= (1 - t) * y0)
        by (apply Qmult_le_nonneg_l; lra).
      assert (Hb : t * lo <= t * y1) by (apply Qmult_le_nonneg_l; lra).
      assert (Hc : (1 - t) * y0 <= (1 - t) * hi)
        by (apply Qmult_le_nonneg_l; lra).
      assert (Hd : t * y1 <= t * hi) by (apply Qmult_le_nonneg_l; lra).
      split; lra.
    + apply IH; assumption.
Qed.

Lemma positive_lower_bound (l : list Q) :
  Forall (fun y => 0 < y) l ->
  exists lo, 0 < lo /\ Forall (fun y => lo <= y) l.
Proof.
  induction l as [| y l IH]; intros H.
  - exists 1. split; [reflexivity | constructor].
  - inversion H as [| ? ? Hy Hl]; subst.
    destruct (IH Hl) as [lo [Hlo Hall]].
    exists (Qmin y lo). split.
    + destruct (Q.min_dec y lo) as [E | E]; rewrite E; assumption.
    + constructor; [apply Q.le_min_l |].
      eapply Forall_impl; [| exact Hall].
      intros a Ha. eapply Qle_trans; [apply Q.le_min_r | exact Ha].
Qed.

Lemma Forall_combine_snd {A B : Type} (P : B -> Prop) (l : list A) (l' : list B) :
  Forall P l' -> Forall (fun p => P (snd p)) (combine l l').
Proof.
  intros H. apply Forall_forall. intros [a b] Hin.
  apply in_combine_r in Hin. rewrite Forall_forall in H. apply H, Hin.
Qed.

Lemma last_in_cons {A : Type} (l : list A) (d : A) : In (last l d) (d :: l).
Proof.
  revert d. induction l as [| a l IH]; intros d; [left; reflexivity |].
  right. rewrite last_cons_default. apply IH.
Qed.

(** With a response table normalised to a maximum of one, as
    [compute_window_frequency_response] builds it, the correction returned
    for any offset, inside or outside the table, is at least one: the
    lookup never attenuates. *)
Theorem compute_pfb_response_at_least_one (self : Demodulator) (x : Q) :
  _window_frequency self <> [] ->
  length (_window_frequency self) = length (_window_response self) ->
  StronglySorted Qlt (_window_frequency self) ->
  Forall (fun y => 0 < y /\ y <= 1) (_window_response self) ->
  exists wc, compute_pfb_response self x = Ok wc /\ 1 <= wc.
Proof.
  intros Hne Hlen Hs Hall.
  assert (Hpos : Forall (fun y => 0 < y) (_window_response self)).
  { eapply Forall_impl; [| exact Hall]. intros a [Ha _]. exact Ha. }
  destruct (positive_lower_bound _ Hpos) as [lo [Hlo Hge]].
  assert (Hrange : Forall (fun y => lo <= y /\ y <= 1) (_window_response self)).
  { rewrite Forall_forall in *. intros y Hy. split; [apply Hge, Hy |].
    apply (Hall y Hy). }
  pose proof (Forall_combine_snd (fun y => lo <= y /\ y <= 1)
                (_window_frequency self) _ Hrange) as Hnodes.
  pose proof (map_fst_combine_eq _ _ Hlen) as Hfst.
  unfold compute_pfb_response, np_interp.
  rewrite Hlen, Nat.eqb_refl. simpl negb. cbv iota.
  rewrite <- Hfst in Hs.
  destruct (combine (_window_frequency self) (_window_response self))
    as [| [x0 y0] rest] eqn:Ec.
  { exfalso. destruct (_window_frequency self); [congruence |].
    destruct (_window_response self); discriminate. }
  assert (Hv : forall v, lo <= v -> v <= 1 ->
               exists wc, Ok (1 / v) = Ok wc /\ 1 <= wc).
  { intros v H1 H2. exists (1 / v). split; [reflexivity |].
    apply Qle_shift_div_l; lra. }
  inversion Hnodes as [| ? ? [Hy0 Hy0'] Hrest]; subst. simpl in Hy0, Hy0'.
  destruct (last rest (x0, y0)) as [xn yn] eqn:El.
  assert (Hyn : lo <= yn /\ yn <= 1).
  { pose proof (last_in_cons rest (x0, y0)) as Hin. rewrite El in Hin.
    rewrite Forall_forall in Hnodes. apply (Hnodes (xn, yn) Hin). }
  destruct (Qlt_le_dec xn x); [simpl; apply Hv; tauto |].
  destruct (Qlt_le_dec x x0) as [| Hx0]; [simpl; apply Hv; tauto |].
  simpl. simpl map in Hs.
  destruct (interp_scan_range lo 1 rest x0 y0 x Hs Hx0 Hy0 Hy0' Hrest) as [H1 H2].
  apply Hv; assumption.
Qed.

Lemma compute_pfb_response_at_least_one_witness :
  exists wc, compute_pfb_response demo_table (3 # 4) = Ok wc /\ 1 <= wc.
Proof.
  apply compute_pfb_response_at_least_one.
  - discriminate.
  - reflexivity.
  - simpl. repeat constructor.
  - simpl. repeat constructor; discriminate.
Defined.

Lemma sorted_map_seq (f : nat -> Q) :
  (forall i j, (i < j)%nat -> f i < f j) ->
  forall n a, StronglySorted Qlt (map f (seq a n)).
Proof.
  intros Hf. induction n as [| n IH]; intros a; simpl; constructor.
  - apply IH.
  - apply Forall_forall. intros y Hy. apply in_map_iff in Hy.
    destruct Hy as [j [<- Hj]]. apply in_seq in Hj. apply Hf. lia.
Qed.

(** The frequency axis built by [compute_window_frequency_response] is
    strictly increasing, has one point per response sample, and for a
    window of at least four points reaches from -1/2 or below to 1/2 or
    above: every offset [calc_fft_bins] can leave lies inside the table. *)
Theorem normalized_frequency_axis (window_len interpolation_factor : nat) :
  (0 < interpolation_factor)%nat ->
  let axis := normalized_frequency window_len interpolation_factor in
  StronglySorted Qlt axis /\
  length axis = (window_len * interpolation_factor)%nat /\
  ((4 <= window_len)%nat ->
   exists first last,
     nth_error axis 0 = Some first /\
     nth_error axis (window_len * interpolation_factor - 1) = Some last /\
     first <= - (1 # 2) /\ 1 # 2 <= last).
Proof.
  intros Hi axis. unfold axis, normalized_frequency.
  set (L := (window_len * interpolation_factor)%nat).
  set (I := inject_Z (Z.of_nat interpolation_factor)).
  assert (HI : 1 <= I).
  { unfold I. change 1 with (inject_Z 1). rewrite <- Zle_Qle. lia. }
  split; [| split].
  - apply sorted_map_seq. intros i j Hij.
    assert (Hq : inject_Z (Z.of_nat i) < inject_Z (Z.of_nat j))
      by (rewrite <- Zlt_Qlt; lia).
    apply Qmult_lt_compat_r; [reflexivity |].
    apply Qmult_lt_compat_r; [apply Qinv_lt_0_compat; lra |]. lra.
  - rewrite length_map, length_seq. reflexivity.
  - intros Hw.
    assert (HL : (1 <= L)%nat) by (unfold L; nia).
    set (W := inject_Z (Z.of_nat window_len)).
    assert (HW : 4 <= W).
    { unfold W. change 4 with (inject_Z 4). rewrite <- Zle_Qle. lia. }
    assert (HLq : inject_Z (Z.of_nat L) == W * I).
    { unfold L, W, I. rewrite Nat2Z.inj_mul, inject_Z_mult. reflexivity. }
    assert (HWI : 4 * I <= W * I) by (apply Qmult_le_compat_r; lra).
    do 2 eexists. split; [| split; [| split]].
    + rewrite nth_error_map, nth_error_seq.
      replace (0 <? L)%nat with true by (symmetry; apply Nat.ltb_lt; lia).
      reflexivity.
    + rewrite nth_error_map, nth_error_seq.
      replace (L - 1 <? L)%nat with true by (symmetry; apply Nat.ltb_lt; lia).
      reflexivity.
    + simpl Nat.add. change (inject_Z (Z.of_nat 0)) with 0. fold I.
      rewrite HLq.
      setoid_replace ((- (W * I / 2) + 0) / I / 2) with (- (W / 4))
        by (field; lra).
      assert (1 <= W / 4) by (apply Qle_shift_div_l; [reflexivity | lra]).
      lra.
    + simpl Nat.add. fold I.
      replace (Z.of_nat (L - 1)) with (Z.of_nat L + - (1))%Z by lia.
      rewrite inject_Z_plus, inject_Z_opp, HLq. change (inject_Z 1) with 1.
      setoid_replace ((- (W * I / 2) + (W * I + - (1))) / I / 2)
        with ((W * I - 2) / (4 * I)) by (field; lra).
      apply Qle_shift_div_l; lra.
Qed.

Lemma normalized_frequency_axis_witness :
  StronglySorted Qlt (normalized_frequency 4 2) /\
  length (normalized_frequency 4 2) = 8%nat.
Proof.
  destruct (normalized_frequency_axis 4 2) as [H1 [H2 _]].
  - lia.
  - split; [exact H1 | exact H2].
Defined.

End PfbBounds.

(** ** Phase factors and magnitudes *)

Module MagnitudeFacts.

Import Cplx Demod Demodulate PhaseFacts Heterodyne.
Local Open Scope R_scope.

Lemma Cnorm2_Cmul (a b : C) : Cnorm2 (Cmul a b) = Cnorm2 a * Cnorm2 b.
Proof. unfold Cnorm2, Cmul. simpl. ring. Qed.

Lemma Cnorm2_Cconj (a : C) : Cnorm2 (Cconj a) = Cnorm2 a.
Proof. unfold Cnorm2, Cconj. simpl. ring. Qed.

Lemma Cmul_assoc (a b c : C) : Cmul (Cmul a b) c = Cmul a (Cmul b c).
Proof. unfold Cmul. simpl. f_equal; ring. Qed.

(** The sequence counter enters [packet_phase] only through its chunk
    number modulo [modn]: advancing it by [modn] chunks, [modn * 2^shift]
    counts, leaves every correction factor unchanged. *)
Theorem packet_phase_wraps (seq_no : Z) (foffs : list Q) (nchan nfft ns : Z) :
  (0 < nchan)%Z -> (2 <= nfft * 1024 / nchan)%Z ->
  let chan_counts := (nfft * 1024 / nchan)%Z in
  let shift := (Z.log2 chan_counts - 1)%Z in
  let modn := if (ns / chan_counts =? 0)%Z then 1%Z else (ns / chan_counts)%Z in
  packet_phase (seq_no + modn * 2 ^ shift) foffs nchan nfft ns
  = packet_phase seq_no foffs nchan nfft ns.
Proof.
  intros Hn Hc chan_counts shift modn.
  destruct (packet_phase_ints_ok seq_no nchan nfft ns Hn Hc) as [H1 [Hm Hs]].
  destruct (packet_phase_ints_ok (seq_no + modn * 2 ^ shift) nchan nfft ns Hn Hc)
    as [H2 _].
  fold chan_counts shift modn in H1, H2, Hm, Hs.
  unfold packet_phase. rewrite H1, H2.
  replace (Z.shiftr (seq_no + modn * 2 ^ shift) shift mod modn)%Z
    with (Z.shiftr seq_no shift mod modn)%Z; [reflexivity |].
  rewrite !Z.shiftr_div_pow2 by exact Hs.
  assert (Hp : (0 < 2 ^ shift)%Z) by (apply Z.pow_pos_nonneg; lia).
  rewrite Z.div_add by lia. symmetry.
  replace (seq_no / 2 ^ shift + modn)%Z
    with (seq_no / 2 ^ shift + 1 * modn)%Z by lia.
  apply Z.mod_add. exact Hm.
Qed.

Lemma packet_phase_wraps_witness :
  packet_phase (5000 + 4 * 2 ^ 21) [1 # 37] 4 16384 (2 ^ 24)
  = packet_phase 5000 [1 # 37] 4 16384 (2 ^ 24).
Proof.
  apply (packet_phase_wraps 5000 [1 # 37] 4 16384 (2 ^ 24)).
  - lia.
  - vm_compute. discriminate.
Defined.

(** A channel whose tone sits exactly on its FFT bin (zero offset) gets the
    correction factor 1 from [packet_phase], whatever the sequence number. *)
Theorem packet_phase_zero_offset (seq_no : Z) (foffs : list Q) (nchan nfft ns : Z)
    (c : nat) (f : Q) :
  (0 < nchan)%Z -> (2 <= nfft * 1024 / nchan)%Z ->
  nth_error foffs c = Some f -> (f == 0)%Q ->
  exists out,
    packet_phase seq_no foffs nchan nfft ns = Ok out /\
    nth_error out c = Some (RtoC 1).
Proof.
  intros Hn Hc Hf H0.
  destruct (packet_phase_ints_ok seq_no nchan nfft ns Hn Hc) as [H1 [Hm _]].
  unfold packet_phase. rewrite H1. simpl bind.
  eexists. split; [reflexivity |].
  rewrite nth_error_map, Hf. simpl. f_equal.
  rewrite packet_phase_factor_eq by exact Hm.
  rewrite (Qeq_eqR _ _ H0). rewrite RMicromega.Q2R_0.
  rewrite Cexp_imag.
  replace (- (2 * PI * _ * 0 * _ / _)) with 0 by (unfold Rdiv; ring).
  rewrite cos_0, sin_0. reflexivity.
Qed.

Lemma packet_phase_zero_offset_witness :
  exists out,
    packet_phase 5000 [1 # 37; 0%Q] 4 16384 65536 = Ok out /\
    nth_error out 1 = Some (RtoC 1).
Proof.
  apply (packet_phase_zero_offset 5000 [1 # 37; 0%Q] 4 16384 65536 1 0%Q).
  - lia.
  - vm_compute. discriminate.
  - reflexivity.
  - reflexivity.
Defined.

Lemma Cnorm2_times (o : option C) (z : C) :
  unit_factor o -> Cnorm2 (times o z) = Cnorm2 z.
Proof.
  destruct o as [p |]; simpl; intros H; [| reflexivity].
  rewrite Cnorm2_Cmul, H. ring.
Qed.

Lemma compute_pfb_response_returns (self : Demodulator) (x : Q) :
  _window_frequency self <> [] ->
  length (_window_frequency self) = length (_window_response self) ->
  exists wc, compute_pfb_response self x = Ok wc.
Proof.
  intros Hne Hlen. unfold compute_pfb_response, np_interp.
  rewrite Hlen, Nat.eqb_refl. simpl negb. cbv iota.
  destruct (_window_frequency self) as [| x0 xp]; [congruence |].
  destruct (_window_response self) as [| y0 fp]; [discriminate |].
  simpl combine. cbv iota beta.
  destruct (last (combine xp fp) (x0, y0)) as [xn yn].
  destruct (Qlt_le_dec xn x); [eexists; reflexivity |].
  destruct (Qlt_le_dec x x0); eexists; reflexivity.
Qed.

(** The value of [demodulate] on valid inputs: the samples rotated by the
    offset phasor and scaled by the PFB correction, then two optional
    factors of magnitude one. *)
Lemma demodulate_run (self : Demodulator) (data : list C)
    (tone_bin ns : Z) (phi0 : R) (fft_bin nchan : Z) (seq_nos : option (list Z)) :
  (0 < ns)%Z ->
  _window_frequency self <> [] ->
  length (_window_frequency self) = length (_window_response self) ->
  (forall s, seq_nos = Some s ->
     s <> [] /\ (0 < nchan)%Z /\ (2 <= Demodulate.nfft self * 1024 / nchan)%Z) ->
  let offset := tone_offset_frequency tone_bin ns fft_bin (Demodulate.nfft self) in
  exists wc pphase delay,
    compute_pfb_response self offset = Ok wc /\
    unit_factor pphase /\ unit_factor delay /\
    (seq_nos = None -> pphase = None) /\
    ((hardware_delay_samples self == 0)%Q -> delay = None) /\
    demodulate self data tone_bin ns phi0 fft_bin nchan seq_nos
    = Ok (map (times delay)
            (map (times pphase)
               (map (fun td => demod_sample wc offset phi0 (fst td) (snd td))
                    (combine (seq 0 (length data)) data)))).
Proof.
  intros Hns Hne Hlen Hseq offset.
  destruct (compute_pfb_response_returns self offset Hne Hlen) as [wc Hwc].
  set (base := map (fun td => demod_sample wc offset phi0 (fst td) (snd td))
                   (combine (seq 0 (length data)) data)).
  assert (Hpp : exists pphase,
            unit_factor pphase /\ (seq_nos = None -> pphase = None) /\
            match seq_nos with
            | Some s =>
                s0 <- first_seq_no s ;;
                pp <- packet_phase s0 [offset] nchan (Demodulate.nfft self) ns ;;
                Ok (map (fun z => Cmul z (hd (RtoC 1) pp)) base)
            | None => Ok base
            end = Ok (map (times pphase) base)).
  { destruct seq_nos as [s |].
    - destruct (Hseq s eq_refl) as [Hs [Hn Hc]].
      destruct s as [| s0 tl]; [congruence |].
      destruct (packet_phase_ints_ok s0 nchan (Demodulate.nfft self) ns Hn Hc)
        as [Hints [Hm _]].
      eexists (Some _). split; [| split; [discriminate |]].
      2:{ simpl first_seq_no. cbn [bind]. unfold packet_phase.
          rewrite Hints. cbn [bind map hd]. reflexivity. }
      simpl. rewrite packet_phase_factor_eq by exact Hm.
      apply Cnorm2_Cexp_imag.
    - exists None. split; [exact I |]. split; [reflexivity |].
      f_equal. symmetry. apply map_id. }
  destruct Hpp as [pphase [Hu [Hnone Hpp]]].
  assert (Hrun : demodulate self data tone_bin ns phi0 fft_bin nchan seq_nos =
                 if nonzero (hardware_delay_samples self)
                 then Ok (map (fun z => Cmul z
                            (hardware_delay_factor (hardware_delay_samples self)
                                                   tone_bin ns))
                            (map (times pphase) base))
                 else Ok (map (times pphase) base)).
  { unfold demodulate. fold offset. rewrite Hwc. cbn [bind]. fold base.
    rewrite Hpp. reflexivity. }
  unfold nonzero in Hrun.
  destruct (Qeq_bool (hardware_delay_samples self) 0) eqn:E; simpl negb in Hrun.
  - exists wc, pphase, None.
    split; [exact Hwc |]. split; [exact Hu |]. split; [exact I |].
    split; [exact Hnone |]. split; [reflexivity |].
    rewrite Hrun. f_equal. symmetry. apply map_id.
  - exists wc, pphase,
      (Some (hardware_delay_factor (hardware_delay_samples self) tone_bin ns)).
    split; [exact Hwc |]. split; [exact Hu |].
    split; [simpl; rewrite hardware_delay_factor_eq by lia;
            apply Cnorm2_Cexp_imag |].
    split; [exact Hnone |].
    split; [intros H0; apply Qeq_bool_iff in H0; congruence |].
    exact Hrun.
Qed.

(** Demodulation changes the magnitude of a sample only by the PFB
    correction: [|demod[t]|^2 = wc^2 |raw[t]|^2], with or without sequence
    numbers and hardware delay. *)
Theorem demodulate_magnitude (self : Demodulator) (data : list C)
    (tone_bin ns : Z) (phi0 : R) (fft_bin nchan : Z) (seq_nos : option (list Z)) :
  (0 < ns)%Z ->
  _window_frequency self <> [] ->
  length (_window_frequency self) = length (_window_response self) ->
  (forall s, seq_nos = Some s ->
     s <> [] /\ (0 < nchan)%Z /\ (2 <= Demodulate.nfft self * 1024 / nchan)%Z) ->
  exists wc out,
    compute_pfb_response self
      (tone_offset_frequency tone_bin ns fft_bin (Demodulate.nfft self)) = Ok wc /\
    demodulate self data tone_bin ns phi0 fft_bin nchan seq_nos = Ok out /\
    length out = length data /\
    forall t d, nth_error data t = Some d ->
      exists z, nth_error out t = Some z /\
                Cnorm2 z = Q2R wc * Q2R wc * Cnorm2 d.
Proof.
  intros Hns Hne Hlen Hseq.
  destruct (demodulate_run self data tone_bin ns phi0 fft_bin nchan seq_nos
              Hns Hne Hlen Hseq)
    as [wc [pp [dl [Hwc [Hu1 [Hu2 [_ [_ Hrun]]]]]]]].
  exists wc. eexists. split; [exact Hwc |]. split; [exact Hrun |].
  split; [rewrite !length_map, length_combine, length_seq; lia |].
  intros t d Hd. eexists. split.
  - rewrite !nth_error_map, (nth_error_combine_seq data 0 t d Hd). reflexivity.
  - simpl. rewrite !Cnorm2_times by assumption.
    rewrite demod_sample_eq, !Cnorm2_Cmul, Cnorm2_Cexp_imag.
    unfold Cnorm2, RtoC. simpl. ring.
Qed.

Lemma demodulate_magnitude_witness :
  exists wc out,
    compute_pfb_response demo_delayed
      (tone_offset_frequency 100 65536 25 16384) = Ok wc /\
    demodulate demo_delayed [mkC 1 0; mkC 0 1] 100 65536 0 25 4 (Some [5000%Z])
    = Ok out /\ length out = 2%nat.
Proof.
  destruct (demodulate_magnitude demo_delayed [mkC 1 0; mkC 0 1] 100 65536 0 25 4
              (Some [5000%Z]))
    as [wc [out [H1 [H2 [H3 _]]]]].
  - lia.
  - discriminate.
  - reflexivity.
  - intros s Hs. injection Hs as <-. split; [discriminate |].
    split; [lia | vm_compute; discriminate].
  - exists wc, out. repeat split; assumption.
Defined.

(** One channel of the heterodyne demodulation: a rotation by a phasor,
    conjugated for the upper half of the FFT bins. *)
Lemma demodulate_channel_run (self : RoachHeterodyne) (ich : nat) (column : list C)
    (phi0 : R) (k m : Z) :
  nth_error (phases self) ich = Some phi0 ->
  nth_error (tone_bins self) ich = Some k ->
  nth_error (fft_bins self) ich = Some m ->
  let foffs := demodulate_data_foffs k m (Heterodyne.nfft self) (tone_nsamp self) in
  let rot td :=
    Cmul (Cexp (mkC 0 (- (2 * PI * Q2R foffs * INR (fst td) + phi0)))) (snd td) in
  demodulate_channel self ich column =
  Ok (map (fun td => if (Heterodyne.nfft self / 2 <=? m)%Z
                     then Cconj (rot td) else rot td)
          (combine (seq 0 (length column)) column)).
Proof.
  intros Hp Hk Hm foffs rot. unfold demodulate_channel, PCA.index.
  rewrite Hp, Hk, Hm. cbn [bind]. fold foffs. f_equal.
  assert (Hrot : forall td,
            Cmul (Cexp (Cmul (Cmul (RtoC (-1)) Ci)
                             (RtoC (2 * PI * Q2R foffs * INR (fst td) + phi0))))
                 (snd td) = rot td).
  { intros td. unfold rot. do 2 f_equal.
    unfold Cmul, Ci, RtoC. simpl. f_equal; ring. }
  destruct (Heterodyne.nfft self / 2 <=? m)%Z.
  - rewrite map_map. apply map_ext. intros td. rewrite Hrot. reflexivity.
  - apply map_ext. exact Hrot.
Qed.

Lemma mapM_all_ok {X B : Type} (f : X -> result B) (g : X -> B) (l : list X) :
  (forall a, In a l -> f a = Ok (g a)) -> mapM f l = Ok (map g l).
Proof.
  induction l as [| a l IH]; intros H; simpl; [reflexivity |].
  rewrite (H a (or_introl eq_refl)). cbn [bind].
  rewrite IH by (intros a' Ha'; apply H; right; exact Ha'). reflexivity.
Qed.

(** [RoachHeterodyne.demodulate_data] returns an array of the shape of its
    input; every sample of a selected channel keeps its magnitude, and a
    column beyond the selection is zero. *)
Theorem demodulate_data_shape (self : RoachHeterodyne) (data : list (list C)) :
  (length (readout_selection self) <= length data)%nat ->
  (forall ich, In ich (readout_selection self) ->
     (ich < length (phases self))%nat /\ (ich < length (tone_bins self))%nat /\
     (ich < length (fft_bins self))%nat) ->
  exists out,
    demodulate_data self data = Ok out /\
    length out = length data /\
    forall n column, nth_error data n = Some column ->
      exists demod,
        nth_error out n = Some demod /\
        length demod = length column /\
        forall t d, nth_error column t = Some d ->
          exists z, nth_error demod t = Some z /\
                    if (n <? length (readout_selection self))%nat
                    then Cnorm2 z = Cnorm2 d else z = RtoC 0.
Proof.
  intros Hlen Hsel.
  set (sel := readout_selection self) in *.
  set (chan := fun nich : nat * nat =>
         match nth_error data (fst nich), nth_error (phases self) (snd nich),
               nth_error (tone_bins self) (snd nich),
               nth_error (fft_bins self) (snd nich) with
         | Some column, Some phi0, Some k, Some m =>
             let foffs := demodulate_data_foffs k m (Heterodyne.nfft self)
                                                (tone_nsamp self) in
             let rot td :=
               Cmul (Cexp (mkC 0 (- (2 * PI * Q2R foffs * INR (fst td) + phi0))))
                    (snd td) in
             map (fun td => if (Heterodyne.nfft self / 2 <=? m)%Z
                            then Cconj (rot td) else rot td)
                 (combine (seq 0 (length column)) column)
         | _, _, _, _ => []
         end).
  assert (Hdone : mapM (fun nich =>
                     column <- PCA.index data (fst nich) ;;
                     demodulate_channel self (snd nich) column)
                    (combine (seq 0 (length sel)) sel)
                  = Ok (map chan (combine (seq 0 (length sel)) sel))).
  { apply mapM_all_ok. intros [n ich] Hin.
    pose proof (in_combine_l _ _ _ _ Hin) as Hn. apply in_seq in Hn.
    pose proof (in_combine_r _ _ _ _ Hin) as Hich.
    destruct (Hsel ich Hich) as [Hp [Hk Hm]].
    apply nth_error_Some in Hp, Hk, Hm.
    assert (Hcol : nth_error data n <> None) by (apply nth_error_Some; lia).
    unfold chan. simpl fst. simpl snd. unfold PCA.index at 1.
    destruct (nth_error data n) as [column |]; [| congruence].
    destruct (nth_error (phases self) ich) as [phi0 |] eqn:Ep; [| congruence].
    destruct (nth_error (tone_bins self) ich) as [k |] eqn:Ek; [| congruence].
    destruct (nth_error (fft_bins self) ich) as [m |] eqn:Em; [| congruence].
    cbn [bind].
    apply (demodulate_channel_run self ich column phi0 k m Ep Ek Em). }
  unfold demodulate_data. fold sel. rewrite Hdone. cbn [bind].
  eexists. split; [reflexivity |].
  assert (Hl1 : length (map chan (combine (seq 0 (length sel)) sel)) = length sel).
  { rewrite length_map, length_combine, length_seq. lia. }
  split.
  { rewrite length_app, Hl1, length_map, length_skipn. lia. }
  intros n column Hcol.
  destruct (n <? length sel)%nat eqn:En.
  - apply Nat.ltb_lt in En.
    destruct (nth_error sel n) as [ich |] eqn:Eich;
      [| apply nth_error_None in Eich; lia].
    assert (Hin : In ich sel) by (eapply nth_error_In; eassumption).
    destruct (Hsel ich Hin) as [Hp [Hk Hm]].
    apply nth_error_Some in Hp, Hk, Hm.
    rewrite nth_error_app1 by lia.
    rewrite nth_error_map.
    assert (Hnich : nth_error (combine (seq 0 (length sel)) sel) n = Some (n, ich)).
    { apply PCAFacts.nth_error_combine. split; [| exact Eich].
      rewrite nth_error_seq.
      replace (n <? length sel)%nat with true by (symmetry; apply Nat.ltb_lt; lia).
      reflexivity. }
    rewrite Hnich. simpl option_map. unfold chan. simpl fst. simpl snd.
    rewrite Hcol.
    destruct (nth_error (phases self) ich) as [phi0 |]; [| congruence].
    destruct (nth_error (tone_bins self) ich) as [k |]; [| congruence].
    destruct (nth_error (fft_bins self) ich) as [m |]; [| congruence].
    eexists. split; [reflexivity |].
    split; [rewrite length_map, length_combine, length_seq; lia |].
    intros t d Hd. eexists. split.
    + rewrite nth_error_map, (nth_error_combine_seq column 0 t d Hd). reflexivity.
    + simpl. destruct (Heterodyne.nfft self / 2 <=? m)%Z;
        rewrite ?Cnorm2_Cconj, Cnorm2_Cmul, Cnorm2_Cexp_imag; ring.
  - apply Nat.ltb_ge in En.
    rewrite nth_error_app2 by lia. rewrite Hl1.
    rewrite nth_error_map, nth_error_skipn.
    replace (length sel + (n - length sel))%nat with n by lia.
    rewrite Hcol. simpl. eexists. split; [reflexivity |].
    split; [apply length_map |].
    intros t d Hd. exists (RtoC 0). split; [| reflexivity].
    rewrite nth_error_map, Hd. reflexivity.
Qed.

Lemma demodulate_data_shape_witness :
  exists out,
    demodulate_data demo_heterodyne [[mkC 1 0; mkC 0 1]; [mkC 2 0; mkC 0 2]]
    = Ok out /\ length out = 2%nat.
Proof.
  destruct (demodulate_data_shape demo_heterodyne
              [[mkC 1 0; mkC 0 1]; [mkC 2 0; mkC 0 2]])
    as [out [H1 [H2 _]]].
  - simpl. lia.
  - simpl. intros ich [<- | [<- | []]]; lia.
  - exists out. split; [exact H1 | exact H2].
Defined.

(** With more channels selected than the array has columns,
    [demodulate_data] raises [IndexError] instead of returning. *)
Theorem demodulate_data_missing_column (self : RoachHeterodyne)
    (data : list (list C)) :
  (length data < length (readout_selection self))%nat ->
  (forall ich, In ich (readout_selection self) ->
     (ich < length (phases self))%nat /\ (ich < length (tone_bins self))%nat /\
     (ich < length (fft_bins self))%nat) ->
  demodulate_data self data = Raise IndexError.
Proof.
  intros Hlen Hsel. unfold demodulate_data.
  set (sel := readout_selection self) in *.
  set (f := fun nich : nat * nat =>
              column <- PCA.index data (fst nich) ;;
              demodulate_channel self (snd nich) column).
  assert (Hm : mapM f (combine (seq 0 (length sel)) sel) = Raise IndexError).
  { assert (Hgen : forall (l : list nat) (a : nat),
               (forall ich, In ich l -> In ich sel) ->
               (a <= length data)%nat ->
               (length data < a + length l)%nat ->
               mapM f (combine (seq a (length l)) l) = Raise IndexError).
    { induction l as [| ich l IH]; intros a Hin Ha Hl; [simpl in Hl; lia |].
      simpl. unfold f at 1. simpl fst. simpl snd. unfold PCA.index at 1.
      destruct (nth_error data a) as [column |] eqn:Ea; [| reflexivity].
      cbn [bind].
      destruct (Hsel ich (Hin ich (or_introl eq_refl))) as [Hp [Hk Hmm]].
      apply nth_error_Some in Hp, Hk, Hmm.
      destruct (nth_error (phases self) ich) as [phi0 |] eqn:Ep; [| congruence].
      destruct (nth_error (tone_bins self) ich) as [k |] eqn:Ek; [| congruence].
      destruct (nth_error (fft_bins self) ich) as [m |] eqn:Em; [| congruence].
      rewrite (demodulate_channel_run self ich column phi0 k m Ep Ek Em).
      cbn [bind].
      assert (Hlt : (a < length data)%nat)
        by (apply nth_error_Some; congruence).
      rewrite IH; [reflexivity | | lia |].
      - intros i Hi. apply Hin. right. exact Hi.
      - simpl in Hl. lia. }
    apply Hgen; [auto | lia | lia]. }
  rewrite Hm. reflexivity.
Qed.

Lemma demodulate_data_missing_column_witness :
  demodulate_data demo_heterodyne [[mkC 1 0; mkC 0 1]] = Raise IndexError.
Proof.
  apply demodulate_data_missing_column.
  - simpl. lia.
  - simpl. intros ich [<- | [<- | []]]; lia.
Defined.

Lemma foffs_agree (k m nfft ns : Z) :
  (0 < ns)%Z ->
  Q2R (demodulate_data_foffs k m nfft ns) = Q2R (tone_offset_frequency k ns m nfft).
Proof.
  intros Hns. apply Qeq_eqR.
  unfold demodulate_data_foffs, tone_offset_frequency.
  replace (k * nfft - m * ns)%Z with (k * nfft + - (m * ns))%Z by lia.
  rewrite inject_Z_plus, inject_Z_opp, !inject_Z_mult.
  field. intros H. unfold Qeq in H. simpl in H. lia.
Qed.

Lemma Cconj_involutive (z : C) : Cconj (Cconj z) = z.
Proof.
  destruct z as [x y]. unfold Cconj. simpl. f_equal. ring.
Qed.

(** The two demodulators on one channel: [Demodulator.demodulate] without
    sequence numbers and hardware delay gives the heterodyne result times
    the PFB correction for an FFT bin in the lower half, and the conjugate
    of the heterodyne result times the correction for a bin in the upper
    half, where only [RoachHeterodyne.demodulate_data] conjugates. *)
Theorem heterodyne_versus_demodulator (h : RoachHeterodyne) (dm : Demodulator)
    (ich : nat) (column : list C) (phi0 : R) (k m nchan : Z) :
  nth_error (phases h) ich = Some phi0 ->
  nth_error (tone_bins h) ich = Some k ->
  nth_error (fft_bins h) ich = Some m ->
  (0 < tone_nsamp h)%Z ->
  Demodulate.nfft dm = Heterodyne.nfft h ->
  (hardware_delay_samples dm == 0)%Q ->
  _window_frequency dm <> [] ->
  length (_window_frequency dm) = length (_window_response dm) ->
  exists wc out_h out_d,
    compute_pfb_response dm
      (tone_offset_frequency k (tone_nsamp h) m (Heterodyne.nfft h)) = Ok wc /\
    demodulate_channel h ich column = Ok out_h /\
    demodulate dm column k (tone_nsamp h) phi0 m nchan None = Ok out_d /\
    length out_h = length column /\ length out_d = length column /\
    forall t z, nth_error out_h t = Some z ->
      nth_error out_d t =
      Some (Cmul (RtoC (Q2R wc))
                 (if (Heterodyne.nfft h / 2 <=? m)%Z then Cconj z else z)).
Proof.
  intros Hp Hk Hm Hns Hnfft Hdl Hne Hlen.
  destruct (demodulate_run dm column k (tone_nsamp h) phi0 m nchan None
              Hns Hne Hlen) as [wc [pp [dl [Hwc [_ [_ [Hpp [Hdl' Hrun]]]]]]]].
  { intros s Hs. discriminate Hs. }
  rewrite (Hpp eq_refl), (Hdl' Hdl) in Hrun. rewrite Hnfft in Hwc, Hrun.
  pose proof (demodulate_channel_run h ich column phi0 k m Hp Hk Hm) as Hh.
  cbv zeta in Hh.
  exists wc. eexists. eexists.
  split; [exact Hwc |]. split; [exact Hh |]. split; [exact Hrun |].
  split; [rewrite length_map, length_combine, length_seq; lia |].
  split; [rewrite !length_map, length_combine, length_seq; lia |].
  intros t z Hz.
  rewrite nth_error_map in Hz.
  destruct (nth_error (combine (seq 0 (length column)) column) t)
    as [[t' d] |] eqn:Et; [| discriminate].
  simpl in Hz. injection Hz as <-.
  rewrite !nth_error_map, Et. simpl. f_equal.
  rewrite demod_sample_eq, Cmul_assoc.
  rewrite (foffs_agree k m (Heterodyne.nfft h) (tone_nsamp h) Hns).
  destruct (Heterodyne.nfft h / 2 <=? m)%Z;
    rewrite ?Cconj_involutive; reflexivity.
Qed.

Lemma heterodyne_versus_demodulator_witness :
  exists wc out_h out_d,
    compute_pfb_response demo_table (tone_offset_frequency 40000 65536 10000 16384)
    = Ok wc /\
    demodulate_channel demo_heterodyne 1 [mkC 1 0; mkC 0 1] = Ok out_h /\
    demodulate demo_table [mkC 1 0; mkC 0 1] 40000 65536 1 10000 4 None = Ok out_d.
Proof.
  destruct (heterodyne_versus_demodulator demo_heterodyne demo_table 1
              [mkC 1 0; mkC 0 1] 1 40000 10000 4)
    as [wc [oh [od [H1 [H2 [H3 _]]]]]]; try reflexivity.
  - discriminate.
  - exists wc, oh, od. repeat split; assumption.
Defined.

End MagnitudeFacts.

(** ** More on the spectral helper *)

Module SpectralShape.

Import Cplx Spectral SpectralFacts.
Local Open Scope R_scope.

Lemma mapM_length {X B : Type} (f : X -> result B) (l : list X) (bs : list B) :
  mapM f l = Ok bs -> length bs = length l.
Proof.
  revert bs. induction l as [| a l IH]; intros bs H; simpl in H.
  - injection H as <-. reflexivity.
  - destruct (f a) as [b | e]; [| discriminate]. simpl in H.
    destruct (mapM f l) as [bs' | e]; [| discriminate]. simpl in H.
    injection H as <-. simpl. f_equal. apply IH. reflexivity.
Qed.

(** The value of the helper on a valid configuration, with its frequency
    axis, its segment start indices and its transforms spelled out. *)
Lemma full_spectral_helper_detail (x y : list R) (NFFT : nat) (Fs : R)
    (detrend : list R -> list R) (window : window_t) (noverlap : nat)
    (pad_to : option nat) (sides : sides_t) (scale_by_freq : option bool) :
  length x = length y ->
  (noverlap < NFFT)%nat ->
  (forall p, pad_to = Some p -> (0 < p)%nat) ->
  (forall l, length (detrend l) = length l) ->
  length (window_values window NFFT) = NFFT ->
  Fs <> 0 ->
  let p := match pad_to with Some p => p | None => NFFT end in
  let twosided := match sides with TwoSided => true | _ => false end in
  let nf := num_freqs pad_to NFFT sides in
  let sf := if twosided then 1 else 2 in
  let sbf := match scale_by_freq with Some b => b | None => true end in
  let wv := window_values window NFFT in
  let wnorm := Rsum (map (fun w => Rabs w * Rabs w) wv) in
  let ind := arange_step (length (pad_signal NFFT x) - NFFT + 1) (NFFT - noverlap) in
  let fr := map (fun k => Fs / INR p * INR k) (seq 0 nf) in
  exists fxs fys,
    mapM (segment_fft detrend wv NFFT p nf (pad_signal NFFT x)) ind = Ok fxs /\
    mapM (segment_fft detrend wv NFFT p nf (pad_signal NFFT y)) ind = Ok fys /\
    full_spectral_helper x y NFFT Fs detrend window noverlap pad_to sides
                         scale_by_freq
    = Ok (mkSpectra
            (finish wnorm sf Fs sbf twosided nf
               (map (fun k => map (fun s => Re (cross (fst s) (fst s) k))
                                  (combine fxs fys)) (seq 0 nf)))
            (finish wnorm sf Fs sbf twosided nf
               (map (fun k => map (fun s => Re (cross (snd s) (snd s) k))
                                  (combine fxs fys)) (seq 0 nf)))
            (finish wnorm sf Fs sbf twosided nf
               (map (fun k => map (fun s => cross (fst s) (snd s) k)
                                  (combine fxs fys)) (seq 0 nf)))
            (if twosided
             then map (fun f => f - Fs) (skipn (nf / 2) fr) ++ firstn (nf / 2) fr
             else fr)
            (map (fun i => 1 / Fs * (INR i + INR NFFT / 2)) ind)).
Proof.
  intros Hxy Hov Hpad Hdet Hwin HF0 p twosided nf sf sbf wv wnorm ind fr.
  assert (Hp : (0 < p)%nat).
  { unfold p. destruct pad_to as [q |]; [apply Hpad; reflexivity | lia]. }
  assert (Hnf : nf = if twosided then p else (p / 2 + 1)%nat).
  { unfold nf, num_freqs, twosided. fold p. destruct sides; reflexivity. }
  set (x' := pad_signal NFFT x) in *. set (y' := pad_signal NFFT y).
  assert (Hlx : (NFFT <= length x')%nat)
    by (unfold x'; rewrite length_pad_signal; lia).
  assert (Hly : length y' = length x')
    by (unfold x', y'; rewrite !length_pad_signal; lia).
  assert (Hind : forall i, In i ind -> (i + NFFT <= length x')%nat).
  { intros i Hi. apply arange_step_bound in Hi; lia. }
  destruct (mapM_ok (segment_fft detrend wv NFFT p nf x') ind) as [fxs Hfx].
  { intros i Hi. apply segment_fft_ok; auto. }
  destruct (mapM_ok (segment_fft detrend wv NFFT p nf y') ind) as [fys Hfy].
  { intros i Hi. apply segment_fft_ok; auto. rewrite Hly. auto. }
  exists fxs, fys. split; [exact Hfx |]. split; [exact Hfy |].
  unfold full_spectral_helper. cbv zeta.
  fold p. fold twosided. rewrite <- Hnf. fold x'. fold y'.
  assert (Hw : match window with
               | WindowVals w =>
                   if (length w =? NFFT)%nat then Ok w else Raise AssertionError
               | WindowFun f => Ok (f (repeat 1 NFFT))
               end = Ok wv).
  { unfold wv, window_values in *. destruct window as [w | f]; [| reflexivity].
    rewrite Hwin, Nat.eqb_refl. reflexivity. }
  rewrite Hw. cbn [bind].
  replace (NFFT =? noverlap)%nat with false by (symmetry; apply Nat.eqb_neq; lia).
  replace (NFFT <? noverlap)%nat with false by (symmetry; apply Nat.ltb_ge; lia).
  fold ind. rewrite Hfx. cbn [bind]. rewrite Hfy. cbn [bind].
  destruct (Req_EM_T Fs 0) as [E | _]; [contradiction |].
  reflexivity.
Qed.

Lemma firstn_seq_min (n a len : nat) :
  firstn n (seq a len) = seq a (Nat.min n len).
Proof.
  revert a len. induction n as [| n IH]; intros a [| len]; simpl; try reflexivity.
  f_equal. apply IH.
Qed.

Lemma in_firstn_in {A : Type} (n : nat) (l : list A) (a : A) :
  In a (firstn n l) -> In a l.
Proof.
  intros H. rewrite <- (firstn_skipn n l). apply in_or_app. left. exact H.
Qed.

Lemma in_skipn_in {A : Type} (n : nat) (l : list A) (a : A) :
  In a (skipn n l) -> In a l.
Proof.
  intros H. rewrite <- (firstn_skipn n l). apply in_or_app. right. exact H.
Qed.

Lemma sorted_map_seq_R (f : nat -> R) :
  (forall i j, (i < j)%nat -> f i < f j) ->
  forall n a, StronglySorted Rlt (map f (seq a n)).
Proof.
  intros Hf. induction n as [| n IH]; intros a; simpl; constructor.
  - apply IH.
  - apply Forall_forall. intros y Hy. apply in_map_iff in Hy.
    destruct Hy as [j [<- Hj]]. apply in_seq in Hj. apply Hf. lia.
Qed.

Lemma sorted_app_R (l1 l2 : list R) :
  StronglySorted Rlt l1 -> StronglySorted Rlt l2 ->
  (forall a b, In a l1 -> In b l2 -> a < b) ->
  StronglySorted Rlt (l1 ++ l2).
Proof.
  intros H1 H2 Hlt. induction H1 as [| a l Hs IH Ha]; simpl; [exact H2 |].
  constructor.
  - apply IH. intros a' b Ha' Hb. apply Hlt; [right; exact Ha' | exact Hb].
  - apply Forall_app. split; [exact Ha |].
    apply Forall_forall. intros b Hb. apply Hlt; [left; reflexivity | exact Hb].
Qed.

(** The frequency axis returned by the helper is strictly increasing and
    has one entry per output frequency, one-sided or two-sided. *)
Theorem freqs_strictly_increasing (x y : list R) (NFFT : nat) (Fs : R)
    (detrend : list R -> list R) (window : window_t) (noverlap : nat)
    (pad_to : option nat) (sides : sides_t) (scale_by_freq : option bool) :
  length x = length y ->
  (noverlap < NFFT)%nat ->
  (forall p, pad_to = Some p -> (0 < p)%nat) ->
  (forall l, length (detrend l) = length l) ->
  length (window_values window NFFT) = NFFT ->
  0 < Fs ->
  exists s,
    full_spectral_helper x y NFFT Fs detrend window noverlap pad_to sides
                         scale_by_freq = Ok s /\
    StronglySorted Rlt (freqs s) /\
    length (freqs s) = num_freqs pad_to NFFT sides.
Proof.
  intros Hxy Hov Hpad Hdet Hwin HFs.
  assert (HF0 : Fs <> 0) by lra.
  destruct (full_spectral_helper_detail x y NFFT Fs detrend window noverlap pad_to
              sides scale_by_freq Hxy Hov Hpad Hdet Hwin HF0)
    as [fxs [fys [_ [_ Hrun]]]].
  cbv zeta in Hrun. eexists. split; [exact Hrun |]. cbn [freqs].
  set (p := match pad_to with Some p => p | None => NFFT end) in *.
  assert (Hp : (0 < p)%nat).
  { unfold p. destruct pad_to as [q |]; [apply Hpad; reflexivity | lia]. }
  assert (HP : 0 < INR p) by (apply lt_0_INR; exact Hp).
  set (nf := num_freqs pad_to NFFT sides) in *.
  set (c := Fs / INR p).
  assert (Hc : 0 < c) by (unfold c; apply Rdiv_lt_0_compat; assumption).
  assert (Hmono : forall i j, (i < j)%nat -> c * INR i < c * INR j).
  { intros i j Hij. apply Rmult_lt_compat_l; [exact Hc |]. apply lt_INR. exact Hij. }
  destruct sides; cbv iota.
  - split; [apply sorted_map_seq_R; exact Hmono |].
    rewrite length_map, length_seq. reflexivity.
  - split; [apply sorted_map_seq_R; exact Hmono |].
    rewrite length_map, length_seq. reflexivity.
  - assert (Hnf : nf = p) by (unfold nf, num_freqs; fold p; reflexivity).
    set (h := (nf / 2)%nat).
    assert (Hh : (h <= nf)%nat) by (unfold h; apply Nat.Div0.div_le_upper_bound; lia).
    rewrite skipn_map, skipn_seq, firstn_map, firstn_seq_min, map_map.
    rewrite Nat.min_l by exact Hh. simpl Nat.add.
    split.
    + apply sorted_app_R.
      * apply (sorted_map_seq_R (fun k => c * INR k - Fs)).
        intros i j Hij. specialize (Hmono i j Hij). lra.
      * apply sorted_map_seq_R. exact Hmono.
      * intros a b Ha Hb. apply in_map_iff in Ha, Hb.
        destruct Ha as [i [<- Hi]]. destruct Hb as [j [<- Hj]].
        apply in_seq in Hi, Hj.
        assert (Hi' : INR i < INR p) by (apply lt_INR; lia).
        assert (Hj' : 0 <= INR j) by apply pos_INR.
        assert (Hcp : c * INR p = Fs) by (unfold c; field; lra).
        assert (H1 : c * INR i < c * INR p)
          by (apply Rmult_lt_compat_l; assumption).
        assert (H2 : 0 <= c * INR j) by (apply Rmult_le_pos; lra).
        lra.
    + rewrite length_app, !length_map, !length_seq. lia.
Qed.

Lemma freqs_strictly_increasing_witness :
  exists s,
    full_spectral_helper [1; 2; 0; 1] [0; 1; 1; 3] 2 1 (fun l => l)
                         (WindowVals [1; 1]) 0 None TwoSided None = Ok s /\
    StronglySorted Rlt (freqs s).
Proof.
  destruct (freqs_strictly_increasing [1; 2; 0; 1] [0; 1; 1; 3] 2 1 (fun l => l)
              (WindowVals [1; 1]) 0 None TwoSided None)
    as [s [H1 [H2 _]]].
  - reflexivity.
  - lia.
  - intros p Hp. discriminate Hp.
  - intros l. reflexivity.
  - reflexivity.
  - lra.
  - exists s. split; [exact H1 | exact H2].
Defined.

Lemma rows_finish {A : Type} `{Dtype A} (n : nat) (wnorm sf Fs : R)
    (sbf twosided : bool) (nf : nat) (P : list (list A)) :
  Forall (fun row => length row = n) P ->
  Forall (fun row => length row = n) (finish wnorm sf Fs sbf twosided nf P).
Proof.
  intros HP. unfold finish.
  assert (Hdiv : forall w Q, Forall (fun row : list A => length row = n) Q ->
                             Forall (fun row => length row = n) (div_all w Q)).
  { intros w Q HQ. unfold div_all. apply Forall_map.
    eapply Forall_impl; [| exact HQ]. intros row Hr. simpl.
    rewrite length_map. exact Hr. }
  assert (Hsbl : forall s Q, Forall (fun row : list A => length row = n) Q ->
                   Forall (fun row => length row = n) (scale_but_last s Q)).
  { intros s Q HQ. induction HQ as [| r Q Hr HQ IH]; [constructor |].
    simpl. destruct Q as [| r' Q']; [constructor; [exact Hr | constructor] |].
    constructor; [rewrite length_map; exact Hr | exact IH]. }
  assert (H1 : Forall (fun row => length row = n)
                      (scale_inner sf (div_all wnorm P))).
  { pose proof (Hdiv wnorm P HP) as HQ. unfold scale_inner.
    destruct HQ as [| r Q Hr HQ]; [constructor |].
    constructor; [exact Hr | apply Hsbl; exact HQ]. }
  assert (H2 : Forall (fun row => length row = n)
                 (if sbf then div_all Fs (scale_inner sf (div_all wnorm P))
                  else scale_inner sf (div_all wnorm P))).
  { destruct sbf; [apply Hdiv |]; exact H1. }
  destruct twosided; [| exact H2].
  unfold recentre. apply Forall_app. split.
  - apply Forall_forall. intros r Hr. rewrite Forall_forall in H2.
    apply H2. eapply in_skipn_in. exact Hr.
  - apply Forall_forall. intros r Hr. rewrite Forall_forall in H2.
    apply H2. eapply in_firstn_in. exact Hr.
Qed.

(** The number of segments: with a nonzero sample rate the helper returns,
    having cut the (padded) signal into
    [(len - NFFT) / (NFFT - noverlap) + 1] segments, at least one, and every
    row of the three arrays and the time axis have that many entries. *)
Theorem segment_count (x y : list R) (NFFT : nat) (Fs : R)
    (detrend : list R -> list R) (window : window_t) (noverlap : nat)
    (pad_to : option nat) (sides : sides_t) (scale_by_freq : option bool) :
  length x = length y ->
  (noverlap < NFFT)%nat ->
  (forall p, pad_to = Some p -> (0 < p)%nat) ->
  (forall l, length (detrend l) = length l) ->
  length (window_values window NFFT) = NFFT ->
  Fs <> 0 ->
  let n := ((Nat.max NFFT (length x) - NFFT) / (NFFT - noverlap) + 1)%nat in
  exists s,
    full_spectral_helper x y NFFT Fs detrend window noverlap pad_to sides
                         scale_by_freq = Ok s /\
    Forall (fun row => length row = n) (Pxx s) /\
    Forall (fun row => length row = n) (Pyy s) /\
    Forall (fun row => length row = n) (Pxy s) /\
    length (t s) = n.
Proof.
  intros Hxy Hov Hpad Hdet Hwin HF0 n.
  destruct (full_spectral_helper_detail x y NFFT Fs detrend window noverlap pad_to
              sides scale_by_freq Hxy Hov Hpad Hdet Hwin HF0)
    as [fxs [fys [Hfx [Hfy Hrun]]]].
  cbv zeta in Hrun. eexists. split; [exact Hrun |].
  apply mapM_length in Hfx, Hfy.
  assert (Hind : length (arange_step (length (pad_signal NFFT x) - NFFT + 1)
                                     (NFFT - noverlap)) = n).
  { unfold arange_step. rewrite length_map, length_seq, length_pad_signal.
    unfold n. set (st := (NFFT - noverlap)%nat).
    replace (Nat.max NFFT (length x) - NFFT + 1 + st - 1)%nat
      with (Nat.max NFFT (length x) - NFFT + 1 * st)%nat by lia.
    apply Nat.div_add. unfold st. lia. }
  assert (Hseg : length (combine fxs fys) = n).
  { rewrite length_combine, Hfx, Hfy, Hind. lia. }
  cbn [Pxx Pyy Pxy t].
  repeat split.
  - apply rows_finish. apply Forall_map, Forall_forall. intros k _.
    rewrite length_map. exact Hseg.
  - apply rows_finish. apply Forall_map, Forall_forall. intros k _.
    rewrite length_map. exact Hseg.
  - apply rows_finish. apply Forall_map, Forall_forall. intros k _.
    rewrite length_map. exact Hseg.
  - rewrite length_map. exact Hind.
Qed.

Lemma segment_count_witness :
  exists s,
    full_spectral_helper [1; 2; 0; 1; 5] [0; 1; 1; 3; 2] 2 1 (fun l => l)
                         (WindowVals [1; 1]) 1 None Default None = Ok s /\
    length (t s) = 4%nat.
Proof.
  destruct (segment_count [1; 2; 0; 1; 5] [0; 1; 1; 3; 2] 2 1 (fun l => l)
              (WindowVals [1; 1]) 1 None Default None)
    as [s [H1 [_ [_ [_ H2]]]]].
  - reflexivity.
  - lia.
  - intros p Hp. discriminate Hp.
  - intros l. reflexivity.
  - reflexivity.
  - lra.
  - exists s. split; [exact H1 | exact H2].
Defined.

(** A zero sample rate: on an otherwise valid configuration the segments
    are transformed and scaled, and the helper then raises
    [ZeroDivisionError] at [t = 1. / Fs * (ind + NFFT / 2.)]. *)
Theorem zero_sample_rate_raises (x y : list R) (NFFT : nat)
    (detrend : list R -> list R) (window : window_t) (noverlap : nat)
    (pad_to : option nat) (sides : sides_t) (scale_by_freq : option bool) :
  length x = length y ->
  (noverlap < NFFT)%nat ->
  (forall p, pad_to = Some p -> (0 < p)%nat) ->
  (forall l, length (detrend l) = length l) ->
  length (window_values window NFFT) = NFFT ->
  full_spectral_helper x y NFFT 0 detrend window noverlap pad_to sides
                       scale_by_freq = Raise ZeroDivisionError.
Proof.
  intros Hxy Hov Hpad Hdet Hwin.
  set (p := match pad_to with Some p => p | None => NFFT end).
  assert (Hp : (0 < p)%nat).
  { unfold p. destruct pad_to as [q |]; [apply Hpad; reflexivity | lia]. }
  set (twosided := match sides with TwoSided => true | _ => false end).
  set (nf := if twosided then p else (p / 2 + 1)%nat).
  set (x' := pad_signal NFFT x). set (y' := pad_signal NFFT y).
  assert (Hlx : (NFFT <= length x')%nat)
    by (unfold x'; rewrite length_pad_signal; lia).
  assert (Hly : length y' = length x')
    by (unfold x', y'; rewrite !length_pad_signal; lia).
  set (ind := arange_step (length x' - NFFT + 1) (NFFT - noverlap)).
  assert (Hind : forall i, In i ind -> (i + NFFT <= length x')%nat).
  { intros i Hi. apply arange_step_bound in Hi; lia. }
  set (wv := window_values window NFFT) in *.
  destruct (mapM_ok (segment_fft detrend wv NFFT p nf x') ind) as [fxs Hfx].
  { intros i Hi. apply segment_fft_ok; auto. }
  destruct (mapM_ok (segment_fft detrend wv NFFT p nf y') ind) as [fys Hfy].
  { intros i Hi. apply segment_fft_ok; auto. rewrite Hly. auto. }
  unfold full_spectral_helper. cbv zeta.
  fold p. fold twosided. fold nf. fold x'. fold y'.
  assert (Hw : match window with
               | WindowVals w =>
                   if (length w =? NFFT)%nat then Ok w else Raise AssertionError
               | WindowFun f => Ok (f (repeat 1 NFFT))
               end = Ok wv).
  { unfold wv, window_values in *. destruct window as [w | f]; [| reflexivity].
    rewrite Hwin, Nat.eqb_refl. reflexivity. }
  rewrite Hw. cbn [bind].
  replace (NFFT =? noverlap)%nat with false by (symmetry; apply Nat.eqb_neq; lia).
  replace (NFFT <? noverlap)%nat with false by (symmetry; apply Nat.ltb_ge; lia).
  fold ind. rewrite Hfx. cbn [bind]. rewrite Hfy. cbn [bind].
  destruct (Req_EM_T 0 0) as [_ | Hn]; [reflexivity | contradiction Hn; reflexivity].
Qed.

Lemma zero_sample_rate_raises_witness :
  full_spectral_helper [1; 2; 0; 1] [0; 1; 1; 3] 2 0 (fun l => l)
                       (WindowVals [1; 1]) 0 None Default None
  = Raise ZeroDivisionError.
Proof.
  apply (zero_sample_rate_raises [1; 2; 0; 1] [0; 1; 1; 3] 2 (fun l => l)
           (WindowVals [1; 1]) 0 None Default None).
  - reflexivity.
  - lia.
  - intros p Hp. discriminate Hp.
  - intros l. reflexivity.
  - reflexivity.
Defined.

Lemma in_combine_same {A : Type} (l : list A) (s : A * A) :
  In s (combine l l) -> fst s = snd s.
Proof.
  induction l as [| a l IH]; simpl; [intros [] |].
  intros [<- | H]; [reflexivity | apply IH, H].
Qed.

Lemma scale_but_last_RtoC (sf : R) (P : list (list R)) :
  scale_but_last sf (map (map RtoC) P) = map (map RtoC) (scale_but_last sf P).
Proof.
  induction P as [| r P IH]; [reflexivity |].
  simpl. destruct P as [| r' P']; [reflexivity |].
  simpl in IH |- *. rewrite IH. f_equal.
  rewrite !map_map. apply map_ext. intros a.
  unfold Cmul, RtoC. simpl. f_equal; ring.
Qed.

Lemma div_all_RtoC (w : R) (P : list (list R)) :
  w <> 0 -> div_all w (map (map RtoC) P) = map (map RtoC) (div_all w P).
Proof.
  intros Hw. unfold div_all. rewrite !map_map. apply map_ext. intros row.
  rewrite !map_map. apply map_ext. intros a.
  simpl. unfold Cdiv, Cmul, Cinv, Cnorm2, RtoC. simpl. f_equal; field; exact Hw.
Qed.

Lemma finish_RtoC (wnorm sf Fs : R) (sbf twosided : bool) (nf : nat)
    (P : list (list R)) :
  wnorm <> 0 -> Fs <> 0 ->
  finish wnorm sf Fs sbf twosided nf (map (map RtoC) P)
  = map (map RtoC) (finish wnorm sf Fs sbf twosided nf P).
Proof.
  intros Hw HF. unfold finish.
  rewrite (div_all_RtoC wnorm P Hw).
  assert (H1 : scale_inner sf (map (map RtoC) (div_all wnorm P))
               = map (map RtoC) (scale_inner sf (div_all wnorm P))).
  { unfold scale_inner. destruct (div_all wnorm P) as [| r Q]; [reflexivity |].
    simpl. f_equal. apply scale_but_last_RtoC. }
  rewrite H1.
  assert (H2 : (if sbf
                then div_all Fs (map (map RtoC) (scale_inner sf (div_all wnorm P)))
                else map (map RtoC) (scale_inner sf (div_all wnorm P)))
               = map (map RtoC)
                   (if sbf then div_all Fs (scale_inner sf (div_all wnorm P))
                    else scale_inner sf (div_all wnorm P))).
  { destruct sbf; [apply div_all_RtoC; exact HF | reflexivity]. }
  rewrite H2. destruct twosided; [| reflexivity].
  unfold recentre. rewrite skipn_map, firstn_map, map_app. reflexivity.
Qed.

(** Fed the same signal twice, the helper returns the same auto-density
    twice and a cross-density that is this auto-density, with no imaginary
    part. *)
Theorem identical_signals (x : list R) (NFFT : nat) (Fs : R)
    (detrend : list R -> list R) (window : window_t) (noverlap : nat)
    (pad_to : option nat) (sides : sides_t) (scale_by_freq : option bool) :
  (noverlap < NFFT)%nat ->
  (forall p, pad_to = Some p -> (0 < p)%nat) ->
  (forall l, length (detrend l) = length l) ->
  length (window_values window NFFT) = NFFT ->
  Rsum (map (fun w => Rabs w * Rabs w) (window_values window NFFT)) <> 0 ->
  Fs <> 0 ->
  exists s,
    full_spectral_helper x x NFFT Fs detrend window noverlap pad_to sides
                         scale_by_freq = Ok s /\
    Pyy s = Pxx s /\
    Pxy s = map (map RtoC) (Pxx s).
Proof.
  intros Hov Hpad Hdet Hwin Hw HF.
  destruct (full_spectral_helper_detail x x NFFT Fs detrend window noverlap pad_to
              sides scale_by_freq eq_refl Hov Hpad Hdet Hwin HF)
    as [fxs [fys [Hfx [Hfy Hrun]]]].
  cbv zeta in Hrun. rewrite Hfx in Hfy. injection Hfy as <-.
  eexists. split; [exact Hrun |]. cbn [Pxx Pyy Pxy].
  split.
  - f_equal. apply map_ext. intros k. apply map_ext_in. intros s Hs.
    rewrite (in_combine_same fxs s Hs). reflexivity.
  - rewrite <- finish_RtoC by assumption. f_equal.
    rewrite map_map. apply map_ext. intros k.
    rewrite map_map. apply map_ext_in. intros s Hs.
    rewrite <- (in_combine_same fxs s Hs).
    unfold cross, Cmul, Cconj, RtoC. simpl. f_equal. ring.
Qed.

Lemma identical_signals_witness :
  exists s,
    full_spectral_helper [1; 2; 0; 1] [1; 2; 0; 1] 2 1 (fun l => l)
                         (WindowVals [1; 1]) 0 None Default None = Ok s /\
    Pyy s = Pxx s.
Proof.
  destruct (identical_signals [1; 2; 0; 1] 2 1 (fun l => l)
              (WindowVals [1; 1]) 0 None Default None)
    as [s [H1 [H2 _]]].
  - lia.
  - intros p Hp. discriminate Hp.
  - intros l. reflexivity.
  - reflexivity.
  - simpl. rewrite Rabs_R1. lra.
  - lra.
  - exists s. split; [exact H1 | exact H2].
Defined.

End SpectralShape.

(** ** Invariants of the principal-component decomposition *)

Module PcaInvariants.

Import Cplx PCA PCAFacts.
Local Open Scope R_scope.

(** The rows of a real matrix with orthonormal columns are orthonormal. *)
Lemma rows_orthonormal (x0 y0 x1 y1 : R) :
  x0 * x0 + x1 * x1 = 1 -> y0 * y0 + y1 * y1 = 1 -> x0 * y0 + x1 * y1 = 0 ->
  x0 * x0 + y0 * y0 = 1 /\ x1 * x1 + y1 * y1 = 1 /\ x0 * x1 + y0 * y1 = 0.
Proof.
  intros O1 O2 O3.
  set (dl := x0 * y1 - y0 * x1).
  assert (H1 : y1 = dl * x0).
  { replace (dl * x0) with (y1 * (x0 * x0 + x1 * x1) - x1 * (x0 * y0 + x1 * y1))
      by (unfold dl; ring). rewrite O1, O3. ring. }
  assert (H2 : y0 = - (dl * x1)).
  { replace (dl * x1) with (- y0 * (x0 * x0 + x1 * x1) + x0 * (x0 * y0 + x1 * y1))
      by (unfold dl; ring). rewrite O1, O3. ring. }
  assert (Hd : dl * dl = 1).
  { replace (dl * dl)
      with ((x0 * x0 + x1 * x1) * (y0 * y0 + y1 * y1)
            - (x0 * y0 + x1 * y1) * (x0 * y0 + x1 * y1)) by (unfold dl; ring).
    rewrite O1, O2, O3. ring. }
  clearbody dl. subst y0 y1.
  repeat split.
  - replace (x0 * x0 + - (dl * x1) * - (dl * x1))
      with (x0 * x0 + dl * dl * (x1 * x1)) by ring.
    rewrite Hd. lra.
  - replace (x1 * x1 + dl * x0 * (dl * x0))
      with (x1 * x1 + dl * dl * (x0 * x0)) by ring.
    rewrite Hd. lra.
  - replace (x0 * x1 + - (dl * x1) * (dl * x0))
      with ((1 - dl * dl) * (x0 * x1)) by ring.
    rewrite Hd. ring.
Qed.

Section WithEigh.

Variable eigh : M2 R -> (R * R) * M2 R.
Hypothesis eigh_ok : eigh_correct eigh.

(** The rotation conserves the power of every bin: the two rotated powers
    add up to [S_ii + S_qq], and so do the two eigenvalues of the bin. *)
Theorem pca_power_conserved (pii pqq : list R) (piq : list C) :
  length pqq = length pii -> length piq = length pii -> pii <> [] ->
  exists r,
    calculate_pca_noise eigh pii pqq piq = Ok r /\
    forall k a d c,
      nth_error pii k = Some a -> nth_error pqq k = Some d ->
      nth_error piq k = Some c ->
      exists s w,
        nth_error (S_rotated r) k = Some s /\ nth_error (evals r) k = Some w /\
        fst s + snd s = a + d /\ fst w + snd w = a + d.
Proof.
  intros H1 H2 Hne.
  destruct (calculate_pca_noise_run eigh eigh_ok pii pqq piq H1 H2 Hne)
    as [a0 [d0 [c0 [_ [_ Hrun]]]]].
  cbv zeta in Hrun.
  eexists. split; [exact Hrun |].
  intros k a d c Ha Hd Hc.
  assert (Hk : nth_error (bins pii pqq piq) k = Some (a, (d, c))).
  { apply nth_error_bins. auto. }
  do 2 eexists.
  split; [cbn [S_rotated]; rewrite nth_error_map, Hk; reflexivity |].
  split; [cbn [evals]; rewrite !nth_error_map, Hk; reflexivity |].
  split.
  - pose proof (eigh_ok (eigh_matrix a0 d0 c0) (eigh_matrix_symmetric a0 d0 c0))
      as Hs.
    destruct (eigh (eigh_matrix a0 d0 c0)) as [w0 [x0 y0 x1 y1]].
    destruct Hs as [_ [_ [_ [_ [_ [O1 [O2 O3]]]]]]]. simpl in O1, O2, O3.
    destruct (rows_orthonormal x0 y0 x1 y1 O1 O2 O3) as [R1 [R2 R3]].
    destruct c as [cr ci].
    unfold bin_rot, dot, full_matrix, transpose, M2map, Cadd, Cmul, Cconj, RtoC.
    simpl.
    match goal with
    | |- ?l = _ =>
        replace l with (a * (x0 * x0 + y0 * y0) + d * (x1 * x1 + y1 * y1)
                        + 2 * cr * (x0 * x1 + y0 * y1)) by ring
    end.
    rewrite R1, R2, R3. ring.
  - pose proof (eigh_ok (eigh_matrix a d c) (eigh_matrix_symmetric a d c)) as Hs.
    simpl. destruct (eigh (eigh_matrix a d c)) as [[w0 w1] [x0 y0 x1 y1]].
    unfold eigh_spec, eigh_matrix in Hs. simpl in Hs |- *.
    destruct Hs as [_ [E1 [E2 [E3 [E4 [O1 [O2 O3]]]]]]].
    destruct (rows_orthonormal x0 y0 x1 y1 O1 O2 O3) as [R1 [R2 R3]].
    replace w0 with (x0 * (w0 * x0) + x1 * (w0 * x1))
      by (replace (x0 * (w0 * x0) + x1 * (w0 * x1))
            with (w0 * (x0 * x0 + x1 * x1)) by ring; rewrite O1; ring).
    replace w1 with (y0 * (w1 * y0) + y1 * (w1 * y1))
      by (replace (y0 * (w1 * y0) + y1 * (w1 * y1))
            with (w1 * (y0 * y0 + y1 * y1)) by ring; rewrite O2; ring).
    rewrite <- E1, <- E2, <- E3, <- E4.
    match goal with
    | |- ?l = _ =>
        replace l with (a * (x0 * x0 + y0 * y0) + d * (x1 * x1 + y1 * y1)
                        + 2 * Re c * (x0 * x1 + y0 * y1)) by ring
    end.
    rewrite R1, R2, R3. ring.
Qed.

(** At the reference bin 0, when its cross density is real, the rotated
    powers are the eigenvalues of that bin: the fixed basis diagonalises the
    bin it was taken from. *)
Theorem pca_reference_bin (pii pqq : list R) (piq : list C) (a0 d0 : R) (c0 : C) :
  length pqq = length pii -> length piq = length pii ->
  nth_error pii 0 = Some a0 -> nth_error pqq 0 = Some d0 ->
  nth_error piq 0 = Some c0 -> Im c0 = 0 ->
  exists r w,
    calculate_pca_noise eigh pii pqq piq = Ok r /\
    nth_error (evals r) 0 = Some w /\
    nth_error (S_rotated r) 0 = Some w.
Proof.
  intros H1 H2 Ha Hd Hc Him.
  assert (Hne : pii <> []) by (destruct pii; [discriminate | congruence]).
  destruct (calculate_pca_noise_run eigh eigh_ok pii pqq piq H1 H2 Hne)
    as [a0' [d0' [c0' [H0 [_ Hrun]]]]].
  cbv zeta in Hrun.
  assert (Hk : nth_error (bins pii pqq piq) 0 = Some (a0, (d0, c0))).
  { apply nth_error_bins. auto. }
  rewrite Hk in H0. injection H0 as <- <- <-.
  eexists. exists (fst (eigh (eigh_matrix a0 d0 c0))).
  split; [exact Hrun |].
  split; [cbn [evals]; rewrite !nth_error_map, Hk; reflexivity |].
  cbn [S_rotated]. rewrite nth_error_map, Hk. simpl option_map. f_equal.
  pose proof (eigh_ok (eigh_matrix a0 d0 c0) (eigh_matrix_symmetric a0 d0 c0)) as Hs.
  destruct (eigh (eigh_matrix a0 d0 c0)) as [[w0 w1] [x0 y0 x1 y1]].
  unfold eigh_spec, eigh_matrix in Hs. simpl in Hs.
  destruct Hs as [_ [E1 [E2 [E3 [E4 [O1 [O2 O3]]]]]]].
  destruct c0 as [cr ci]. simpl in Him. subst ci. simpl in E1, E2, E3, E4.
  unfold bin_rot, dot, full_matrix, transpose, M2map, Cadd, Cmul, Cconj, RtoC.
  simpl. f_equal.
  - replace w0 with (x0 * (w0 * x0) + x1 * (w0 * x1))
      by (replace (x0 * (w0 * x0) + x1 * (w0 * x1))
            with (w0 * (x0 * x0 + x1 * x1)) by ring; rewrite O1; ring).
    rewrite <- E1, <- E2. ring.
  - replace w1 with (y0 * (w1 * y0) + y1 * (w1 * y1))
      by (replace (y0 * (w1 * y0) + y1 * (w1 * y1))
            with (w1 * (y0 * y0 + y1 * y1)) by ring; rewrite O2; ring).
    rewrite <- E3, <- E4. ring.
Qed.

End WithEigh.

Lemma pca_power_conserved_witness :
  exists r s,
    calculate_pca_noise eigh2 [1; 2] [1; 3] [RtoC 0; mkC 1 1] = Ok r /\
    nth_error (S_rotated r) 1 = Some s /\ fst s + snd s = 2 + 3.
Proof.
  destruct (pca_power_conserved eigh2 eigh2_correct
              [1; 2] [1; 3] [RtoC 0; mkC 1 1] eq_refl eq_refl)
    as [r [H Hk]].
  - discriminate.
  - destruct (Hk 1%nat 2 3 (mkC 1 1) eq_refl eq_refl eq_refl)
      as [s [w [Hs [_ [Hsum _]]]]].
    exists r, s. split; [exact H |]. split; [exact Hs | exact Hsum].
Defined.

Lemma pca_reference_bin_witness :
  exists r w,
    calculate_pca_noise eigh2 [1; 2] [1; 3] [RtoC 2; mkC 1 1] = Ok r /\
    nth_error (evals r) 0 = Some w /\ nth_error (S_rotated r) 0 = Some w.
Proof.
  apply (pca_reference_bin eigh2 eigh2_correct
           [1; 2] [1; 3] [RtoC 2; mkC 1 1] 1 1 (RtoC 2));
    reflexivity.
Defined.

Lemma mapM_raise {X B : Type} (f : X -> result B) (e : exn) (l : list X) :
  (forall a, In a l -> f a = Raise e \/ exists b, f a = Ok b) ->
  (exists a, In a l /\ f a = Raise e) ->
  mapM f l = Raise e.
Proof.
  induction l as [| a l IH]; intros Hall [a' [Hin Hr]]; [destruct Hin |].
  simpl. destruct (Hall a (or_introl eq_refl)) as [Ha | [b Hb]].
  - rewrite Ha. reflexivity.
  - rewrite Hb. cbn [bind].
    destruct Hin as [<- | Hin]; [congruence |].
    rewrite IH; [reflexivity | | exists a'; auto].
    intros x Hx. apply Hall. right. exact Hx.
Qed.

Lemma index_cases {A : Type} (l : list A) (k : nat) :
  (k < length l /\ exists a, index l k = Ok a)%nat \/
  (length l <= k /\ index l k = Raise IndexError)%nat.
Proof.
  unfold index. destruct (nth_error l k) as [a |] eqn:E.
  - left. split; [apply nth_error_Some; congruence | exists a; reflexivity].
  - right. split; [apply nth_error_None; exact E | reflexivity].
Qed.

(** [calculate_pca_noise] raises [IndexError] on empty spectra and when
    [pqq] or [piq] is shorter than [pii], whatever the eigensolver. *)
Theorem calculate_pca_noise_index_error (eigh : M2 R -> (R * R) * M2 R)
    (pii pqq : list R) (piq : list C) :
  pii = [] \/ (length pqq < length pii)%nat \/ (length piq < length pii)%nat ->
  calculate_pca_noise eigh pii pqq piq = Raise IndexError.
Proof.
  intros H. unfold calculate_pca_noise.
  destruct H as [-> | Hshort]; [reflexivity |].
  rewrite (mapM_raise (first_loop_bin eigh pii pqq piq) IndexError);
    [reflexivity | |].
  - intros k _. unfold first_loop_bin.
    destruct (index_cases pii k) as [[_ [a ->]] | [_ ->]]; [| left; reflexivity].
    cbn [bind].
    destruct (index_cases piq k) as [[_ [c ->]] | [_ ->]]; [| left; reflexivity].
    cbn [bind].
    destruct (index_cases pqq k) as [[_ [d ->]] | [_ ->]]; [| left; reflexivity].
    cbn [bind]. right.
    destruct (eigh (eigh_matrix a d c)) as [w v]. eexists. reflexivity.
  - exists (Nat.min (length pqq) (length piq)). split; [apply in_seq; lia |].
    unfold first_loop_bin.
    destruct (index_cases pii (Nat.min (length pqq) (length piq)))
      as [[_ [a ->]] | [_ ->]]; [| reflexivity].
    cbn [bind].
    destruct (index_cases piq (Nat.min (length pqq) (length piq)))
      as [[Hc [c ->]] | [_ ->]]; [| reflexivity].
    cbn [bind].
    destruct (index_cases pqq (Nat.min (length pqq) (length piq)))
      as [[Hd _] | [_ ->]]; [lia | reflexivity].
Qed.

Lemma calculate_pca_noise_index_error_witness :
  calculate_pca_noise eigh2 [1; 2] [1] [RtoC 0; RtoC 1] = Raise IndexError.
Proof.
  apply calculate_pca_noise_index_error. right. left. simpl. lia.
Defined.

End PcaInvariants.

(** ** [pca_noise] end to end *)

Module PcaNoiseFacts.

Import Cplx PCA PCAFacts Spectral SpectralFacts PcaNoise.
Local Open Scope R_scope.

(** The averaged densities of a valid configuration form, at every output
    frequency, a positive-semidefinite matrix. *)
Lemma averaged_psd (x y : list R) (NFFT : nat) (Fs : R)
    (detrend : list R -> list R) (window : window_t) (noverlap : nat)
    (pad_to : option nat) (sides : sides_t) (scale_by_freq : option bool) :
  length x = length y ->
  (noverlap < NFFT)%nat ->
  (forall p, pad_to = Some p -> (0 < p)%nat) ->
  0 < Fs ->
  (forall l, length (detrend l) = length l) ->
  length (window_values window NFFT) = NFFT ->
  0 < Rsum (map (fun w => Rabs w * Rabs w) (window_values window NFFT)) ->
  exists s,
    full_spectral_helper x y NFFT Fs detrend window noverlap pad_to sides
                         scale_by_freq = Ok s /\
    length (map mean_R (Pxx s)) = num_freqs pad_to NFFT sides /\
    length (map mean_R (Pyy s)) = num_freqs pad_to NFFT sides /\
    length (map mean_C (Pxy s)) = num_freqs pad_to NFFT sides /\
    forall j sxx syy sxy,
      nth_error (map mean_R (Pxx s)) j = Some sxx ->
      nth_error (map mean_R (Pyy s)) j = Some syy ->
      nth_error (map mean_C (Pxy s)) j = Some sxy ->
      0 <= sxx /\ 0 <= syy /\ Cnorm2 sxy <= sxx * syy.
Proof.
  intros Hxy Hov Hpad HFs Hdet Hwin Hnorm.
  assert (HF0 : Fs <> 0) by lra.
  destruct (full_spectral_helper_run x y NFFT Fs detrend window noverlap pad_to
              sides scale_by_freq Hxy Hov Hpad Hdet Hwin HF0)
    as [segs [sf [sbf [twosided [fr [tm [Hsf Hrun]]]]]]].
  cbv zeta in Hrun.
  set (wnorm := Rsum (map (fun w => Rabs w * Rabs w) (window_values window NFFT))) in *.
  set (nf := num_freqs pad_to NFFT sides) in *.
  eexists. split; [exact Hrun |]. cbn [Pxx Pyy Pxy].
  split; [rewrite length_map, length_finish, length_map, length_seq; reflexivity |].
  split; [rewrite length_map, length_finish, length_map, length_seq; reflexivity |].
  split; [rewrite length_map, length_finish, length_map, length_seq; reflexivity |].
  intros j sxx syy sxy H1 H2 H3.
  rewrite nth_error_map in H1, H2, H3.
  destruct (nth_error (finish wnorm sf Fs sbf twosided nf _) j) as [rxx |] eqn:E1
    in H1; [| discriminate].
  destruct (nth_error (finish wnorm sf Fs sbf twosided nf _) j) as [ryy |] eqn:E2
    in H2; [| discriminate].
  destruct (nth_error (finish wnorm sf Fs sbf twosided nf _) j) as [rxy |] eqn:E3
    in H3; [| discriminate].
  simpl in H1, H2, H3. injection H1 as <-. injection H2 as <-. injection H3 as <-.
  apply good_row_means.
  eapply rows3_nth; [| exact E1 | exact E2 | exact E3].
  apply rows3_finish; try assumption.
  apply rows3_init. intros k. apply good_row_raw.
Qed.

(** End to end: on a valid configuration [pca_noise] returns, with one
    eigenvalue pair per output frequency, [NFFT/2 + 1] of them, and every
    eigenvalue is nonnegative: the spectra the helper produces are
    positive semidefinite, so the decomposition never reports a negative
    power. *)
Theorem pca_noise_eigenvalues_nonneg (eigh : M2 R -> (R * R) * M2 R)
    (d : list C) (NFFT : option nat) (Fs : R) (window : window_t)
    (detrend : list R -> list R) :
  eigh_correct eigh ->
  let n := match NFFT with Some n => n | None => default_nfft (length d) end in
  (0 < n)%nat -> 0 < Fs ->
  (forall l, length (detrend l) = length l) ->
  length (window_values window n) = n ->
  0 < Rsum (map (fun w => Rabs w * Rabs w) (window_values window n)) ->
  exists fr r piq,
    pca_noise eigh d NFFT Fs window detrend = Ok (fr, r, piq) /\
    length (evals r) = (n / 2 + 1)%nat /\
    length piq = (n / 2 + 1)%nat /\
    forall k w, nth_error (evals r) k = Some w -> 0 <= fst w /\ 0 <= snd w.
Proof.
  intros Heigh n Hn HFs Hdet Hwin Hnorm.
  destruct (averaged_psd (map Re d) (map Im d) n Fs detrend window 0 None Default
              None) as [s [Hs [L1 [L2 [L3 Hpsd]]]]]; try assumption.
  { rewrite !length_map. reflexivity. }
  { intros p Hp. discriminate Hp. }
  change (num_freqs None n Default) with (n / 2 + 1)%nat in L1, L2, L3.
  set (pii := map mean_R (Pxx s)) in *.
  set (pqq := map mean_R (Pyy s)) in *.
  set (piq := map mean_C (Pxy s)) in *.
  assert (Hne : pii <> []).
  { intros E. rewrite E in L1. simpl in L1. lia. }
  destruct (calculate_pca_noise_run eigh Heigh pii pqq piq) as
    [a0 [d0 [c0 [_ [_ Hrun]]]]]; try congruence.
  cbv zeta in Hrun.
  do 3 eexists. split.
  { unfold pca_noise. fold n. rewrite Hs. cbn [bind]. unfold averaged.
    fold pii pqq piq. rewrite Hrun. cbn [bind]. reflexivity. }
  cbn [evals].
  split; [rewrite !length_map, length_bins; congruence |].
  split; [exact L3 |].
  intros k w Hw. rewrite !nth_error_map in Hw.
  destruct (nth_error (bins pii pqq piq) k) as [[a [dd c]] |] eqn:Ek;
    [| discriminate].
  simpl in Hw. injection Hw as <-.
  apply nth_error_bins in Ek. destruct Ek as [Ha [Hd Hc]].
  destruct (Hpsd k a dd c Ha Hd Hc) as [Pa [Pd Pc]].
  pose proof (Heigh (eigh_matrix a dd c) (eigh_matrix_symmetric a dd c)) as Hsp.
  destruct (eigh (eigh_matrix a dd c)) as [[w0 w1] [x0 y0 x1 y1]].
  unfold eigh_spec, eigh_matrix in Hsp. simpl in Hsp |- *.
  destruct Hsp as [_ [E1 [E2 [E3 [E4 [O1 [O2 _]]]]]]].
  assert (Hb : Re c * Re c <= a * dd).
  { unfold Cnorm2 in Pc. pose proof (sq_nonneg (Im c)). lra. }
  split.
  - apply (psd_eigenvalue_nonneg a (Re c) dd x0 x1 w0); assumption.
  - apply (psd_eigenvalue_nonneg a (Re c) dd y0 y1 w1); assumption.
Qed.

Lemma pca_noise_eigenvalues_nonneg_witness :
  exists fr r piq,
    pca_noise eigh2 [mkC 1 0; mkC 2 1; mkC 0 1; mkC 1 3] (Some 2%nat) 1
              (WindowVals [1; 1]) (fun l => l) = Ok (fr, r, piq) /\
    length (evals r) = 2%nat.
Proof.
  destruct (pca_noise_eigenvalues_nonneg eigh2
              [mkC 1 0; mkC 2 1; mkC 0 1; mkC 1 3] (Some 2%nat) 1
              (WindowVals [1; 1]) (fun l => l) eigh2_correct)
    as [fr [r [piq [H [L _]]]]].
  - lia.
  - lra.
  - intros l. reflexivity.
  - reflexivity.
  - simpl. rewrite Rabs_R1. lra.
  - exists fr, r, piq. split; [exact H | exact L].
Defined.

(** The default segment length: for at least eight samples it is a power
    of two between a sixteenth (exclusive) and an eighth (inclusive) of the
    number of samples, so between 8 and 15 segments are averaged. *)
Theorem default_nfft_bounds (n : nat) :
  (8 <= n)%nat ->
  exists e,
    default_nfft n = (2 ^ e)%nat /\
    (8 * default_nfft n <= n)%nat /\ (n < 16 * default_nfft n)%nat /\
    (8 <= n / default_nfft n)%nat /\ (n / default_nfft n <= 15)%nat.
Proof.
  intros Hn. unfold default_nfft.
  replace (n <? 8)%nat with false by (symmetry; apply Nat.ltb_ge; exact Hn).
  assert (Hl : (3 <= Nat.log2 n)%nat).
  { change 3%nat with (Nat.log2 8). apply Nat.log2_le_mono. exact Hn. }
  destruct (Nat.log2_spec n) as [Hlo Hhi]; [lia |].
  set (e := (Nat.log2 n - 3)%nat).
  assert (He : Nat.log2 n = (e + 3)%nat) by (unfold e; lia).
  rewrite He in Hlo, Hhi.
  replace (S (e + 3)) with (e + 4)%nat in Hhi by lia.
  rewrite Nat.pow_add_r in Hlo, Hhi.
  change (2 ^ 3)%nat with 8%nat in Hlo. change (2 ^ 4)%nat with 16%nat in Hhi.
  assert (Hpos : (0 < 2 ^ e)%nat) by (apply Nat.neq_0_lt_0, Nat.pow_nonzero; lia).
  exists e. split; [reflexivity |].
  split; [lia |]. split; [lia |]. split.
  - apply Nat.div_le_lower_bound; lia.
  - assert (n / 2 ^ e < 16)%nat by (apply Nat.Div0.div_lt_upper_bound; lia). lia.
Qed.

Lemma default_nfft_bounds_witness :
  exists e, default_nfft 1000 = (2 ^ e)%nat /\ (8 * default_nfft 1000 <= 1000)%nat.
Proof.
  destruct (default_nfft_bounds 1000) as [e [H1 [H2 _]]].
  - lia.
  - exists e. split; [exact H1 | exact H2].
Defined.

(** With fewer than eight samples and no [NFFT] given, the default segment
    length is zero and [pca_noise] raises [ZeroDivisionError] (from the
    segment stride of zero) instead of returning spectra. *)
Theorem pca_noise_too_short (eigh : M2 R -> (R * R) * M2 R) (d : list C)
    (Fs : R) (f : list R -> list R) (detrend : list R -> list R) :
  (length d < 8)%nat ->
  pca_noise eigh d None Fs (WindowFun f) detrend = Raise ZeroDivisionError.
Proof.
  intros Hd. unfold pca_noise, default_nfft.
  replace (length d <? 8)%nat with true by (symmetry; apply Nat.ltb_lt; exact Hd).
  reflexivity.
Qed.

Lemma pca_noise_too_short_witness :
  pca_noise eigh2 [mkC 1 0; mkC 2 1; mkC 0 1] None 1
            (WindowFun (fun l => l)) (fun l => l) = Raise ZeroDivisionError.
Proof. apply pca_noise_too_short. simpl. lia. Defined.

End PcaNoiseFacts.
